(** * Sprite / asset loading and caching: AssetLoader and SpriteManager

    A shallow embedding of the two loader classes of the repository,

      - [AssetLoader]   (src/index.js, the utils/AssetLoader module), and
      - [SpriteManager] (graphics/SpriteManager),

    as explicit state machines.  Every JavaScript macrotask that touches a
    loader is one event of the machine: a method call, an image [onload] or
    [onerror] callback, or a timer callback.  A promise continuation that the
    loader itself registered ([await loadPromise] inside
    [SpriteManager.loadSprite]) runs at the microtask checkpoint of the task
    that settled the promise, so it is part of that event.

    Conventions.
      - Keys are ASCII strings; [toLowerCase] lowers A-Z only.
      - A JS [Map] is an association list in insertion order, because
        [Map.prototype.keys] and [for ... of] are observable in the eviction
        code.
      - [Date.now()] is an integer supplied with the event that reads it.
      - An [Image] fires at most one of [load] / [error], once. *)

From Stdlib Require Import ZArith List String Ascii Bool Lia QArith Qcanon.
From stdpp Require Import base list.
Import ListNotations.

Local Open Scope string_scope.
Local Open Scope Z_scope.
Local Open Scope nat_scope.
Local Open Scope list_scope.

(* ================================================================== *)
(** ** JavaScript strings and values *)

Module JsString.

(** One code unit of [String.prototype.toLowerCase] on ASCII input. *)
Definition toLowerAscii (c : ascii) : ascii :=
  let n := nat_of_ascii c in
  if (65 <=? n) && (n <=? 90) then ascii_of_nat (n + 32) else c.

Fixpoint toLowerCase (s : string) : string :=
  match s with
  | EmptyString => EmptyString
  | String c r => String (toLowerAscii c) (toLowerCase r)
  end.

(** [s.split(sep)] for a one-character separator.  The result is never
    empty: [''.split('.')] is [['']]. *)
Fixpoint split (sep : ascii) (s : string) : list string :=
  match s with
  | EmptyString => [EmptyString]
  | String c r =>
      if Ascii.eqb c sep then EmptyString :: split sep r
      else match split sep r with
           | seg :: segs => String c seg :: segs
           | [] => [String c EmptyString]
           end
  end.

(** [arr.pop()] read as a value; [undefined] cannot arise after [split]. *)
Definition pop (segs : list string) : string := List.last segs EmptyString.

(** [url.split('.').pop().toLowerCase()] *)
Definition extension (url : string) : string :=
  toLowerCase (pop (split "."%char url)).

(** The string holds no ['.']. *)
Fixpoint dot_free (s : string) : bool :=
  match s with
  | EmptyString => true
  | String c r => negb (Ascii.eqb c "."%char) && dot_free r
  end.

(** [arr.includes(x)] on an array of strings. *)
Definition includes (arr : list string) (x : string) : bool :=
  existsb (String.eqb x) arr.

End JsString.

(** The values a caller can pass where a URL is expected. *)
Inductive jsval : Type :=
| JSUndefined
| JSNull
| JSBool (b : bool)
| JSNum (z : Z)
| JSStr (s : string)
| JSObj.

(** [!v] is false. *)
Definition truthy (v : jsval) : bool :=
  match v with
  | JSUndefined | JSNull => false
  | JSBool b => b
  | JSNum z => negb (Z.eqb z 0)
  | JSStr s => negb (String.eqb s "")
  | JSObj => true
  end.

(** [typeof v === 'string'] *)
Definition typeof_string (v : jsval) : bool :=
  match v with JSStr _ => true | _ => false end.

(** [x || d] for an optional number: [undefined] and [0] fall back to [d]. *)
Definition num_or (x : option Z) (d : Z) : Z :=
  match x with
  | Some n => if Z.eqb n 0 then d else n
  | None => d
  end.

(** [x || d] for an optional array: every array is truthy. *)
Definition arr_or (x : option (list string)) (d : list string) : list string :=
  match x with Some l => l | None => d end.

(** What the loaders throw.  [AssetLoadError] and [Error] carry a message;
    the constructors keep the message's kind and its interpolated data. *)
Inductive error : Type :=
| InvalidUrl (url : jsval)            (* 'Invalid asset URL' / 'Invalid sprite URL' *)
| UnsupportedFormat (ext : string)    (* 'Unsupported file format: ext' *)
| LoadTimeout (url : option string)   (* 'Asset loading timeout' / 'Sprite loading timeout: url' *)
| LoadFailed (url : string)           (* 'Failed to load sprite' *)
| PreloadFailed (urls : list jsval).  (* 'Failed to preload sprites' *)

(** The specification's [InvalidKey] kind. *)
Definition is_InvalidKey (e : error) : bool :=
  match e with InvalidUrl _ | UnsupportedFormat _ => true | _ => false end.

(** The specification's [LoadTimeout] kind. *)
Definition is_LoadTimeout (e : error) : bool :=
  match e with LoadTimeout _ => true | _ => false end.

(** A settled promise. *)
Inductive settled (H : Type) : Type :=
| Fulfilled (h : H)
| Rejected (e : error).
Arguments Fulfilled {H} h.
Arguments Rejected {H} e.

(* ================================================================== *)
(** ** JavaScript [Map] with string keys *)

Module JsMap.
Section Defs.
Context {V : Type}.

Definition t : Type := list (string * V).

Definition empty : t := [].

Fixpoint get (m : t) (k : string) : option V :=
match m with
| [] => None
| (k', v) :: r => if String.eqb k k' then Some v else get r k
end.

Definition has (m : t) (k : string) : bool :=
match get m k with Some _ => true | None => false end.

(** [m.set(k, v)]: an existing key keeps its position, a new key goes
  last. *)
Fixpoint set (m : t) (k : string) (v : V) : t :=
match m with
| [] => [(k, v)]
| (k', v') :: r =>
    if String.eqb k k' then (k, v) :: r else (k', v') :: set r k v
end.

(** [m.delete(k)]; a [Map] holds a key at most once. *)
Definition delete (m : t) (k : string) : t :=
List.filter (fun e => negb (String.eqb k (fst e))) m.

Definition size (m : t) : nat := length m.

Definition keys (m : t) : list string := List.map fst m.

(** [const [firstKey] = m.keys()]; [undefined] on an empty map. *)
Definition firstKey (m : t) : option string :=
match m with [] => None | (k, _) :: _ => Some k end.

End Defs.
Arguments t V : clear implicits.
End JsMap.

(* ================================================================== *)
(** ** AssetLoader (class [AssetLoader] of the utils/AssetLoader module) *)

Module AssetLoader.

(** An [Image] object is identified by the load attempt that created it. *)
Definition handle : Type := nat.

Module CONFIG.
Definition MAX_CACHE_SIZE : Z := 100.
Definition DEFAULT_TIMEOUT : Z := 30000.
Definition SUPPORTED_FORMATS : list string :=
  ["png"; "jpg"; "jpeg"; "webp"; "svg"].
End CONFIG.

(** [this.options] *)
Record options : Type := {
  maxCacheSize : Z;
  timeout : Z;
  supportedFormats : list string
}.

(** The constructor's argument; [None] is an absent property. *)
Record ctor_options : Type := {
  o_maxCacheSize : option Z;
  o_timeout : option Z;
  o_supportedFormats : option (list string)
}.

Definition mk_options (o : ctor_options) : options :=
  {| maxCacheSize := num_or (o_maxCacheSize o) CONFIG.MAX_CACHE_SIZE;
     timeout := num_or (o_timeout o) CONFIG.DEFAULT_TIMEOUT;
     supportedFormats := arr_or (o_supportedFormats o) CONFIG.SUPPORTED_FORMATS |}.

Definition default_ctor : ctor_options :=
  {| o_maxCacheSize := None; o_timeout := None; o_supportedFormats := None |}.

Inductive img_status : Type := ImgLoading | ImgLoaded | ImgErrored.

(** One execution of the [new Promise(...)] block of [loadSprite]: the
    image it created, and the [Promise.race] of its load promise with its
    timeout promise ([None]: still pending). *)
Record attempt : Type := {
  a_url : string;
  a_img : img_status;
  a_race : option (settled handle)
}.

(** [this.cache], [this.loading] and the attempts made so far.  An entry
    of [loading] is the load promise of the attempt it names. *)
Record state : Type := {
  opts : options;
  cache : JsMap.t handle;
  loading : JsMap.t nat;
  attempts : list attempt
}.

(** [new AssetLoader(o)] *)
Definition new_loader (o : ctor_options) : state :=
  {| opts := mk_options o; cache := JsMap.empty; loading := JsMap.empty;
     attempts := [] |}.

(** The fetch primitive is [img.src = url] on a fresh [Image]; every
    attempt makes exactly one such assignment. *)
Definition fetch_log (s : state) : list string := List.map a_url (attempts s).

Definition fetch_count (s : state) (k : string) : nat :=
  length (List.filter (String.eqb k) (fetch_log s)).

(** [_validateAssetUrl]: the error thrown, or the URL as a string. *)
Definition _validateAssetUrl (fmts : list string) (url : jsval) : error + string :=
  if negb (truthy url) || negb (typeof_string url) then inl (InvalidUrl url)
  else match url with
       | JSStr u =>
           let extension := JsString.extension u in
           if JsString.includes fmts extension then inr u
           else inl (UnsupportedFormat extension)
       | _ => inl (InvalidUrl url)
       end.

(** [_manageCacheSize] *)
Definition _manageCacheSize (o : options) (c : JsMap.t handle) : JsMap.t handle :=
  if (Z.of_nat (JsMap.size c) >? maxCacheSize o)%Z then
    match JsMap.firstKey c with
    | Some firstKey => JsMap.delete c firstKey
    | None => c
    end
  else c.

(** What the promise returned by [loadSprite] is bound to. *)
Inductive future : Type :=
| FRejected (e : error)   (* thrown before the first await *)
| FResolved (h : handle)  (* [return this.cache.get(url)] *)
| FLoad (i : nat)         (* [return this.loading.get(url)] *)
| FRace (i : nat).        (* [return await Promise.race([loadPromise, timeoutPromise])] *)

(** [loadSprite(url)], up to its first suspension.  Whatever is thrown
    inside its [try] is an [AssetLoadError], which the [catch] rethrows as
    it is. *)
Definition loadSprite (s : state) (url : jsval) : state * future :=
  match _validateAssetUrl (supportedFormats (opts s)) url with
  | inl e => (s, FRejected e)
  | inr u =>
      match JsMap.get (cache s) u with
      | Some img => (s, FResolved img)
      | None =>
          match JsMap.get (loading s) u with
          | Some p => (s, FLoad p)
          | None =>
              let i := length (attempts s) in
              ({| opts := opts s;
                  cache := cache s;
                  loading := JsMap.set (loading s) u i;
                  attempts := attempts s ++
                    [{| a_url := u; a_img := ImgLoading; a_race := None |}] |},
               FRace i)
          end
      end
  end.

(** [getSprite(url)]: an async wrapper, so its promise adopts the one
    [loadSprite] returns. *)
Definition getSprite (s : state) (url : jsval) : state * future :=
  let '(s', p) := loadSprite s url in (s', p).

(** First settlement wins a race. *)
Definition settle_race (r : option (settled handle)) (o : settled handle)
  : option (settled handle) :=
  match r with None => Some o | Some _ => r end.

(** [img.onload] of attempt [i]. *)
Definition img_onload (s : state) (i : nat) : state :=
  match attempts s !! i with
  | Some a =>
      match a_img a with
      | ImgLoading =>
          let c := JsMap.set (cache s) (a_url a) i in
          let l := JsMap.delete (loading s) (a_url a) in
          {| opts := opts s;
             cache := _manageCacheSize (opts s) c;
             loading := l;
             attempts := <[i := {| a_url := a_url a; a_img := ImgLoaded;
                                   a_race := settle_race (a_race a) (Fulfilled i) |}]>
                           (attempts s) |}
      | _ => s
      end
  | None => s
  end.

(** [img.onerror] of attempt [i]. *)
Definition img_onerror (s : state) (i : nat) : state :=
  match attempts s !! i with
  | Some a =>
      match a_img a with
      | ImgLoading =>
          {| opts := opts s;
             cache := cache s;
             loading := JsMap.delete (loading s) (a_url a);
             attempts := <[i := {| a_url := a_url a; a_img := ImgErrored;
                                   a_race := settle_race (a_race a)
                                               (Rejected (LoadFailed (a_url a))) |}]>
                           (attempts s) |}
      | _ => s
      end
  | None => s
  end.

(** The [setTimeout] callback of attempt [i]: the timeout promise rejects
    with [AssetLoadError('Asset loading timeout', null)]. *)
Definition timer_fires (s : state) (i : nat) : state :=
  match attempts s !! i with
  | Some a =>
      {| opts := opts s;
         cache := cache s;
         loading := loading s;
         attempts := <[i := {| a_url := a_url a; a_img := a_img a;
                               a_race := settle_race (a_race a)
                                           (Rejected (LoadTimeout None)) |}]>
                       (attempts s) |}
  | None => s
  end.

(** [clearCache()] *)
Definition clearCache (s : state) : state :=
  {| opts := opts s; cache := JsMap.empty; loading := JsMap.empty;
     attempts := attempts s |}.

(** [isCached(url)] *)
Definition isCached (s : state) (url : string) : bool := JsMap.has (cache s) url.

(** [cacheSize] *)
Definition cacheSize (s : state) : nat := JsMap.size (cache s).

(** The load promise of an attempt. *)
Definition load_status (i : nat) (a : attempt) : option (settled handle) :=
  match a_img a with
  | ImgLoading => None
  | ImgLoaded => Some (Fulfilled i)
  | ImgErrored => Some (Rejected (LoadFailed (a_url a)))
  end.

(** The state of a future; [None] is pending. *)
Definition status (s : state) (f : future) : option (settled handle) :=
  match f with
  | FRejected e => Some (Rejected e)
  | FResolved h => Some (Fulfilled h)
  | FLoad i => match attempts s !! i with Some a => load_status i a | None => None end
  | FRace i => match attempts s !! i with Some a => a_race a | None => None end
  end.

(** [urls.map(url => this.loadSprite(url))] *)
Fixpoint map_loadSprite (s : state) (urls : list jsval) : state * list future :=
  match urls with
  | [] => (s, [])
  | u :: r =>
      let '(s1, f) := loadSprite s u in
      let '(s2, fs) := map_loadSprite s1 r in
      (s2, f :: fs)
  end.

(** The promise [preloadSprites] returns: the futures it waits on and the
    argument it was called with. *)
Record preload : Type := { p_urls : list jsval; p_futures : list future }.

Definition preloadSprites (s : state) (urls : list jsval) : state * preload :=
  let '(s', fs) := map_loadSprite s urls in
  (s', {| p_urls := urls; p_futures := fs |}).

Definition is_rejected (o : option (settled handle)) : bool :=
  match o with Some (Rejected _) => true | _ => false end.

(** All values, when every future is fulfilled. *)
Fixpoint all_fulfilled (s : state) (fs : list future) : option (list handle) :=
  match fs with
  | [] => Some []
  | f :: r =>
      match status s f, all_fulfilled s r with
      | Some (Fulfilled h), Some hs => Some (h :: hs)
      | _, _ => None
      end
  end.

(** [await Promise.all(...)] inside [try], and the [catch] that replaces
    any rejection by [AssetLoadError('Failed to preload sprites', urls)]. *)
Definition preload_status (s : state) (p : preload)
  : option (settled (list handle)) :=
  if existsb (fun f => is_rejected (status s f)) (p_futures p)
  then Some (Rejected (PreloadFailed (p_urls p)))
  else match all_fulfilled s (p_futures p) with
       | Some hs => Some (Fulfilled hs)
       | None => None
       end.

(** The tasks that can run on a loader. *)
Inductive event : Type :=
| CallLoadSprite (url : jsval)
| CallGetSprite (url : jsval)
| CallPreloadSprites (urls : list jsval)
| Onload (i : nat)
| Onerror (i : nat)
| TimerFires (i : nat)
| CallClearCache.

Definition step (s : state) (e : event) : state :=
  match e with
  | CallLoadSprite url => fst (loadSprite s url)
  | CallGetSprite url => fst (getSprite s url)
  | CallPreloadSprites urls => fst (preloadSprites s urls)
  | Onload i => img_onload s i
  | Onerror i => img_onerror s i
  | TimerFires i => timer_fires s i
  | CallClearCache => clearCache s
  end.

Definition run (s : state) (tr : list event) : state := fold_left step tr s.

(** States a loader built by the constructor can be in. *)
Definition reachable (s : state) : Prop :=
  exists o tr, s = run (new_loader o) tr.

(** [n] calls [loadSprite(url)] in a row, with the futures they return. *)
Fixpoint calls (s : state) (url : jsval) (n : nat) : state * list future :=
  match n with
  | O => (s, [])
  | S n' =>
      let '(s1, f) := loadSprite s url in
      let '(s2, fs) := calls s1 url n' in
      (s2, f :: fs)
  end.

(** The key passes [_validateAssetUrl] of this loader. *)
Definition valid_key (s : state) (k : string) : Prop :=
  _validateAssetUrl (supportedFormats (opts s)) (JSStr k) = inr k.

(** What holds of the maps in every reachable state. *)
Record inv (s : state) : Prop := {
  inv_attempts_valid :
    forall i a, attempts s !! i = Some a -> valid_key s (a_url a);
  inv_cache_valid :
    forall k h, JsMap.get (cache s) k = Some h -> valid_key s k;
  inv_loading_valid :
    forall k p, JsMap.get (loading s) k = Some p -> valid_key s k;
  inv_loading_attempt :
    forall k p, JsMap.get (loading s) k = Some p ->
      exists a, attempts s !! p = Some a /\ a_url a = k /\ a_img a = ImgLoading;
  inv_disjoint :
    forall k h, JsMap.get (cache s) k = Some h -> JsMap.get (loading s) k = None;
  inv_size :
    (1 <= maxCacheSize (opts s))%Z ->
    (Z.of_nat (JsMap.size (cache s)) <= maxCacheSize (opts s))%Z
}.

End AssetLoader.

(* ================================================================== *)
(** ** SpriteManager (class [SpriteManager] of graphics/SpriteManager) *)

Module SpriteManager.

Module CONFIG.
Definition MAX_CACHE_SIZE : Z := 100.
Definition DEFAULT_TIMEOUT : Z := 5000.
Definition SUPPORTED_FORMATS : list string := ["png"; "jpg"; "jpeg"; "webp"].
End CONFIG.

(** [SpriteOptions]; [None] is an absent property. *)
Record sprite_options : Type := {
  so_timeout : option Z;
  so_cache : option bool
}.

Definition no_options : sprite_options := {| so_timeout := None; so_cache := None |}.

(** [options.cache !== false] *)
Definition cache_enabled (o : sprite_options) : bool :=
  match so_cache o with Some false => false | _ => true end.

(** The promise built by [#loadSpriteInternal].  [Loaded t]: resolved with
    the sprite object [{ image, id: url, lastUsed }], whose mutable
    [lastUsed] field currently holds [t]. *)
Inductive load_status : Type :=
| Pending
| Loaded (lastUsed : Z)
| Failed
| TimedOut.

(** One call of [#loadSpriteInternal(url, options)].  The sprite object it
    resolves with is identified by the attempt's index, so a reference to
    a sprite is a [nat] and the object's field lives here: every holder of
    the reference sees an assignment to [lastUsed]. *)
Record attempt : Type := {
  a_url : string;
  a_cache : bool;        (* [options.cache !== false], closed over by the caller *)
  a_timeout : Z;         (* [options.timeout || CONFIG.DEFAULT_TIMEOUT] *)
  a_status : load_status
}.

Record state : Type := {
  maxCacheSize : Z;
  spriteCache : JsMap.t nat;
  loadingPromises : JsMap.t nat;
  attempts : list attempt;
  console : list error     (* what the default error handler printed *)
}.

(** [new SpriteManager({ maxCacheSize })] *)
Definition new_manager (maxSize : option Z) : state :=
  {| maxCacheSize := num_or maxSize CONFIG.MAX_CACHE_SIZE;
     spriteCache := JsMap.empty;
     loadingPromises := JsMap.empty;
     attempts := [];
     console := [] |}.

Definition fetch_log (s : state) : list string := List.map a_url (attempts s).

Definition fetch_count (s : state) (k : string) : nat :=
  length (List.filter (String.eqb k) (fetch_log s)).

(** [#validateUrl] *)
Definition validateUrl (url : jsval) : error + string :=
  if negb (truthy url) || negb (typeof_string url) then inl (InvalidUrl url)
  else match url with
       | JSStr u =>
           let extension := JsString.extension u in
           if JsString.includes CONFIG.SUPPORTED_FORMATS extension then inr u
           else inl (UnsupportedFormat extension)
       | _ => inl (InvalidUrl url)
       end.

(** [#handleError]: the handler installed by [#setupErrorHandling]. *)
Definition handleError (s : state) (e : error) : state :=
  {| maxCacheSize := maxCacheSize s;
     spriteCache := spriteCache s;
     loadingPromises := loadingPromises s;
     attempts := attempts s;
     console := console s ++ [e] |}.

(** [sprite.lastUsed] through a reference; [None] is [undefined]. *)
Definition lastUsed_of (atts : list attempt) (r : nat) : option Z :=
  match atts !! r with
  | Some a => match a_status a with Loaded t => Some t | _ => None end
  | None => None
  end.

(** [sprite.lastUsed = now] *)
Definition set_lastUsed (atts : list attempt) (r : nat) (now : Z) : list attempt :=
  match atts !! r with
  | Some a =>
      match a_status a with
      | Loaded _ =>
          <[r := {| a_url := a_url a; a_cache := a_cache a;
                    a_timeout := a_timeout a; a_status := Loaded now |}]> atts
      | _ => atts
      end
  | None => atts
  end.

(** [value.lastUsed < oldestTime]; the second [None] is [Infinity]. *)
Definition lt_time (t : option Z) (oldestTime : option Z) : bool :=
  match t, oldestTime with
  | Some x, Some y => (x <? y)%Z
  | Some _, None => true
  | None, _ => false
  end.

(** The [for (const [key, value] of this.#spriteCache)] loop of
    [#addToCache], with its two local variables. *)
Fixpoint scan_oldest (atts : list attempt) (entries : JsMap.t nat)
    (oldestUrl : option string) (oldestTime : option Z) : option string :=
  match entries with
  | [] => oldestUrl
  | (key, value) :: rest =>
      if lt_time (lastUsed_of atts value) oldestTime
      then scan_oldest atts rest (Some key) (lastUsed_of atts value)
      else scan_oldest atts rest oldestUrl oldestTime
  end.

(** [if (oldestUrl)]: [undefined] and [''] are falsy. *)
Definition truthy_key (k : option string) : bool :=
  match k with Some u => negb (String.eqb u "") | None => false end.

(** The eviction half of [#addToCache]. *)
Definition evict (maxSize : Z) (atts : list attempt) (c : JsMap.t nat) : JsMap.t nat :=
  if (Z.of_nat (JsMap.size c) >=? maxSize)%Z then
    let oldestUrl := scan_oldest atts c None None in
    if truthy_key oldestUrl then
      match oldestUrl with Some u => JsMap.delete c u | None => c end
    else c
  else c.

(** [#addToCache(url, sprite)] *)
Definition addToCache (maxSize : Z) (atts : list attempt) (c : JsMap.t nat)
    (url : string) (sprite : nat) : JsMap.t nat :=
  JsMap.set (evict maxSize atts c) url sprite.

(** [#loadSpriteInternal(url, options)]: a pending promise whose executor
    has armed the timer and set [image.src].  Its three callbacks are
    [img_onload], [img_onerror] and [timer_fires] below.  The record also
    keeps [options.cache !== false] for the rest of the starting call. *)
Definition loadSpriteInternal (url : string) (options : sprite_options) : attempt :=
  {| a_url := url;
     a_cache := cache_enabled options;
     a_timeout := num_or (so_timeout options) CONFIG.DEFAULT_TIMEOUT;
     a_status := Pending |}.

Inductive future : Type :=
| FRejected (e : error)   (* thrown before the first await *)
| FResolved (r : nat)     (* [return sprite] on a cache hit *)
| FLoad (i : nat)         (* [return this.#loadingPromises.get(url)] *)
| FAwait (i : nat).       (* [const sprite = await loadPromise; ...; return sprite] *)

(** [loadSprite(url, options)] up to its first suspension; [now] is what
    [Date.now()] returns during the call. *)
Definition loadSprite (s : state) (url : jsval) (options : sprite_options)
    (now : Z) : state * future :=
  match validateUrl url with
  | inl e => (handleError s e, FRejected e)
  | inr u =>
      match (if cache_enabled options then JsMap.get (spriteCache s) u else None) with
      | Some sprite =>
          ({| maxCacheSize := maxCacheSize s;
              spriteCache := spriteCache s;
              loadingPromises := loadingPromises s;
              attempts := set_lastUsed (attempts s) sprite now;
              console := console s |},
           FResolved sprite)
      | None =>
          match JsMap.get (loadingPromises s) u with
          | Some p => (s, FLoad p)
          | None =>
              let i := length (attempts s) in
              ({| maxCacheSize := maxCacheSize s;
                  spriteCache := spriteCache s;
                  loadingPromises := JsMap.set (loadingPromises s) u i;
                  attempts := attempts s ++ [loadSpriteInternal u options];
                  console := console s |},
               FAwait i)
          end
      end
  end.

Definition with_status (a : attempt) (st : load_status) : attempt :=
  {| a_url := a_url a; a_cache := a_cache a; a_timeout := a_timeout a;
     a_status := st |}.

(** [image.onload] of attempt [i], then the rest of the starting call:
    [this.#loadingPromises.delete(url)] and, unless caching is off,
    [this.#addToCache(url, sprite)].  On a promise that is already settled
    [resolve] does nothing and no continuation runs. *)
Definition img_onload (s : state) (i : nat) (now : Z) : state :=
  match attempts s !! i with
  | Some a =>
      match a_status a with
      | Pending =>
          let atts := <[i := with_status a (Loaded now)]> (attempts s) in
          {| maxCacheSize := maxCacheSize s;
             spriteCache :=
               if a_cache a
               then addToCache (maxCacheSize s) atts (spriteCache s) (a_url a) i
               else spriteCache s;
             loadingPromises := JsMap.delete (loadingPromises s) (a_url a);
             attempts := atts;
             console := console s |}
      | _ => s
      end
  | None => s
  end.

(** A rejection of the load promise, then the [catch] of the starting
    call: [this.#handleError(error); throw error]. *)
Definition reject_with (s : state) (i : nat) (a : attempt)
    (st : load_status) (e : error) : state :=
  {| maxCacheSize := maxCacheSize s;
     spriteCache := spriteCache s;
     loadingPromises := loadingPromises s;
     attempts := <[i := with_status a st]> (attempts s);
     console := console s ++ [e] |}.

(** [image.onerror] of attempt [i]. *)
Definition img_onerror (s : state) (i : nat) : state :=
  match attempts s !! i with
  | Some a =>
      match a_status a with
      | Pending => reject_with s i a Failed (LoadFailed (a_url a))
      | _ => s
      end
  | None => s
  end.

(** The [setTimeout] callback of attempt [i]. *)
Definition timer_fires (s : state) (i : nat) : state :=
  match attempts s !! i with
  | Some a =>
      match a_status a with
      | Pending => reject_with s i a TimedOut (LoadTimeout (Some (a_url a)))
      | _ => s
      end
  | None => s
  end.

(** [removeFromCache(url)]; no key of the map is a non-string. *)
Definition removeFromCache (s : state) (url : jsval) : state :=
  match url with
  | JSStr u =>
      {| maxCacheSize := maxCacheSize s;
         spriteCache := JsMap.delete (spriteCache s) u;
         loadingPromises := loadingPromises s;
         attempts := attempts s;
         console := console s |}
  | _ => s
  end.

(** [clearCache()] *)
Definition clearCache (s : state) : state :=
  {| maxCacheSize := maxCacheSize s;
     spriteCache := JsMap.empty;
     loadingPromises := JsMap.empty;
     attempts := attempts s;
     console := console s |}.

(** Membership of the sprite cache, as [getCacheStats().urls] shows it. *)
Definition isCached (s : state) (url : string) : bool := JsMap.has (spriteCache s) url.

Definition status (s : state) (f : future) : option (settled nat) :=
  match f with
  | FRejected e => Some (Rejected e)
  | FResolved r => Some (Fulfilled r)
  | FLoad i | FAwait i =>
      match attempts s !! i with
      | Some a =>
          match a_status a with
          | Pending => None
          | Loaded _ => Some (Fulfilled i)
          | Failed => Some (Rejected (LoadFailed (a_url a)))
          | TimedOut => Some (Rejected (LoadTimeout (Some (a_url a))))
          end
      | None => None
      end
  end.

Inductive event : Type :=
| CallLoadSprite (url : jsval) (options : sprite_options) (now : Z)
| Onload (i : nat) (now : Z)
| Onerror (i : nat)
| TimerFires (i : nat)
| CallRemoveFromCache (url : jsval)
| CallClearCache.

Definition step (s : state) (e : event) : state :=
  match e with
  | CallLoadSprite url options now => fst (loadSprite s url options now)
  | Onload i now => img_onload s i now
  | Onerror i => img_onerror s i
  | TimerFires i => timer_fires s i
  | CallRemoveFromCache url => removeFromCache s url
  | CallClearCache => clearCache s
  end.

Definition run (s : state) (tr : list event) : state := fold_left step tr s.

Definition reachable (s : state) : Prop :=
  exists m tr, s = run (new_manager m) tr.

(** [n] calls [loadSprite(url, options)] in a row at times [now],
    [now + 1], ... *)
Fixpoint calls (s : state) (url : jsval) (options : sprite_options)
    (now : Z) (n : nat) : state * list future :=
  match n with
  | O => (s, [])
  | S n' =>
      let '(s1, f) := loadSprite s url options now in
      let '(s2, fs) := calls s1 url options (now + 1)%Z n' in
      (s2, f :: fs)
  end.

Definition valid_key (k : string) : Prop := validateUrl (JSStr k) = inr k.

(** [oldestTime <= t], with [None] for [Infinity]. *)
Definition le_time (oldestTime : option Z) (t : Z) : Prop :=
  match oldestTime with Some t0 => (t0 <= t)%Z | None => False end.

(** What holds of the maps in every reachable state. *)
Record inv (s : state) : Prop := {
  inv_attempts_valid :
    forall i a, attempts s !! i = Some a -> valid_key (a_url a);
  inv_cache_valid :
    forall k r, In (k, r) (spriteCache s) -> valid_key k;
  inv_loading_valid :
    forall k p, JsMap.get (loadingPromises s) k = Some p -> valid_key k;
  inv_cache_loaded :
    forall k r, In (k, r) (spriteCache s) ->
      exists t, lastUsed_of (attempts s) r = Some t;
  inv_size :
    (1 <= maxCacheSize s)%Z ->
    (Z.of_nat (JsMap.size (spriteCache s)) <= maxCacheSize s)%Z
}.

(** More that holds of the sprite cache in every reachable state: its keys
    are distinct, each entry is the sprite that a caching load of that very
    URL resolved with, and its size is within [max(1, maxCacheSize)]. *)
Record cache_inv (s : state) : Prop := {
  ci_nodup : List.NoDup (JsMap.keys (spriteCache s));
  ci_entry :
    forall k r, In (k, r) (spriteCache s) ->
      exists a t, attempts s !! r = Some a /\ a_url a = k /\
                  a_cache a = true /\ a_status a = Loaded t;
  ci_size :
    (Z.of_nat (JsMap.size (spriteCache s)) <= Z.max 1 (maxCacheSize s))%Z
}.



End SpriteManager.

(** The arguments the loaders must refuse: [null], the empty string, a
    string whose lowercased part after the last dot is not a supported
    format, and a dot-free string that is not itself a supported format. *)
Inductive bad_key (fmts : list string) : jsval -> Prop :=
| bad_null : bad_key fmts JSNull
| bad_empty : bad_key fmts (JSStr "")
| bad_suffix pre suf :
    JsString.dot_free suf = true ->
    ~ In (JsString.toLowerCase suf) fmts ->
    bad_key fmts (JSStr (pre ++ String "."%char suf))
| bad_dot_free key :
    JsString.dot_free key = true ->
    ~ In (JsString.toLowerCase key) fmts ->
    bad_key fmts (JSStr key).

(* ================================================================== *)
(** ** Math utilities (the utils/math module): [clamp] *)

Module JsMath.

(** A JS number.  Every finite double is a rational, and [Math.min] and
    [Math.max] return one of their arguments, so [clamp] rounds nothing;
    [+0] and [-0] are one number here, as they are for [===]. *)
Inductive number : Type :=
| NaN
| PosInfinity
| NegInfinity
| Finite (q : Qc).

(** An argument: a number, or a value of another type. *)
Inductive arg : Type :=
| Num (n : number)
| NotNumber.

(** [Number.isFinite(x)] *)
Definition isFinite (x : arg) : bool :=
  match x with Num (Finite _) => true | _ => false end.

Inductive thrown : Type := TypeError | RangeError.

(** [Math.max(x, y)] and [Math.min(x, y)] on finite numbers. *)
Definition max2 (x y : Qc) : Qc := if Qle_bool x y then y else x.
Definition min2 (x y : Qc) : Qc := if Qle_bool x y then x else y.

(** [clamp(value, min, max)] *)
Definition clamp (value min max : arg) : thrown + number :=
  if negb (isFinite value) || negb (isFinite min) || negb (isFinite max)
  then inl TypeError
  else match value, min, max with
       | Num (Finite v), Num (Finite lo), Num (Finite hi) =>
           inr (Finite (min2 (max2 v lo) hi))
       | _, _, _ => inl TypeError
       end.

End JsMath.

(* ================================================================== *)
(** * Facts about strings and maps *)

Module JsStringFacts.
Import JsString.

Lemma split_nonempty sep s : split sep s <> [].
Proof.
  destruct s as [|c r]; simpl; [discriminate|].
  destruct (Ascii.eqb c sep); [discriminate|].
  destruct (split sep r); discriminate.
Qed.

Lemma split_dot_free s : dot_free s = true -> split "."%char s = [s].
Proof.
  induction s as [|c r IH]; simpl; [reflexivity|].
  intros H. apply andb_prop in H as [Hc Hr].
  apply negb_true_iff in Hc. rewrite Hc, (IH Hr). reflexivity.
Qed.

Lemma extension_dot_free s : dot_free s = true -> extension s = toLowerCase s.
Proof. intros H. unfold extension. rewrite (split_dot_free _ H). reflexivity. Qed.

Lemma split_app sep pre suf :
  split sep (pre ++ String sep suf) = (split sep pre ++ split sep suf)%list.
Proof.
  induction pre as [|c r IH]; simpl.
  - rewrite Ascii.eqb_refl. reflexivity.
  - destruct (Ascii.eqb c sep); rewrite IH; [reflexivity|].
    destruct (split sep r) as [|seg segs] eqn:E; [|reflexivity].
    exfalso. exact (split_nonempty _ _ E).
Qed.

Lemma last_app_nonempty (l1 l2 : list string) d :
  l2 <> [] -> List.last (l1 ++ l2) d = List.last l2 d.
Proof.
  intros H. induction l1 as [|x l IH]; [reflexivity|].
  simpl. rewrite IH. destruct (l ++ l2)%list eqn:E; [|reflexivity].
  apply app_eq_nil in E as [_ E]. congruence.
Qed.

(** The segment after the last dot is what [pop] returns. *)
Lemma pop_split_app pre suf :
  pop (split "."%char (pre ++ String "."%char suf)) = pop (split "."%char suf).
Proof.
  unfold pop. rewrite split_app. apply last_app_nonempty, split_nonempty.
Qed.

Lemma extension_after_last_dot pre suf :
  dot_free suf = true ->
  extension (pre ++ String "."%char suf) = toLowerCase suf.
Proof.
  intros H. unfold extension. rewrite pop_split_app, (split_dot_free _ H).
  reflexivity.
Qed.

Lemma includes_In arr x : includes arr x = true <-> In x arr.
Proof.
  unfold includes. rewrite existsb_exists. split.
  - intros [y [Hy E]]. apply String.eqb_eq in E. subst. exact Hy.
  - intros H. exists x. split; [exact H | apply String.eqb_refl].
Qed.

Lemma includes_not_In arr x : includes arr x = false <-> ~ In x arr.
Proof.
  rewrite <- includes_In. destruct (includes arr x); split; congruence.
Qed.

End JsStringFacts.

Module JsMapFacts.
Section Facts.
Context {V : Type}.
Implicit Types (m : JsMap.t V) (k : string) (v : V).
Import JsMap.

Lemma get_set_eq m k v : get (set m k v) k = Some v.
Proof.
induction m as [|[k' v'] r IH]; simpl.
- rewrite String.eqb_refl. reflexivity.
- destruct (String.eqb k k') eqn:E; simpl.
  + rewrite String.eqb_refl. reflexivity.
  + rewrite E. exact IH.
Qed.

Lemma get_set_ne m k k' v : k <> k' -> get (set m k v) k' = get m k'.
Proof.
intros Hne. induction m as [|[k0 v0] r IH]; simpl.
- destruct (String.eqb k' k) eqn:E; [|reflexivity].
  apply String.eqb_eq in E. congruence.
- destruct (String.eqb k k0) eqn:E; simpl.
  + apply String.eqb_eq in E. subst k0.
    destruct (String.eqb k' k) eqn:E'; [|reflexivity].
    apply String.eqb_eq in E'. congruence.
  + rewrite IH. reflexivity.
Qed.

Lemma get_delete_eq m k : get (delete m k) k = None.
Proof.
unfold delete. induction m as [|[k' v'] r IH]; simpl; [reflexivity|].
destruct (String.eqb k k') eqn:E; simpl; [exact IH|].
rewrite E. exact IH.
Qed.

Lemma get_delete_ne m k k' : k <> k' -> get (delete m k) k' = get m k'.
Proof.
intros Hne. unfold delete. induction m as [|[k0 v0] r IH]; simpl; [reflexivity|].
destruct (String.eqb k k0) eqn:E; simpl.
- apply String.eqb_eq in E. subst k0.
  destruct (String.eqb k' k) eqn:E'; [|exact IH].
  apply String.eqb_eq in E'. congruence.
- rewrite IH. reflexivity.
Qed.

Lemma get_delete_Some m k k' v : get (delete m k) k' = Some v -> get m k' = Some v.
Proof.
destruct (String.eqb k k') eqn:E.
- apply String.eqb_eq in E. subst. rewrite get_delete_eq. discriminate.
- apply String.eqb_neq in E. rewrite get_delete_ne by exact E. trivial.
Qed.

Lemma get_delete_inv m k k' v :
get (delete m k) k' = Some v -> k <> k' /\ get m k' = Some v.
Proof.
intros H. split; [|exact (get_delete_Some _ _ _ _ H)].
intros ->. rewrite get_delete_eq in H. discriminate.
Qed.

Lemma has_get m k : has m k = true <-> exists v, get m k = Some v.
Proof.
unfold has. destruct (get m k); split; eauto; try discriminate.
intros [v H]. discriminate.
Qed.

Lemma has_false_get m k : has m k = false <-> get m k = None.
Proof. unfold has. destruct (get m k); split; congruence. Qed.

Lemma size_set_old m k v : has m k = true -> size (set m k v) = size m.
Proof.
unfold has, size. induction m as [|[k' v'] r IH]; simpl; [discriminate|].
destruct (String.eqb k k') eqn:E; simpl; [reflexivity|].
intros H. rewrite IH by exact H. reflexivity.
Qed.

Lemma size_set_new m k v : get m k = None -> size (set m k v) = S (size m).
Proof.
unfold size. induction m as [|[k' v'] r IH]; simpl; [reflexivity|].
destruct (String.eqb k k') eqn:E; simpl; [discriminate|].
intros H. rewrite IH by exact H. reflexivity.
Qed.

Lemma size_set_le m k v : size (set m k v) <= S (size m).
Proof.
destruct (get m k) eqn:E.
- rewrite size_set_old; [lia|]. apply has_get. eauto.
- rewrite size_set_new by exact E. lia.
Qed.

Lemma size_delete_le m k : size (delete m k) <= size m.
Proof. unfold size, delete. apply List.filter_length_le. Qed.

Lemma size_delete_lt m k : has m k = true -> size (delete m k) < size m.
Proof.
unfold has, size, delete. induction m as [|[k' v'] r IH]; simpl; [discriminate|].
destruct (String.eqb k k') eqn:E; simpl.
- intros _. pose proof (List.filter_length_le (fun e => negb (String.eqb k (fst e))) r).
  lia.
- intros H. specialize (IH H). lia.
Qed.

Lemma get_In m k v : get m k = Some v -> In (k, v) m.
Proof.
induction m as [|[k' v'] r IH]; simpl; [discriminate|].
destruct (String.eqb k k') eqn:E.
- apply String.eqb_eq in E. intros [= ->]. subst. left. reflexivity.
- intros H. right. exact (IH H).
Qed.

Lemma In_has m k v : In (k, v) m -> has m k = true.
Proof.
unfold has. induction m as [|[k' v'] r IH]; simpl; [tauto|].
intros [[= -> ->]|H].
- rewrite String.eqb_refl. reflexivity.
- destruct (String.eqb k k'); [reflexivity | exact (IH H)].
Qed.

Lemma In_set m k v k' v' :
In (k', v') (set m k v) -> (k' = k /\ v' = v) \/ In (k', v') m.
Proof.
induction m as [|[k0 v0] r IH]; simpl.
- intros [[= -> ->]|[]]. auto.
- destruct (String.eqb k k0); simpl.
  + intros [[= -> ->]|H]; auto.
  + intros [H|H]; auto. destruct (IH H); auto.
Qed.

Lemma In_delete m k k' v : In (k', v) (delete m k) -> In (k', v) m /\ k <> k'.
Proof.
unfold delete. rewrite List.filter_In. simpl. intros [H E]. split; [exact H|].
apply negb_true_iff, String.eqb_neq in E. exact E.
Qed.

(** A key that [set] appends is not the first key of a non-empty map. *)
Lemma firstKey_set_new m k v k0 :
get m k = None -> firstKey (set m k v) = Some k0 -> m <> [] -> k0 <> k.
Proof.
destruct m as [|[k' v'] r]; simpl; [congruence|].
destruct (String.eqb k k') eqn:E; [discriminate|]. simpl.
intros _ [= ->] _. apply String.eqb_neq in E. congruence.
Qed.

End Facts.
End JsMapFacts.

(* ================================================================== *)
(** * AssetLoader: handlers and the invariant *)

Module AssetLoaderFacts.
Import AssetLoader.

Lemma al_validate_inr fmts url u :
  _validateAssetUrl fmts url = inr u ->
  url = JSStr u /\ u <> "" /\ In (JsString.extension u) fmts.
Proof.
  unfold _validateAssetUrl.
  destruct url as [| |b|z|k|]; simpl; rewrite ?orb_true_r; try discriminate.
  destruct (String.eqb k "") eqn:E; simpl; [discriminate|].
  destruct (JsString.includes fmts (JsString.extension k)) eqn:Inc; [|discriminate].
  intros [= <-]. apply String.eqb_neq in E.
  apply JsStringFacts.includes_In in Inc. auto.
Qed.

Lemma al_validate_str fmts k :
  k <> "" ->
  _validateAssetUrl fmts (JSStr k) =
    if JsString.includes fmts (JsString.extension k) then inr k
    else inl (UnsupportedFormat (JsString.extension k)).
Proof.
  intros H. unfold _validateAssetUrl. simpl.
  apply String.eqb_neq in H. rewrite H. reflexivity.
Qed.

Lemma al_validate_valid s url u :
  _validateAssetUrl (supportedFormats (opts s)) url = inr u -> valid_key s u.
Proof.
  intros V. pose proof (al_validate_inr _ _ _ V) as (-> & _ & _). exact V.
Qed.

Lemma al_firstKey_has (c : JsMap.t handle) k :
  JsMap.firstKey c = Some k -> JsMap.has c k = true.
Proof.
  destruct c as [|[k' v] r]; simpl; [discriminate|]. intros [= ->].
  unfold JsMap.has. simpl. rewrite String.eqb_refl. reflexivity.
Qed.

Lemma al_get_manage_Some o c k h :
  JsMap.get (_manageCacheSize o c) k = Some h -> JsMap.get c k = Some h.
Proof.
  unfold _manageCacheSize. destruct (_ >? _)%Z; [|trivial].
  destruct (JsMap.firstKey c); [|trivial].
  apply JsMapFacts.get_delete_Some.
Qed.

(** [_manageCacheSize] brings a cache that is one over the bound back
    under it. *)
Lemma al_size_manage o c :
  (Z.of_nat (JsMap.size c) <= maxCacheSize o + 1)%Z ->
  (1 <= maxCacheSize o)%Z ->
  (Z.of_nat (JsMap.size (_manageCacheSize o c)) <= maxCacheSize o)%Z.
Proof.
  intros Hs Hm. unfold _manageCacheSize.
  destruct (Z.gtb_spec (Z.of_nat (JsMap.size c)) (maxCacheSize o)) as [Hgt|Hle];
    [|exact Hle].
  destruct (JsMap.firstKey c) as [k|] eqn:F.
  - pose proof (JsMapFacts.size_delete_lt c k (al_firstKey_has _ _ F)). lia.
  - destruct c; [simpl in *; lia | destruct p; discriminate].
Qed.

Lemma al_loadSprite_opts s url : opts (fst (loadSprite s url)) = opts s.
Proof. unfold loadSprite. repeat case_match; reflexivity. Qed.

Lemma al_inv_new o : inv (new_loader o).
Proof.
  constructor; simpl; try discriminate. lia.
Qed.

Lemma al_inv_loadSprite s url : inv s -> inv (fst (loadSprite s url)).
Proof.
  intros I. unfold loadSprite.
  destruct (_validateAssetUrl _ url) as [e|u] eqn:V; [exact I|].
  destruct (JsMap.get (cache s) u) eqn:C; [exact I|].
  destruct (JsMap.get (loading s) u) eqn:L; [exact I|].
  apply al_validate_valid in V.
  constructor; simpl; unfold valid_key; simpl.
  - intros i a H. apply lookup_snoc_Some in H as [[_ H]|[_ <-]].
    + exact (inv_attempts_valid _ I _ _ H).
    + exact V.
  - exact (inv_cache_valid _ I).
  - intros k p H. destruct (String.eqb u k) eqn:E.
    + apply String.eqb_eq in E. subst k. exact V.
    + apply String.eqb_neq in E. rewrite JsMapFacts.get_set_ne in H by exact E.
      exact (inv_loading_valid _ I _ _ H).
  - intros k p H. destruct (String.eqb u k) eqn:E.
    + apply String.eqb_eq in E. subst k.
      rewrite JsMapFacts.get_set_eq in H. injection H as <-.
      eexists. split; [apply lookup_snoc_Some; right; eauto | auto].
    + apply String.eqb_neq in E. rewrite JsMapFacts.get_set_ne in H by exact E.
      destruct (inv_loading_attempt _ I _ _ H) as (b & Hb & Hu & Hi).
      exists b. split; [apply lookup_app_l_Some, Hb | auto].
  - intros k h H. destruct (String.eqb u k) eqn:E.
    + apply String.eqb_eq in E. subst k. congruence.
    + apply String.eqb_neq in E. rewrite JsMapFacts.get_set_ne by exact E.
      exact (inv_disjoint _ I _ _ H).
  - exact (inv_size _ I).
Qed.

Lemma al_inv_img_onload s i : inv s -> inv (img_onload s i).
Proof.
  intros I. unfold img_onload.
  destruct (attempts s !! i) as [a|] eqn:A; [|exact I].
  destruct (a_img a) eqn:Im; try exact I.
  pose proof (inv_attempts_valid _ I _ _ A) as Va.
  constructor; simpl; unfold valid_key; simpl.
  - intros j b H. apply list_lookup_insert_Some in H as [(-> & <- & _)|[_ H]].
    + exact Va.
    + exact (inv_attempts_valid _ I _ _ H).
  - intros k h H. apply al_get_manage_Some in H.
    destruct (String.eqb (a_url a) k) eqn:E.
    + apply String.eqb_eq in E. subst k. exact Va.
    + apply String.eqb_neq in E. rewrite JsMapFacts.get_set_ne in H by exact E.
      exact (inv_cache_valid _ I _ _ H).
  - intros k p H. apply JsMapFacts.get_delete_Some in H.
    exact (inv_loading_valid _ I _ _ H).
  - intros k p H. apply JsMapFacts.get_delete_inv in H as [Hne H].
    destruct (inv_loading_attempt _ I _ _ H) as (b & Hb & Hu & Hi).
    exists b. split; [|auto].
    rewrite list_lookup_insert_ne; [exact Hb|]. intros ->. congruence.
  - intros k h H. apply al_get_manage_Some in H.
    destruct (String.eqb (a_url a) k) eqn:E.
    + apply String.eqb_eq in E. subst k. apply JsMapFacts.get_delete_eq.
    + apply String.eqb_neq in E. rewrite JsMapFacts.get_set_ne in H by exact E.
      rewrite JsMapFacts.get_delete_ne by exact E.
      exact (inv_disjoint _ I _ _ H).
  - intros Hm. apply al_size_manage; [|exact Hm].
    pose proof (inv_size _ I Hm).
    pose proof (JsMapFacts.size_set_le (cache s) (a_url a) i). lia.
Qed.

Lemma al_inv_img_onerror s i : inv s -> inv (img_onerror s i).
Proof.
  intros I. unfold img_onerror.
  destruct (attempts s !! i) as [a|] eqn:A; [|exact I].
  destruct (a_img a) eqn:Im; try exact I.
  constructor; simpl; unfold valid_key; simpl.
  - intros j b H. apply list_lookup_insert_Some in H as [(-> & <- & _)|[_ H]].
    + exact (inv_attempts_valid _ I _ _ A).
    + exact (inv_attempts_valid _ I _ _ H).
  - exact (inv_cache_valid _ I).
  - intros k p H. apply JsMapFacts.get_delete_Some in H.
    exact (inv_loading_valid _ I _ _ H).
  - intros k p H. apply JsMapFacts.get_delete_inv in H as [Hne H].
    destruct (inv_loading_attempt _ I _ _ H) as (b & Hb & Hu & Hi).
    exists b. split; [|auto].
    rewrite list_lookup_insert_ne; [exact Hb|]. intros ->. congruence.
  - intros k h H. destruct (String.eqb (a_url a) k) eqn:E.
    + apply String.eqb_eq in E. subst k. apply JsMapFacts.get_delete_eq.
    + apply String.eqb_neq in E. rewrite JsMapFacts.get_delete_ne by exact E.
      exact (inv_disjoint _ I _ _ H).
  - exact (inv_size _ I).
Qed.

Lemma al_inv_timer_fires s i : inv s -> inv (timer_fires s i).
Proof.
  intros I. unfold timer_fires.
  destruct (attempts s !! i) as [a|] eqn:A; [|exact I].
  constructor; simpl; unfold valid_key; simpl.
  - intros j b H. apply list_lookup_insert_Some in H as [(-> & <- & _)|[_ H]].
    + exact (inv_attempts_valid _ I _ _ A).
    + exact (inv_attempts_valid _ I _ _ H).
  - exact (inv_cache_valid _ I).
  - exact (inv_loading_valid _ I).
  - intros k p H.
    destruct (inv_loading_attempt _ I _ _ H) as (b & Hb & Hu & Hi).
    destruct (decide (i = p)) as [->|Hne].
    + eexists. split; [apply list_lookup_insert_eq, (lookup_lt_Some _ _ _ Hb)|].
      simpl. split; congruence.
    + exists b. rewrite list_lookup_insert_ne by exact Hne. auto.
  - exact (inv_disjoint _ I).
  - exact (inv_size _ I).
Qed.

Lemma al_inv_clearCache s : inv s -> inv (clearCache s).
Proof.
  intros I. constructor; simpl; try discriminate.
  - exact (inv_attempts_valid _ I).
  - lia.
Qed.

Lemma al_inv_map_loadSprite urls : forall s, inv s -> inv (fst (map_loadSprite s urls)).
Proof.
  induction urls as [|u r IH]; intros s I; simpl; [exact I|].
  pose proof (al_inv_loadSprite s u I) as I1.
  destruct (loadSprite s u) as [s1 f]. simpl in I1.
  specialize (IH s1 I1). destruct (map_loadSprite s1 r) as [s2 fs]. exact IH.
Qed.

Lemma al_inv_step s e : inv s -> inv (step s e).
Proof.
  intros I. destruct e; simpl.
  - apply al_inv_loadSprite, I.
  - unfold getSprite. pose proof (al_inv_loadSprite s url I).
    destruct (loadSprite s url). assumption.
  - unfold preloadSprites. pose proof (al_inv_map_loadSprite urls s I).
    destruct (map_loadSprite s urls). assumption.
  - apply al_inv_img_onload, I.
  - apply al_inv_img_onerror, I.
  - apply al_inv_timer_fires, I.
  - apply al_inv_clearCache, I.
Qed.

Lemma al_inv_run tr : forall s, inv s -> inv (run s tr).
Proof.
  induction tr as [|e tr IH]; intros s I; [exact I|].
  apply IH, al_inv_step, I.
Qed.

Lemma al_reachable_inv s : reachable s -> inv s.
Proof. intros (o & tr & ->). apply al_inv_run, al_inv_new. Qed.

Lemma al_reachable_step s e : reachable s -> reachable (step s e).
Proof.
  intros (o & tr & ->). exists o, (tr ++ [e])%list.
  unfold run. rewrite fold_left_app. reflexivity.
Qed.

Lemma al_reachable_run s tr : reachable s -> reachable (run s tr).
Proof.
  intros (o & tr0 & ->). exists o, (tr0 ++ tr)%list.
  unfold run. rewrite fold_left_app. reflexivity.
Qed.

(** *** Calls only add attempts; a settled race stays settled *)

Lemma al_loadSprite_attempts_ext s url :
  exists l, attempts (fst (loadSprite s url)) = (attempts s ++ l)%list.
Proof.
  unfold loadSprite. repeat case_match; simpl; eauto; exists []; symmetry; apply app_nil_r.
Qed.

Lemma al_map_loadSprite_attempts_ext urls : forall s,
  exists l, attempts (fst (map_loadSprite s urls)) = (attempts s ++ l)%list.
Proof.
  induction urls as [|u r IH]; intros s; simpl.
  - exists []. symmetry. apply app_nil_r.
  - destruct (al_loadSprite_attempts_ext s u) as [l1 H1].
    destruct (loadSprite s u) as [s1 f]. simpl in H1.
    destruct (IH s1) as [l2 H2].
    destruct (map_loadSprite s1 r) as [s2 fs]. simpl in *.
    exists (l1 ++ l2)%list. rewrite H2, H1, app_assoc. reflexivity.
Qed.

Lemma al_step_race_settled s e i a x :
  attempts s !! i = Some a -> a_race a = Some x ->
  exists a', attempts (step s e) !! i = Some a' /\ a_race a' = Some x.
Proof.
  intros A R. destruct e; simpl.
  - destruct (al_loadSprite_attempts_ext s url) as [l ->].
    exists a. split; [apply lookup_app_l_Some, A | exact R].
  - unfold getSprite. destruct (al_loadSprite_attempts_ext s url) as [l H].
    destruct (loadSprite s url) as [s1 f]. simpl in *. rewrite H.
    exists a. split; [apply lookup_app_l_Some, A | exact R].
  - unfold preloadSprites. destruct (al_map_loadSprite_attempts_ext urls s) as [l H].
    destruct (map_loadSprite s urls) as [s1 f]. simpl in *. rewrite H.
    exists a. split; [apply lookup_app_l_Some, A | exact R].
  - unfold img_onload. destruct (attempts s !! i0) as [b|] eqn:B; [|eauto].
    destruct (a_img b); eauto. simpl.
    destruct (decide (i0 = i)) as [->|Hne].
    + rewrite list_lookup_insert_eq by exact (lookup_lt_Some _ _ _ A).
      eexists. split; [reflexivity|]. simpl.
      replace b with a by congruence. rewrite R. reflexivity.
    + rewrite list_lookup_insert_ne by exact Hne. eauto.
  - unfold img_onerror. destruct (attempts s !! i0) as [b|] eqn:B; [|eauto].
    destruct (a_img b); eauto. simpl.
    destruct (decide (i0 = i)) as [->|Hne].
    + rewrite list_lookup_insert_eq by exact (lookup_lt_Some _ _ _ A).
      eexists. split; [reflexivity|]. simpl.
      replace b with a by congruence. rewrite R. reflexivity.
    + rewrite list_lookup_insert_ne by exact Hne. eauto.
  - unfold timer_fires. destruct (attempts s !! i0) as [b|] eqn:B; [|eauto].
    simpl. destruct (decide (i0 = i)) as [->|Hne].
    + rewrite list_lookup_insert_eq by exact (lookup_lt_Some _ _ _ A).
      eexists. split; [reflexivity|]. simpl.
      replace b with a by congruence. rewrite R. reflexivity.
    + rewrite list_lookup_insert_ne by exact Hne. eauto.
  - eauto.
Qed.

(** Once the race of attempt [i] has settled, no later task changes the
    outcome. *)
Lemma al_status_race_stable tr : forall s i x,
  status s (FRace i) = Some x -> status (run s tr) (FRace i) = Some x.
Proof.
  induction tr as [|e tr IH]; intros s i x H; [exact H|].
  simpl. apply IH. simpl in *.
  destruct (attempts s !! i) as [a|] eqn:A; [|discriminate].
  destruct (al_step_race_settled s e i a x A H) as (a' & -> & R). exact R.
Qed.

Lemma al_timer_fires_rejects s i a :
  attempts s !! i = Some a -> a_race a = None ->
  status (timer_fires s i) (FRace i) = Some (Rejected (LoadTimeout None)).
Proof.
  intros A R. unfold timer_fires. rewrite A. simpl.
  rewrite list_lookup_insert_eq by exact (lookup_lt_Some _ _ _ A).
  simpl. rewrite R. reflexivity.
Qed.

(** [img.onload] stores the image and clears the loading entry whether or
    not the race was already lost to the timer. *)
Lemma al_img_onload_populates s i a :
  inv s -> (1 <= maxCacheSize (opts s))%Z ->
  attempts s !! i = Some a -> a_img a = ImgLoading ->
  JsMap.get (cache (img_onload s i)) (a_url a) = Some i /\
  JsMap.get (loading (img_onload s i)) (a_url a) = None.
Proof.
  intros I Hm A Im. unfold img_onload. rewrite A, Im. simpl.
  split; [|apply JsMapFacts.get_delete_eq].
  unfold _manageCacheSize.
  destruct (Z.gtb_spec (Z.of_nat (JsMap.size (JsMap.set (cache s) (a_url a) i)))
              (maxCacheSize (opts s))) as [Hgt|Hle];
    [|apply JsMapFacts.get_set_eq].
  pose proof (inv_size _ I Hm) as Hs.
  destruct (JsMap.get (cache s) (a_url a)) as [h|] eqn:G.
  - rewrite JsMapFacts.size_set_old in Hgt; [lia|].
    apply JsMapFacts.has_get. eauto.
  - destruct (JsMap.firstKey (JsMap.set (cache s) (a_url a) i)) as [k0|] eqn:F;
      [|apply JsMapFacts.get_set_eq].
    rewrite JsMapFacts.size_set_new in Hgt by exact G.
    assert (cache s <> []) as Hne.
    { intros E. rewrite E in Hgt. simpl in Hgt. lia. }
    pose proof (JsMapFacts.firstKey_set_new _ _ _ _ G F Hne) as Hk.
    rewrite JsMapFacts.get_delete_ne by exact Hk.
    apply JsMapFacts.get_set_eq.
Qed.

(** *** Joining and starting a load *)

Lemma al_loadSprite_join s k p :
  valid_key s k ->
  JsMap.get (cache s) k = None ->
  JsMap.get (loading s) k = Some p ->
  loadSprite s (JSStr k) = (s, FLoad p).
Proof. intros V C L. unfold loadSprite. rewrite V, C, L. reflexivity. Qed.

Lemma al_calls_join s k p n :
  valid_key s k ->
  JsMap.get (cache s) k = None ->
  JsMap.get (loading s) k = Some p ->
  calls s (JSStr k) n = (s, repeat (FLoad p) n).
Proof.
  intros V C L. induction n as [|n IH]; simpl; [reflexivity|].
  rewrite (al_loadSprite_join s k p V C L), IH. reflexivity.
Qed.

Lemma al_fetch_count_snoc (l : list string) k :
  length (List.filter (String.eqb k) (l ++ [k])) =
  S (length (List.filter (String.eqb k) l)).
Proof.
  rewrite List.filter_app, List.length_app. simpl.
  rewrite String.eqb_refl. simpl. lia.
Qed.

Lemma al_loadSprite_start s k :
  valid_key s k ->
  JsMap.get (cache s) k = None ->
  JsMap.get (loading s) k = None ->
  let s1 := fst (loadSprite s (JSStr k)) in
  snd (loadSprite s (JSStr k)) = FRace (length (attempts s)) /\
  fetch_log s1 = (fetch_log s ++ [k])%list /\
  valid_key s1 k /\
  JsMap.get (cache s1) k = None /\
  JsMap.get (loading s1) k = Some (length (attempts s)).
Proof.
  intros V C L. unfold loadSprite. rewrite V, C, L. simpl.
  split; [reflexivity|]. split.
  - unfold fetch_log. simpl. rewrite List.map_app. reflexivity.
  - split; [exact V|]. split; [exact C|]. apply JsMapFacts.get_set_eq.
Qed.

End AssetLoaderFacts.

(* ================================================================== *)
(** * SpriteManager: the eviction scan, handlers and the invariant *)

Module SpriteManagerFacts.
Import SpriteManager.

Lemma sm_validate_inr url u :
  validateUrl url = inr u ->
  url = JSStr u /\ u <> "" /\ In (JsString.extension u) CONFIG.SUPPORTED_FORMATS.
Proof.
  unfold validateUrl.
  destruct url as [| |b|z|k|]; cbn -[JsString.includes JsString.extension];
    rewrite ?orb_true_r; try discriminate.
  destruct (String.eqb k "") eqn:E; cbn -[JsString.includes JsString.extension];
    [discriminate|].
  destruct (JsString.includes _ (JsString.extension k)) eqn:Inc; [|discriminate].
  intros [= <-]. apply String.eqb_neq in E.
  apply JsStringFacts.includes_In in Inc. auto.
Qed.

Lemma sm_validate_str k :
  k <> "" ->
  validateUrl (JSStr k) =
    if JsString.includes CONFIG.SUPPORTED_FORMATS (JsString.extension k) then inr k
    else inl (UnsupportedFormat (JsString.extension k)).
Proof.
  intros H. unfold validateUrl. cbn -[JsString.includes JsString.extension].
  apply String.eqb_neq in H. rewrite H. reflexivity.
Qed.

Lemma sm_validate_valid url u : validateUrl url = inr u -> valid_key u.
Proof. intros V. pose proof (sm_validate_inr _ _ V) as (-> & _ & _). exact V. Qed.

Lemma sm_valid_key_nonempty k : valid_key k -> k <> "".
Proof. intros V. apply sm_validate_inr in V. tauto. Qed.

(** *** Reading and writing [lastUsed] through a reference *)

Lemma sm_lastUsed_app atts l r t :
  lastUsed_of atts r = Some t -> lastUsed_of (atts ++ l) r = Some t.
Proof.
  unfold lastUsed_of. destruct (atts !! r) as [a|] eqn:A; [|discriminate].
  rewrite (lookup_app_l_Some _ _ _ _ A). trivial.
Qed.

Lemma sm_lastUsed_set_same atts r now t :
  lastUsed_of atts r = Some t -> lastUsed_of (set_lastUsed atts r now) r = Some now.
Proof.
  unfold lastUsed_of, set_lastUsed.
  destruct (atts !! r) as [a|] eqn:A; [|discriminate].
  destruct (a_status a) eqn:S; try discriminate. intros _.
  rewrite list_lookup_insert_eq by exact (lookup_lt_Some _ _ _ A). reflexivity.
Qed.

Lemma sm_lastUsed_set_other atts r now r' :
  r <> r' -> lastUsed_of (set_lastUsed atts r now) r' = lastUsed_of atts r'.
Proof.
  intros Hne. unfold lastUsed_of, set_lastUsed.
  destruct (atts !! r) as [a|] eqn:A; [|reflexivity].
  destruct (a_status a); try reflexivity.
  rewrite list_lookup_insert_ne by exact Hne. reflexivity.
Qed.

Lemma sm_lastUsed_set_defined atts r now r' t :
  lastUsed_of atts r' = Some t ->
  exists t', lastUsed_of (set_lastUsed atts r now) r' = Some t'.
Proof.
  intros H. destruct (decide (r = r')) as [->|Hne].
  - exists now. exact (sm_lastUsed_set_same _ _ _ _ H).
  - exists t. rewrite sm_lastUsed_set_other by exact Hne. exact H.
Qed.

(** Settling a pending attempt does not touch the sprites that exist. *)
Lemma sm_lastUsed_settle atts i a st r t :
  atts !! i = Some a -> a_status a = Pending ->
  lastUsed_of atts r = Some t ->
  lastUsed_of (<[i := with_status a st]> atts) r = Some t.
Proof.
  intros A P H. unfold lastUsed_of in *.
  destruct (decide (i = r)) as [->|Hne].
  - rewrite A, P in H. discriminate.
  - rewrite list_lookup_insert_ne by exact Hne. exact H.
Qed.

Lemma sm_set_lastUsed_lookup atts r now j b :
  set_lastUsed atts r now !! j = Some b ->
  exists b0, atts !! j = Some b0 /\ a_url b = a_url b0 /\ a_cache b = a_cache b0 /\
             (a_status b0 = Pending -> a_status b = Pending).
Proof.
  unfold set_lastUsed. destruct (atts !! r) as [a|] eqn:A; [|eauto 6].
  destruct (a_status a) eqn:S; eauto 6.
  intros H. apply list_lookup_insert_Some in H as [(-> & <- & _)|[_ H]]; [|eauto 6].
  exists a. simpl. repeat split; auto. congruence.
Qed.

Lemma sm_set_lastUsed_preserves atts r now j b :
  atts !! j = Some b ->
  exists b', set_lastUsed atts r now !! j = Some b' /\
             a_url b' = a_url b /\ a_cache b' = a_cache b /\
             (forall st, (forall t, st <> Loaded t) -> a_status b = st -> b' = b).
Proof.
  intros B. unfold set_lastUsed. destruct (atts !! r) as [a|] eqn:A; [|eauto 6].
  destruct (a_status a) eqn:S; eauto 6.
  destruct (decide (r = j)) as [->|Hne].
  - rewrite list_lookup_insert_eq by exact (lookup_lt_Some _ _ _ A).
    eexists. split; [reflexivity|]. replace b with a by congruence. simpl.
    repeat split; auto. intros st Hst E. exfalso. apply (Hst lastUsed). congruence.
  - rewrite list_lookup_insert_ne by exact Hne. eauto 6.
Qed.

(** *** The scan of [#addToCache] *)

Lemma sm_scan_oldest_spec atts entries : forall oldestUrl oldestTime,
  (scan_oldest atts entries oldestUrl oldestTime = oldestUrl /\
   forall k' r' t', In (k', r') entries -> lastUsed_of atts r' = Some t' ->
                    le_time oldestTime t')
  \/
  (exists k r t,
     scan_oldest atts entries oldestUrl oldestTime = Some k /\
     In (k, r) entries /\ lastUsed_of atts r = Some t /\
     lt_time (Some t) oldestTime = true /\
     forall k' r' t', In (k', r') entries -> lastUsed_of atts r' = Some t' ->
                      (t <= t')%Z).
Proof.
  induction entries as [|[key value] rest IH]; intros ou ot; simpl.
  - left. split; [reflexivity | tauto].
  - destruct (lt_time (lastUsed_of atts value) ot) eqn:L.
    + destruct (lastUsed_of atts value) as [tv|] eqn:Tv; [|discriminate].
      right. destruct (IH (Some key) (Some tv)) as [[E All]|(k & r & t & E & Hin & Ht & Hlt & All)].
      * exists key, value, tv. rewrite E. repeat split; auto.
        intros k' r' t' [[= <- <-]|Hin] Ht'.
        -- rewrite Tv in Ht'. injection Ht' as <-. lia.
        -- apply (All _ _ _ Hin Ht').
      * exists k, r, t. rewrite E. simpl in Hlt. apply Z.ltb_lt in Hlt.
        repeat split; auto.
        -- destruct ot as [t0|]; simpl in *; [|reflexivity].
           apply Z.ltb_lt in L. apply Z.ltb_lt. lia.
        -- intros k' r' t' [[= <- <-]|Hin'] Ht'.
           ++ rewrite Tv in Ht'. injection Ht' as <-. lia.
           ++ apply (All _ _ _ Hin' Ht').
    + assert (forall t', lastUsed_of atts value = Some t' -> le_time ot t') as Hhead.
      { intros t' Ht'. rewrite Ht' in L. destruct ot as [t0|]; simpl in *; [|discriminate].
        apply Z.ltb_ge in L. exact L. }
      destruct (IH ou ot) as [[E All]|(k & r & t & E & Hin & Ht & Hlt & All)].
      * left. split; [exact E|].
        intros k' r' t' [[= <- <-]|Hin] Ht'; [apply Hhead, Ht' | apply (All _ _ _ Hin Ht')].
      * right. exists k, r, t. repeat split; auto.
        intros k' r' t' [[= <- <-]|Hin'] Ht'; [|apply (All _ _ _ Hin' Ht')].
        specialize (Hhead _ Ht'). destruct ot as [t0|]; simpl in *; [|tauto].
        apply Z.ltb_lt in Hlt. lia.
Qed.

(** The scan returns a key whose sprite has the least [lastUsed] of the
    cache. *)
Lemma sm_scan_oldest_least atts c k :
  scan_oldest atts c None None = Some k ->
  exists r t, In (k, r) c /\ lastUsed_of atts r = Some t /\
    forall k' r' t', In (k', r') c -> lastUsed_of atts r' = Some t' -> (t <= t')%Z.
Proof.
  intros H. destruct (sm_scan_oldest_spec atts c None None)
    as [[E _]|(k0 & r & t & E & Hin & Ht & _ & All)].
  - congruence.
  - exists r, t. replace k with k0 by congruence. auto.
Qed.

(** On a non-empty cache of existing sprites the scan finds a key. *)
Lemma sm_scan_oldest_finds atts (c : JsMap.t nat) :
  c <> [] ->
  (forall k r, In (k, r) c -> exists t, lastUsed_of atts r = Some t) ->
  exists k r, scan_oldest atts c None None = Some k /\ In (k, r) c.
Proof.
  intros Hne Hall. destruct (sm_scan_oldest_spec atts c None None)
    as [[_ All]|(k0 & r & t & E & Hin & _)].
  - destruct c as [|[k r] rest]; [congruence|].
    destruct (Hall k r (or_introl eq_refl)) as [t Ht].
    destruct (All k r t (or_introl eq_refl) Ht).
  - eauto.
Qed.

(** *** Eviction *)

Lemma sm_In_evict maxSize atts c k r :
  In (k, r) (evict maxSize atts c) -> In (k, r) c.
Proof.
  unfold evict. destruct (_ >=? _)%Z; [|trivial].
  destruct (truthy_key _); [|trivial].
  destruct (scan_oldest atts c None None); [|trivial].
  intros H. apply JsMapFacts.In_delete in H. tauto.
Qed.

(** With the bound reached, [#addToCache] makes room for the new entry. *)
Lemma sm_size_addToCache maxSize atts (c : JsMap.t nat) url sprite :
  (1 <= maxSize)%Z ->
  (Z.of_nat (JsMap.size c) <= maxSize)%Z ->
  (forall k r, In (k, r) c -> k <> "" /\ exists t, lastUsed_of atts r = Some t) ->
  (Z.of_nat (JsMap.size (addToCache maxSize atts c url sprite)) <= maxSize)%Z.
Proof.
  intros Hm Hs Hall. unfold addToCache, evict.
  destruct (Z.geb_spec (Z.of_nat (JsMap.size c)) maxSize) as [Hge|Hlt].
  - assert (c <> []) as Hne.
    { intros ->. simpl in Hge. lia. }
    destruct (sm_scan_oldest_finds atts c Hne) as (k & r & E & Hin).
    { intros k r H. apply (Hall k r H). }
    rewrite E. simpl.
    destruct (Hall k r Hin) as [Hk _]. apply String.eqb_neq in Hk. rewrite Hk. simpl.
    pose proof (JsMapFacts.size_delete_lt c k (JsMapFacts.In_has _ _ _ Hin)).
    pose proof (JsMapFacts.size_set_le (JsMap.delete c k) url sprite). lia.
  - pose proof (JsMapFacts.size_set_le c url sprite). lia.
Qed.

(** *** The invariant *)

Lemma sm_inv_new m : inv (new_manager m).
Proof. constructor; simpl; try discriminate; try tauto. lia. Qed.

Lemma sm_inv_handleError s e : inv s -> inv (handleError s e).
Proof. intros I. constructor; simpl; apply I. Qed.

Lemma sm_inv_loadSprite s url o now : inv s -> inv (fst (loadSprite s url o now)).
Proof.
  intros I. unfold loadSprite.
  destruct (validateUrl url) as [e|u] eqn:V; [apply sm_inv_handleError, I|].
  apply sm_validate_valid in V.
  destruct (if cache_enabled o then _ else _) as [sprite|] eqn:C.
  - constructor; simpl.
    + intros i a H. apply sm_set_lastUsed_lookup in H as (b0 & H & -> & _).
      exact (inv_attempts_valid _ I _ _ H).
    + exact (inv_cache_valid _ I).
    + exact (inv_loading_valid _ I).
    + intros k r H. destruct (inv_cache_loaded _ I _ _ H) as [t Ht].
      exact (sm_lastUsed_set_defined _ _ _ _ _ Ht).
    + exact (inv_size _ I).
  - destruct (JsMap.get (loadingPromises s) u) eqn:L; [exact I|].
    constructor; simpl.
    + intros i a H. apply lookup_snoc_Some in H as [[_ H]|[_ <-]].
      * exact (inv_attempts_valid _ I _ _ H).
      * exact V.
    + exact (inv_cache_valid _ I).
    + intros k p H. destruct (String.eqb u k) eqn:E.
      * apply String.eqb_eq in E. subst k. exact V.
      * apply String.eqb_neq in E. rewrite JsMapFacts.get_set_ne in H by exact E.
        exact (inv_loading_valid _ I _ _ H).
    + intros k r H. destruct (inv_cache_loaded _ I _ _ H) as [t Ht].
      exists t. apply sm_lastUsed_app, Ht.
    + exact (inv_size _ I).
Qed.

Lemma sm_inv_img_onload s i now : inv s -> inv (img_onload s i now).
Proof.
  intros I. unfold img_onload.
  destruct (attempts s !! i) as [a|] eqn:A; [|exact I].
  destruct (a_status a) eqn:P; try exact I.
  pose proof (inv_attempts_valid _ I _ _ A) as Va.
  assert (forall k r, In (k, r) (spriteCache s) ->
            exists t, lastUsed_of (<[i := with_status a (Loaded now)]> (attempts s)) r
                      = Some t) as Hold.
  { intros k r H. destruct (inv_cache_loaded _ I _ _ H) as [t Ht].
    exists t. exact (sm_lastUsed_settle _ _ _ _ _ _ A P Ht). }
  constructor; simpl.
  - intros j b H. apply list_lookup_insert_Some in H as [(-> & <- & _)|[_ H]].
    + exact Va.
    + exact (inv_attempts_valid _ I _ _ H).
  - destruct (a_cache a); [|exact (inv_cache_valid _ I)].
    intros k r H. apply JsMapFacts.In_set in H as [[-> ->]|H]; [exact Va|].
    apply sm_In_evict in H. exact (inv_cache_valid _ I _ _ H).
  - intros k p H. apply JsMapFacts.get_delete_Some in H.
    exact (inv_loading_valid _ I _ _ H).
  - destruct (a_cache a); [|exact Hold].
    intros k r H. apply JsMapFacts.In_set in H as [[-> ->]|H].
    + exists now. unfold lastUsed_of.
      rewrite list_lookup_insert_eq by exact (lookup_lt_Some _ _ _ A). reflexivity.
    + apply sm_In_evict in H. exact (Hold _ _ H).
  - intros Hm. destruct (a_cache a); [|exact (inv_size _ I Hm)].
    apply sm_size_addToCache; [exact Hm | exact (inv_size _ I Hm) |].
    intros k r Hin. split.
    + exact (sm_valid_key_nonempty _ (inv_cache_valid _ I _ _ Hin)).
    + exact (Hold _ _ Hin).
Qed.

Lemma sm_inv_reject_with s i a st e :
  inv s -> attempts s !! i = Some a -> a_status a = Pending ->
  inv (reject_with s i a st e).
Proof.
  intros I A P. constructor; simpl.
  - intros j b H. apply list_lookup_insert_Some in H as [(-> & <- & _)|[_ H]].
    + exact (inv_attempts_valid _ I _ _ A).
    + exact (inv_attempts_valid _ I _ _ H).
  - exact (inv_cache_valid _ I).
  - exact (inv_loading_valid _ I).
  - intros k r H. destruct (inv_cache_loaded _ I _ _ H) as [t Ht].
    exists t. exact (sm_lastUsed_settle _ _ _ _ _ _ A P Ht).
  - exact (inv_size _ I).
Qed.

Lemma sm_inv_img_onerror s i : inv s -> inv (img_onerror s i).
Proof.
  intros I. unfold img_onerror.
  destruct (attempts s !! i) as [a|] eqn:A; [|exact I].
  destruct (a_status a) eqn:P; try exact I.
  apply sm_inv_reject_with; assumption.
Qed.

Lemma sm_inv_timer_fires s i : inv s -> inv (timer_fires s i).
Proof.
  intros I. unfold timer_fires.
  destruct (attempts s !! i) as [a|] eqn:A; [|exact I].
  destruct (a_status a) eqn:P; try exact I.
  apply sm_inv_reject_with; assumption.
Qed.

Lemma sm_inv_removeFromCache s url : inv s -> inv (removeFromCache s url).
Proof.
  intros I. destruct url as [| | | |u|]; try exact I.
  constructor; simpl.
  - exact (inv_attempts_valid _ I).
  - intros k r H. apply JsMapFacts.In_delete in H as [H _].
    exact (inv_cache_valid _ I _ _ H).
  - exact (inv_loading_valid _ I).
  - intros k r H. apply JsMapFacts.In_delete in H as [H _].
    exact (inv_cache_loaded _ I _ _ H).
  - intros Hm. pose proof (inv_size _ I Hm).
    pose proof (JsMapFacts.size_delete_le (spriteCache s) u). lia.
Qed.

Lemma sm_inv_clearCache s : inv s -> inv (clearCache s).
Proof.
  intros I. constructor; simpl; try discriminate; try tauto.
  - exact (inv_attempts_valid _ I).
  - lia.
Qed.

Lemma sm_inv_step s e : inv s -> inv (step s e).
Proof.
  intros I. destruct e; simpl.
  - apply sm_inv_loadSprite, I.
  - apply sm_inv_img_onload, I.
  - apply sm_inv_img_onerror, I.
  - apply sm_inv_timer_fires, I.
  - apply sm_inv_removeFromCache, I.
  - apply sm_inv_clearCache, I.
Qed.

Lemma sm_inv_run tr : forall s, inv s -> inv (run s tr).
Proof.
  induction tr as [|e tr IH]; intros s I; [exact I|].
  apply IH, sm_inv_step, I.
Qed.

Lemma sm_reachable_inv s : reachable s -> inv s.
Proof. intros (m & tr & ->). apply sm_inv_run, sm_inv_new. Qed.

Lemma sm_reachable_run s tr : reachable s -> reachable (run s tr).
Proof.
  intros (m & tr0 & ->). exists m, (tr0 ++ tr)%list.
  unfold run. rewrite fold_left_app. reflexivity.
Qed.

(** *** What later tasks leave alone *)

(** An attempt keeps its URL and its caching flag, and an attempt that is
    not a live sprite ([Pending], [Failed], [TimedOut]) is not touched by a
    call. *)
Lemma sm_loadSprite_lookup s url o now i a :
  attempts s !! i = Some a ->
  exists a', attempts (fst (loadSprite s url o now)) !! i = Some a' /\
             a_url a' = a_url a /\ a_cache a' = a_cache a /\
             (forall st, (forall t, st <> Loaded t) -> a_status a = st -> a' = a).
Proof.
  intros A. unfold loadSprite.
  destruct (validateUrl url) as [e|u]; simpl; [eauto 6|].
  destruct (if cache_enabled o then _ else _) as [sprite|]; simpl.
  - exact (sm_set_lastUsed_preserves _ _ _ _ _ A).
  - destruct (JsMap.get (loadingPromises s) u); simpl; [eauto 6|].
    exists a. split; [apply lookup_app_l_Some, A | auto].
Qed.

Lemma sm_step_lookup s e i a :
  attempts s !! i = Some a ->
  exists a', attempts (step s e) !! i = Some a' /\
             a_url a' = a_url a /\ a_cache a' = a_cache a /\
             (a_status a = Failed \/ a_status a = TimedOut -> a' = a).
Proof.
  intros A. destruct e; simpl.
  - destruct (sm_loadSprite_lookup s url options now i a A) as (a' & H & Hu & Hc & Hs).
    exists a'. repeat split; auto.
    intros [F|T]; [apply (Hs Failed) | apply (Hs TimedOut)]; auto; discriminate.
  - unfold img_onload. destruct (attempts s !! i0) as [b|] eqn:B; [|eauto 6].
    destruct (a_status b) eqn:P; eauto 6. simpl.
    destruct (decide (i0 = i)) as [->|Hne].
    + rewrite list_lookup_insert_eq by exact (lookup_lt_Some _ _ _ A).
      replace b with a in * by congruence.
      eexists. split; [reflexivity|]. simpl. repeat split; auto.
      intros [F|T]; congruence.
    + rewrite list_lookup_insert_ne by exact Hne. eauto 6.
  - unfold img_onerror. destruct (attempts s !! i0) as [b|] eqn:B; [|eauto 6].
    destruct (a_status b) eqn:P; eauto 6. simpl.
    destruct (decide (i0 = i)) as [->|Hne].
    + rewrite list_lookup_insert_eq by exact (lookup_lt_Some _ _ _ A).
      replace b with a in * by congruence.
      eexists. split; [reflexivity|]. simpl. repeat split; auto.
      intros [F|T]; congruence.
    + rewrite list_lookup_insert_ne by exact Hne. eauto 6.
  - unfold timer_fires. destruct (attempts s !! i0) as [b|] eqn:B; [|eauto 6].
    destruct (a_status b) eqn:P; eauto 6. simpl.
    destruct (decide (i0 = i)) as [->|Hne].
    + rewrite list_lookup_insert_eq by exact (lookup_lt_Some _ _ _ A).
      replace b with a in * by congruence.
      eexists. split; [reflexivity|]. simpl. repeat split; auto.
      intros [F|T]; congruence.
    + rewrite list_lookup_insert_ne by exact Hne. eauto 6.
  - destruct url; simpl; eauto 6.
  - eauto 6.
Qed.

Lemma sm_run_lookup tr : forall s i a,
  attempts s !! i = Some a ->
  exists a', attempts (run s tr) !! i = Some a' /\
             a_url a' = a_url a /\ a_cache a' = a_cache a /\
             (a_status a = Failed \/ a_status a = TimedOut -> a' = a).
Proof.
  induction tr as [|e tr IH]; intros s i a A; [eauto 6|].
  destruct (sm_step_lookup s e i a A) as (a1 & A1 & Hu1 & Hc1 & Hs1).
  destruct (IH (step s e) i a1 A1) as (a2 & A2 & Hu2 & Hc2 & Hs2).
  exists a2. simpl. repeat split; try congruence.
  intros H. specialize (Hs1 H). subst a1. auto.
Qed.

(** A load that was started without caching never changes the cache when
    its image arrives. *)
Lemma sm_img_onload_uncached s i a now :
  attempts s !! i = Some a -> a_cache a = false ->
  spriteCache (img_onload s i now) = spriteCache s.
Proof.
  intros A C. unfold img_onload. rewrite A.
  destruct (a_status a); simpl; [rewrite C|..]; reflexivity.
Qed.

(** [image.onload] on a promise that the timer or [onerror] has already
    rejected changes nothing. *)
Lemma sm_img_onload_settled s i a now :
  attempts s !! i = Some a -> a_status a <> Pending -> img_onload s i now = s.
Proof.
  intros A P. unfold img_onload. rewrite A.
  destruct (a_status a); congruence.
Qed.

Lemma sm_img_onload_deletes s i a now :
  attempts s !! i = Some a -> a_status a = Pending ->
  JsMap.get (loadingPromises (img_onload s i now)) (a_url a) = None /\
  status (img_onload s i now) (FAwait i) = Some (Fulfilled i).
Proof.
  intros A P. unfold img_onload. rewrite A, P. simpl.
  split; [apply JsMapFacts.get_delete_eq|].
  rewrite list_lookup_insert_eq by exact (lookup_lt_Some _ _ _ A). reflexivity.
Qed.

Lemma sm_map_insert_same {A B : Type} (f : A -> B) (l : list A) i x a :
  l !! i = Some a -> f x = f a -> List.map f (<[i := x]> l) = List.map f l.
Proof.
  revert i. induction l as [|y l IH]; intros [|i] H E; simpl in *; try discriminate.
  - injection H as ->. rewrite E. reflexivity.
  - rewrite (IH i H E). reflexivity.
Qed.

Lemma sm_fetch_log_set_lastUsed atts r now :
  List.map a_url (set_lastUsed atts r now) = List.map a_url atts.
Proof.
  unfold set_lastUsed. destruct (atts !! r) as [a|] eqn:A; [|reflexivity].
  destruct (a_status a); try reflexivity.
  apply (sm_map_insert_same _ _ _ _ a A). reflexivity.
Qed.

(** *** Joining and starting a load *)

Lemma sm_loadSprite_join s k p o now :
  valid_key k ->
  cache_enabled o = false \/ JsMap.get (spriteCache s) k = None ->
  JsMap.get (loadingPromises s) k = Some p ->
  loadSprite s (JSStr k) o now = (s, FLoad p).
Proof.
  intros V C L. unfold loadSprite. rewrite V.
  destruct C as [C|C]; rewrite C, L; [reflexivity|].
  destruct (cache_enabled o); reflexivity.
Qed.

Lemma sm_calls_join s k p o n : forall now,
  valid_key k ->
  cache_enabled o = false \/ JsMap.get (spriteCache s) k = None ->
  JsMap.get (loadingPromises s) k = Some p ->
  calls s (JSStr k) o now n = (s, repeat (FLoad p) n).
Proof.
  induction n as [|n IH]; intros now V C L; simpl; [reflexivity|].
  rewrite (sm_loadSprite_join s k p o now V C L), (IH _ V C L). reflexivity.
Qed.

Lemma sm_loadSprite_start s k o now :
  valid_key k ->
  cache_enabled o = false \/ JsMap.get (spriteCache s) k = None ->
  JsMap.get (loadingPromises s) k = None ->
  let s1 := fst (loadSprite s (JSStr k) o now) in
  snd (loadSprite s (JSStr k) o now) = FAwait (length (attempts s)) /\
  fetch_log s1 = (fetch_log s ++ [k])%list /\
  spriteCache s1 = spriteCache s /\
  JsMap.get (loadingPromises s1) k = Some (length (attempts s)).
Proof.
  intros V C L. unfold loadSprite. rewrite V.
  assert ((if cache_enabled o then JsMap.get (spriteCache s) k else None) = None) as ->.
  { destruct C as [C|C]; rewrite C; [reflexivity|]. destruct (cache_enabled o); reflexivity. }
  rewrite L. simpl. split; [reflexivity|]. split.
  - unfold fetch_log. simpl. rewrite List.map_app. reflexivity.
  - split; [reflexivity|]. apply JsMapFacts.get_set_eq.
Qed.

(** While a key is in the loading map no call for it starts a fetch,
    whichever path the call takes. *)
Lemma sm_loadSprite_pending_no_fetch s k p o now :
  valid_key k ->
  JsMap.get (loadingPromises s) k = Some p ->
  let s1 := fst (loadSprite s (JSStr k) o now) in
  fetch_log s1 = fetch_log s /\ loadingPromises s1 = loadingPromises s.
Proof.
  intros V L. unfold loadSprite. rewrite V.
  destruct (if cache_enabled o then _ else _) as [sprite|]; simpl.
  - split; [|reflexivity]. unfold fetch_log. simpl. apply sm_fetch_log_set_lastUsed.
  - rewrite L. simpl. auto.
Qed.

Lemma sm_calls_pending_no_fetch k p o n : forall s now,
  valid_key k ->
  JsMap.get (loadingPromises s) k = Some p ->
  fetch_log (fst (calls s (JSStr k) o now n)) = fetch_log s.
Proof.
  induction n as [|n IH]; intros s now V L; simpl; [reflexivity|].
  destruct (sm_loadSprite_pending_no_fetch s k p o now V L) as [Hf Hl].
  destruct (loadSprite s (JSStr k) o now) as [s1 f]. simpl in *.
  rewrite <- Hl in L. specialize (IH s1 (now + 1)%Z V L).
  destruct (calls s1 (JSStr k) o (now + 1)%Z n) as [s2 fs]. simpl in *.
  congruence.
Qed.

End SpriteManagerFacts.

(* ================================================================== *)
(** * The claims *)

(** ** Validation *)

(** C7. Invalid-key rejection: for [null], the empty string, and every
    string whose lowercased part after the last ['.'] is not a supported
    format, [loadSprite] of either loader returns a promise that is already
    rejected with an invalid-key error; no fetch is started and neither the
    cache nor the loading map changes. *)
Theorem C7_invalid_key_rejected :
  (forall (s : AssetLoader.state) (url : jsval),
     bad_key (AssetLoader.supportedFormats (AssetLoader.opts s)) url ->
     exists e s',
       AssetLoader.loadSprite s url = (s', AssetLoader.FRejected e) /\
       is_InvalidKey e = true /\
       AssetLoader.fetch_log s' = AssetLoader.fetch_log s /\
       AssetLoader.cache s' = AssetLoader.cache s /\
       AssetLoader.loading s' = AssetLoader.loading s)
  /\
  (forall (s : SpriteManager.state) (url : jsval)
          (o : SpriteManager.sprite_options) (now : Z),
     bad_key SpriteManager.CONFIG.SUPPORTED_FORMATS url ->
     exists e s',
       SpriteManager.loadSprite s url o now = (s', SpriteManager.FRejected e) /\
       is_InvalidKey e = true /\
       SpriteManager.fetch_log s' = SpriteManager.fetch_log s /\
       SpriteManager.spriteCache s' = SpriteManager.spriteCache s /\
       SpriteManager.loadingPromises s' = SpriteManager.loadingPromises s).
Proof.
  split.
  - intros s url B. unfold AssetLoader.loadSprite.
    assert (exists e, AssetLoader._validateAssetUrl
                        (AssetLoader.supportedFormats (AssetLoader.opts s)) url = inl e
                      /\ is_InvalidKey e = true) as (e & -> & He).
    { destruct B as [| |pre suf D N|key D N].
      - eexists. split; reflexivity.
      - eexists. split; reflexivity.
      - destruct (String.eqb (pre ++ String "."%char suf) "") eqn:E.
        + unfold AssetLoader._validateAssetUrl. simpl. rewrite E. simpl.
          eexists. split; reflexivity.
        + apply String.eqb_neq in E. rewrite AssetLoaderFacts.al_validate_str by exact E.
          rewrite JsStringFacts.extension_after_last_dot by exact D.
          apply JsStringFacts.includes_not_In in N. rewrite N.
          eexists. split; reflexivity.
      - destruct (String.eqb key "") eqn:E.
        + unfold AssetLoader._validateAssetUrl. simpl. rewrite E. simpl.
          eexists. split; reflexivity.
        + apply String.eqb_neq in E. rewrite AssetLoaderFacts.al_validate_str by exact E.
          rewrite JsStringFacts.extension_dot_free by exact D.
          apply JsStringFacts.includes_not_In in N. rewrite N.
          eexists. split; reflexivity. }
    exists e, s. auto.
  - intros s url o now B. unfold SpriteManager.loadSprite.
    assert (exists e, SpriteManager.validateUrl url = inl e
                      /\ is_InvalidKey e = true) as (e & -> & He).
    { destruct B as [| |pre suf D N|key D N].
      - eexists. split; reflexivity.
      - eexists. split; reflexivity.
      - destruct (String.eqb (pre ++ String "."%char suf) "") eqn:E.
        + unfold SpriteManager.validateUrl, truthy. rewrite E. simpl.
          eexists. split; reflexivity.
        + apply String.eqb_neq in E. rewrite SpriteManagerFacts.sm_validate_str by exact E.
          rewrite JsStringFacts.extension_after_last_dot by exact D.
          apply JsStringFacts.includes_not_In in N. rewrite N.
          eexists. split; reflexivity.
      - destruct (String.eqb key "") eqn:E.
        + unfold SpriteManager.validateUrl, truthy. rewrite E. simpl.
          eexists. split; reflexivity.
        + apply String.eqb_neq in E. rewrite SpriteManagerFacts.sm_validate_str by exact E.
          rewrite JsStringFacts.extension_dot_free by exact D.
          apply JsStringFacts.includes_not_In in N. rewrite N.
          eexists. split; reflexivity. }
    exists e, (SpriteManager.handleError s e). auto.
Qed.

Lemma not_In_formats (x : string) (fmts : list string) :
  JsString.includes fmts x = false -> ~ In x fmts.
Proof. apply JsStringFacts.includes_not_In. Qed.

(** [loadSprite('x.unsupportedext')] on a default [AssetLoader] and
    [loadSprite(null)] on a default [SpriteManager]. *)
Lemma C7_invalid_key_rejected_witness :
  (exists e s',
     AssetLoader.loadSprite (AssetLoader.new_loader AssetLoader.default_ctor)
       (JSStr "x.unsupportedext") = (s', AssetLoader.FRejected e) /\
     is_InvalidKey e = true /\
     AssetLoader.fetch_log s' = [] /\
     AssetLoader.cache s' = [] /\
     AssetLoader.loading s' = [])
  /\
  (exists e s',
     SpriteManager.loadSprite (SpriteManager.new_manager None) JSNull
       SpriteManager.no_options 0%Z = (s', SpriteManager.FRejected e) /\
     is_InvalidKey e = true /\
     SpriteManager.fetch_log s' = [] /\
     SpriteManager.spriteCache s' = [] /\
     SpriteManager.loadingPromises s' = []).
Proof.
  split.
  - apply (proj1 C7_invalid_key_rejected
             (AssetLoader.new_loader AssetLoader.default_ctor)
             (JSStr "x.unsupportedext")).
    apply (bad_suffix _ "x" "unsupportedext"); [reflexivity|].
    apply not_In_formats. reflexivity.
  - apply (proj2 C7_invalid_key_rejected
             (SpriteManager.new_manager None) JSNull SpriteManager.no_options 0%Z).
    apply bad_null.
Defined.

(** C10. Extension parsing of dot-free keys: on a non-empty key without
    ['.'] the validators take the whole lowercased key as the extension, so
    the key is accepted exactly when it is, lowercased, a supported format
    name; an accepted key that is neither cached nor loading starts a fetch
    of that key. *)
Theorem C10_dot_free_key_is_its_extension (key : string) :
  key <> "" ->
  JsString.dot_free key = true ->
  JsString.extension key = JsString.toLowerCase key /\
  (forall fmts,
     (AssetLoader._validateAssetUrl fmts (JSStr key) = inr key <->
      In (JsString.toLowerCase key) fmts) /\
     (~ In (JsString.toLowerCase key) fmts ->
      AssetLoader._validateAssetUrl fmts (JSStr key) =
        inl (UnsupportedFormat (JsString.toLowerCase key)))) /\
  (SpriteManager.validateUrl (JSStr key) = inr key <->
   In (JsString.toLowerCase key) SpriteManager.CONFIG.SUPPORTED_FORMATS) /\
  (~ In (JsString.toLowerCase key) SpriteManager.CONFIG.SUPPORTED_FORMATS ->
   SpriteManager.validateUrl (JSStr key) =
     inl (UnsupportedFormat (JsString.toLowerCase key))) /\
  (forall s : AssetLoader.state,
     In (JsString.toLowerCase key) (AssetLoader.supportedFormats (AssetLoader.opts s)) ->
     JsMap.get (AssetLoader.cache s) key = None ->
     JsMap.get (AssetLoader.loading s) key = None ->
     AssetLoader.fetch_log (fst (AssetLoader.loadSprite s (JSStr key))) =
       (AssetLoader.fetch_log s ++ [key])%list) /\
  (forall (s : SpriteManager.state) o now,
     In (JsString.toLowerCase key) SpriteManager.CONFIG.SUPPORTED_FORMATS ->
     JsMap.get (SpriteManager.spriteCache s) key = None ->
     JsMap.get (SpriteManager.loadingPromises s) key = None ->
     SpriteManager.fetch_log (fst (SpriteManager.loadSprite s (JSStr key) o now)) =
       (SpriteManager.fetch_log s ++ [key])%list).
Proof.
  intros Hne D.
  pose proof (JsStringFacts.extension_dot_free key D) as Ext.
  assert (forall fmts,
    (AssetLoader._validateAssetUrl fmts (JSStr key) = inr key <->
      In (JsString.toLowerCase key) fmts) /\
     (~ In (JsString.toLowerCase key) fmts ->
      AssetLoader._validateAssetUrl fmts (JSStr key) =
        inl (UnsupportedFormat (JsString.toLowerCase key)))) as HA.
  { intros fmts. rewrite AssetLoaderFacts.al_validate_str by exact Hne. rewrite Ext.
    destruct (JsString.includes fmts (JsString.toLowerCase key)) eqn:Inc.
    - apply JsStringFacts.includes_In in Inc. split; [tauto|]. intros N. tauto.
    - apply JsStringFacts.includes_not_In in Inc. split; [|reflexivity].
      split; [discriminate | tauto]. }
  assert ((SpriteManager.validateUrl (JSStr key) = inr key <->
   In (JsString.toLowerCase key) SpriteManager.CONFIG.SUPPORTED_FORMATS) /\
  (~ In (JsString.toLowerCase key) SpriteManager.CONFIG.SUPPORTED_FORMATS ->
   SpriteManager.validateUrl (JSStr key) =
     inl (UnsupportedFormat (JsString.toLowerCase key)))) as HS.
  { rewrite SpriteManagerFacts.sm_validate_str by exact Hne. rewrite Ext.
    destruct (JsString.includes _ (JsString.toLowerCase key)) eqn:Inc.
    - apply JsStringFacts.includes_In in Inc. split; [tauto|]. intros N. tauto.
    - apply JsStringFacts.includes_not_In in Inc. split; [|reflexivity].
      split; [discriminate | tauto]. }
  split; [exact Ext|]. split; [exact HA|].
  split; [exact (proj1 HS)|]. split; [exact (proj2 HS)|]. split.
  - intros s Hin C L. unfold AssetLoader.loadSprite.
    rewrite (proj2 (proj1 (HA _)) Hin), C, L. simpl.
    unfold AssetLoader.fetch_log. simpl. rewrite List.map_app. reflexivity.
  - intros s o now Hin C L. unfold SpriteManager.loadSprite.
    rewrite (proj2 (proj1 HS) Hin), C, L.
    destruct (SpriteManager.cache_enabled o); simpl;
      unfold SpriteManager.fetch_log; simpl; rewrite List.map_app; reflexivity.
Qed.

(** The bare key ['png'] passes both validators and, on fresh loaders,
    starts a fetch. *)
Lemma C10_dot_free_key_is_its_extension_witness :
  AssetLoader._validateAssetUrl AssetLoader.CONFIG.SUPPORTED_FORMATS (JSStr "png")
    = inr "png" /\
  SpriteManager.validateUrl (JSStr "png") = inr "png" /\
  AssetLoader.fetch_log
    (fst (AssetLoader.loadSprite (AssetLoader.new_loader AssetLoader.default_ctor)
            (JSStr "png"))) = ["png"] /\
  SpriteManager.fetch_log
    (fst (SpriteManager.loadSprite (SpriteManager.new_manager None) (JSStr "png")
            SpriteManager.no_options 0%Z)) = ["png"].
Proof.
  assert ("png" <> "") as Hne by discriminate.
  assert (JsString.dot_free "png" = true) as D by reflexivity.
  destruct (C10_dot_free_key_is_its_extension "png" Hne D)
    as (_ & HA & HS & _ & FA & FS).
  split; [|split; [|split]].
  - apply (proj1 (HA _)). simpl. tauto.
  - apply HS. simpl. tauto.
  - apply (FA (AssetLoader.new_loader AssetLoader.default_ctor));
      [simpl; tauto | reflexivity | reflexivity].
  - apply (FS (SpriteManager.new_manager None)); [simpl; tauto | reflexivity | reflexivity].
Defined.

(** ** Delegation and the cache option *)

(** C9. Accessor equivalence: [AssetLoader.getSprite(url)] leaves the loader
    in the same state as [AssetLoader.loadSprite(url)] and returns a promise
    bound to the same future, so in every later state the two have the same
    outcome (the same image, the same rejection, or both still pending). *)
Theorem C9_getSprite_same_as_loadSprite (s : AssetLoader.state) (url : jsval) :
  AssetLoader.getSprite s url = AssetLoader.loadSprite s url /\
  forall tr : list AssetLoader.event,
    AssetLoader.status
      (AssetLoader.run (fst (AssetLoader.getSprite s url)) tr)
      (snd (AssetLoader.getSprite s url)) =
    AssetLoader.status
      (AssetLoader.run (fst (AssetLoader.loadSprite s url)) tr)
      (snd (AssetLoader.loadSprite s url)).
Proof.
  assert (AssetLoader.getSprite s url = AssetLoader.loadSprite s url) as E.
  { unfold AssetLoader.getSprite. destruct (AssetLoader.loadSprite s url). reflexivity. }
  split; [exact E|]. intros tr. rewrite E. reflexivity.
Qed.

(** C8. Cache-bypass option: for every URL that passes validation, a
    [SpriteManager.loadSprite] call with [options.cache === false] does not
    read the sprite cache: it joins the load registered for the URL if there
    is one and otherwise starts a fetch, also when the URL is cached.  The
    call leaves the cache as it is, and so does the arrival of the image of
    a load it started, whatever happens in between. *)
Theorem C8_cache_false_bypasses_cache
    (s : SpriteManager.state) (url : jsval) (u : string)
    (t : option Z) (now : Z) :
  SpriteManager.validateUrl url = inr u ->
  let o := {| SpriteManager.so_timeout := t; SpriteManager.so_cache := Some false |} in
  let s1 := fst (SpriteManager.loadSprite s url o now) in
  let f := snd (SpriteManager.loadSprite s url o now) in
  SpriteManager.spriteCache s1 = SpriteManager.spriteCache s /\
  match JsMap.get (SpriteManager.loadingPromises s) u with
  | Some p => s1 = s /\ f = SpriteManager.FLoad p
  | None =>
      let i := length (SpriteManager.attempts s) in
      f = SpriteManager.FAwait i /\
      SpriteManager.fetch_log s1 = (SpriteManager.fetch_log s ++ [u])%list /\
      forall (tr : list SpriteManager.event) (now' : Z),
        SpriteManager.spriteCache
          (SpriteManager.img_onload (SpriteManager.run s1 tr) i now') =
        SpriteManager.spriteCache (SpriteManager.run s1 tr)
  end.
Proof.
  intros V o s1 f. subst s1 f. unfold SpriteManager.loadSprite. rewrite V.
  subst o. simpl.
  destruct (JsMap.get (SpriteManager.loadingPromises s) u) as [p|] eqn:L; simpl.
  - auto.
  - split; [reflexivity|]. split; [reflexivity|]. split.
    + unfold SpriteManager.fetch_log. simpl. rewrite List.map_app. reflexivity.
    + intros tr now'.
      match goal with |- context [SpriteManager.run ?s1 tr] => set (s1' := s1) end.
      assert (SpriteManager.attempts s1' !! length (SpriteManager.attempts s)
              = Some {| SpriteManager.a_url := u; SpriteManager.a_cache := false;
                        SpriteManager.a_timeout :=
                          num_or t SpriteManager.CONFIG.DEFAULT_TIMEOUT;
                        SpriteManager.a_status := SpriteManager.Pending |}) as A.
      { subst s1'. simpl. apply lookup_snoc_Some. right. auto. }
      destruct (SpriteManagerFacts.sm_run_lookup tr _ _ _ A) as (a' & A' & _ & C & _).
      exact (SpriteManagerFacts.sm_img_onload_uncached _ _ _ _ A' C).
Qed.

(** ['a.png'] is cached, then loaded again with [{ cache: false }]: a second
    fetch starts, and the cache is the same after the call and after the
    second image has arrived. *)
Lemma C8_cache_false_bypasses_cache_witness :
  let s := SpriteManager.run (SpriteManager.new_manager None)
             [SpriteManager.CallLoadSprite (JSStr "a.png") SpriteManager.no_options 1%Z;
              SpriteManager.Onload 0 2%Z] in
  let o := {| SpriteManager.so_timeout := None; SpriteManager.so_cache := Some false |} in
  let s1 := fst (SpriteManager.loadSprite s (JSStr "a.png") o 3%Z) in
  SpriteManager.isCached s "a.png" = true /\
  SpriteManager.spriteCache s1 = SpriteManager.spriteCache s /\
  snd (SpriteManager.loadSprite s (JSStr "a.png") o 3%Z) = SpriteManager.FAwait 1 /\
  SpriteManager.fetch_log s1 = ["a.png"; "a.png"] /\
  SpriteManager.spriteCache (SpriteManager.img_onload s1 1 4%Z) =
    SpriteManager.spriteCache s.
Proof.
  intros s o s1.
  assert (SpriteManager.validateUrl (JSStr "a.png") = inr "a.png") as V by reflexivity.
  pose proof (C8_cache_false_bypasses_cache s (JSStr "a.png") "a.png" None 3%Z V) as H.
  simpl in H. destruct H as (Hc & Hf & Hl & Hon).
  split; [reflexivity|]. split; [exact Hc|]. split; [exact Hf|]. split; [exact Hl|].
  exact (Hon [] 4%Z).
Defined.

(** ** The cache-hit fast path *)

(** C6, as stated, fails: ['a.png'] is in the sprite cache, and a
    [SpriteManager.loadSprite] call for it with [{ cache: false }] starts a
    second fetch, returns the promise of that new load instead of the stored
    sprite, and leaves the stored sprite's [lastUsed] at its old value. *)
Lemma C6_cache_hit_counterexample :
  let s := SpriteManager.run (SpriteManager.new_manager None)
             [SpriteManager.CallLoadSprite (JSStr "a.png") SpriteManager.no_options 1%Z;
              SpriteManager.Onload 0 2%Z] in
  let o := {| SpriteManager.so_timeout := None; SpriteManager.so_cache := Some false |} in
  let r := SpriteManager.loadSprite s (JSStr "a.png") o 3%Z in
  JsMap.get (SpriteManager.spriteCache s) "a.png" = Some 0 /\
  SpriteManager.fetch_count s "a.png" = 1 /\
  SpriteManager.fetch_count (fst r) "a.png" = 2 /\
  snd r = SpriteManager.FAwait 1 /\
  snd r <> SpriteManager.FResolved 0 /\
  SpriteManager.lastUsed_of (SpriteManager.attempts (fst r)) 0 = Some 2%Z.
Proof. repeat split; try reflexivity. discriminate. Qed.

(** C6, amended. For every key in the cache of a reachable loader:
    [AssetLoader.loadSprite] starts no fetch, returns the stored image and
    changes nothing (its records carry no timestamp);
    [SpriteManager.loadSprite] with [options.cache !== false] starts no
    fetch, returns the stored sprite reference, leaves both maps as they are
    and sets that sprite's [lastUsed] to the current time. *)
Theorem C6_cache_hit_fast_path :
  (forall (s : AssetLoader.state) (k : string) (h : AssetLoader.handle),
     AssetLoader.reachable s ->
     JsMap.get (AssetLoader.cache s) k = Some h ->
     AssetLoader.loadSprite s (JSStr k) = (s, AssetLoader.FResolved h))
  /\
  (forall (s : SpriteManager.state) (k : string) (r : nat)
          (o : SpriteManager.sprite_options) (now : Z),
     SpriteManager.reachable s ->
     JsMap.get (SpriteManager.spriteCache s) k = Some r ->
     SpriteManager.cache_enabled o = true ->
     let s' := fst (SpriteManager.loadSprite s (JSStr k) o now) in
     snd (SpriteManager.loadSprite s (JSStr k) o now) = SpriteManager.FResolved r /\
     SpriteManager.fetch_log s' = SpriteManager.fetch_log s /\
     SpriteManager.spriteCache s' = SpriteManager.spriteCache s /\
     SpriteManager.loadingPromises s' = SpriteManager.loadingPromises s /\
     SpriteManager.lastUsed_of (SpriteManager.attempts s') r = Some now).
Proof.
  split.
  - intros s k h R C.
    pose proof (AssetLoader.inv_cache_valid _ (AssetLoaderFacts.al_reachable_inv _ R) _ _ C) as V.
    unfold AssetLoader.loadSprite. rewrite V, C. reflexivity.
  - intros s k r o now R C E s'. subst s'.
    pose proof (SpriteManagerFacts.sm_reachable_inv _ R) as I.
    pose proof (JsMapFacts.get_In _ _ _ C) as Hin.
    pose proof (SpriteManager.inv_cache_valid _ I _ _ Hin) as V.
    destruct (SpriteManager.inv_cache_loaded _ I _ _ Hin) as [t Ht].
    unfold SpriteManager.loadSprite. rewrite V, E, C. simpl.
    split; [reflexivity|]. split.
    + unfold SpriteManager.fetch_log. simpl.
      apply SpriteManagerFacts.sm_fetch_log_set_lastUsed.
    + split; [reflexivity|]. split; [reflexivity|].
      exact (SpriteManagerFacts.sm_lastUsed_set_same _ _ _ _ Ht).
Qed.

(** A second [loadSprite('a.png')] on each loader after the first has
    succeeded. *)
Lemma C6_cache_hit_fast_path_witness :
  let sa := AssetLoader.run (AssetLoader.new_loader AssetLoader.default_ctor)
              [AssetLoader.CallLoadSprite (JSStr "a.png"); AssetLoader.Onload 0] in
  let sm := SpriteManager.run (SpriteManager.new_manager None)
              [SpriteManager.CallLoadSprite (JSStr "a.png") SpriteManager.no_options 1%Z;
               SpriteManager.Onload 0 2%Z] in
  AssetLoader.loadSprite sa (JSStr "a.png") = (sa, AssetLoader.FResolved 0) /\
  snd (SpriteManager.loadSprite sm (JSStr "a.png") SpriteManager.no_options 9%Z)
    = SpriteManager.FResolved 0 /\
  SpriteManager.lastUsed_of
    (SpriteManager.attempts
       (fst (SpriteManager.loadSprite sm (JSStr "a.png") SpriteManager.no_options 9%Z)))
    0 = Some 9%Z.
Proof.
  intros sa sm.
  assert (AssetLoader.reachable sa) as Ra.
  { exists AssetLoader.default_ctor,
      [AssetLoader.CallLoadSprite (JSStr "a.png"); AssetLoader.Onload 0]. reflexivity. }
  assert (SpriteManager.reachable sm) as Rm.
  { exists None,
      [SpriteManager.CallLoadSprite (JSStr "a.png") SpriteManager.no_options 1%Z;
       SpriteManager.Onload 0 2%Z]. reflexivity. }
  split.
  - apply (proj1 C6_cache_hit_fast_path sa "a.png" 0 Ra). reflexivity.
  - pose proof (proj2 C6_cache_hit_fast_path sm "a.png" 0 SpriteManager.no_options 9%Z
                  Rm eq_refl eq_refl) as H.
    simpl in H. destruct H as (Hf & _ & _ & _ & Hl). split; [exact Hf | exact Hl].
Defined.

(** ** One fetch per pending key *)

(** C5, as stated, fails: ['a.png'] is cached and a [{ cache: false }] load
    of it is pending.  Of two calls made before that load settles, the one
    with [{ cache: false }] receives the outstanding future and the one with
    default options receives the cached sprite. *)
Lemma C5_one_fetch_counterexample :
  let bypass := {| SpriteManager.so_timeout := None;
                   SpriteManager.so_cache := Some false |} in
  let s := SpriteManager.run (SpriteManager.new_manager None)
             [SpriteManager.CallLoadSprite (JSStr "a.png") SpriteManager.no_options 1%Z;
              SpriteManager.Onload 0 2%Z;
              SpriteManager.CallLoadSprite (JSStr "a.png") bypass 3%Z] in
  JsMap.get (SpriteManager.loadingPromises s) "a.png" = Some 1 /\
  SpriteManager.status s (SpriteManager.FLoad 1) = None /\
  snd (SpriteManager.loadSprite s (JSStr "a.png") bypass 4%Z) = SpriteManager.FLoad 1 /\
  snd (SpriteManager.loadSprite s (JSStr "a.png") SpriteManager.no_options 4%Z)
    = SpriteManager.FResolved 0 /\
  SpriteManager.FResolved 0 <> SpriteManager.FLoad 1.
Proof. repeat split; try reflexivity. discriminate. Qed.

(** C5, amended. While a key has an entry in the loading map of a reachable
    loader, [n] calls for it start no fetch.  Every caller receives the
    future registered in the map: always in [AssetLoader], and in
    [SpriteManager] unless the key is also cached and the call does not pass
    [cache: false] (that call is answered from the cache).  From a key that
    is neither cached nor loading, [n + 1] calls start exactly one fetch: the
    first call starts it and the other [n] receive its registered future. *)
Theorem C5_pending_load_is_shared :
  (forall (s : AssetLoader.state) (k : string) (p n : nat),
     AssetLoader.reachable s ->
     JsMap.get (AssetLoader.loading s) k = Some p ->
     AssetLoader.calls s (JSStr k) n = (s, repeat (AssetLoader.FLoad p) n))
  /\
  (forall (s : AssetLoader.state) (k : string) (n : nat),
     AssetLoader.valid_key s k ->
     JsMap.get (AssetLoader.cache s) k = None ->
     JsMap.get (AssetLoader.loading s) k = None ->
     let i := length (AssetLoader.attempts s) in
     snd (AssetLoader.calls s (JSStr k) (S n)) =
       AssetLoader.FRace i :: repeat (AssetLoader.FLoad i) n /\
     AssetLoader.fetch_count (fst (AssetLoader.calls s (JSStr k) (S n))) k =
       S (AssetLoader.fetch_count s k))
  /\
  (forall (s : SpriteManager.state) (k : string) (p n : nat)
          (o : SpriteManager.sprite_options) (now : Z),
     SpriteManager.reachable s ->
     JsMap.get (SpriteManager.loadingPromises s) k = Some p ->
     SpriteManager.fetch_log (fst (SpriteManager.calls s (JSStr k) o now n)) =
       SpriteManager.fetch_log s /\
     (SpriteManager.cache_enabled o = false \/
      JsMap.get (SpriteManager.spriteCache s) k = None ->
      SpriteManager.calls s (JSStr k) o now n = (s, repeat (SpriteManager.FLoad p) n)))
  /\
  (forall (s : SpriteManager.state) (k : string) (n : nat)
          (o : SpriteManager.sprite_options) (now : Z),
     SpriteManager.valid_key k ->
     SpriteManager.cache_enabled o = false \/
       JsMap.get (SpriteManager.spriteCache s) k = None ->
     JsMap.get (SpriteManager.loadingPromises s) k = None ->
     let i := length (SpriteManager.attempts s) in
     snd (SpriteManager.calls s (JSStr k) o now (S n)) =
       SpriteManager.FAwait i :: repeat (SpriteManager.FLoad i) n /\
     SpriteManager.fetch_count (fst (SpriteManager.calls s (JSStr k) o now (S n))) k =
       S (SpriteManager.fetch_count s k)).
Proof.
  split; [|split; [|split]].
  - intros s k p n R L.
    pose proof (AssetLoaderFacts.al_reachable_inv _ R) as I.
    apply AssetLoaderFacts.al_calls_join; [exact (AssetLoader.inv_loading_valid _ I _ _ L)| |exact L].
    destruct (JsMap.get (AssetLoader.cache s) k) as [h|] eqn:C; [|reflexivity].
    pose proof (AssetLoader.inv_disjoint _ I _ _ C). congruence.
  - intros s k n V C L i. subst i. simpl.
    destruct (AssetLoaderFacts.al_loadSprite_start s k V C L) as (Hf & Hl & V1 & C1 & L1).
    destruct (AssetLoader.loadSprite s (JSStr k)) as [s1 f]. simpl in *.
    rewrite (AssetLoaderFacts.al_calls_join s1 k _ n V1 C1 L1). simpl.
    split; [rewrite Hf; reflexivity|].
    unfold AssetLoader.fetch_count. rewrite Hl.
    apply AssetLoaderFacts.al_fetch_count_snoc.
  - intros s k p n o now R L.
    pose proof (SpriteManagerFacts.sm_reachable_inv _ R) as I.
    pose proof (SpriteManager.inv_loading_valid _ I _ _ L) as V. split.
    + exact (SpriteManagerFacts.sm_calls_pending_no_fetch k p o n s now V L).
    + intros C. exact (SpriteManagerFacts.sm_calls_join s k p o n now V C L).
  - intros s k n o now V C L i. subst i. simpl.
    destruct (SpriteManagerFacts.sm_loadSprite_start s k o now V C L) as (Hf & Hl & C1 & L1).
    destruct (SpriteManager.loadSprite s (JSStr k) o now) as [s1 f]. simpl in *.
    rewrite <- C1 in C.
    rewrite (SpriteManagerFacts.sm_calls_join s1 k _ o n _ V C L1). simpl.
    split; [rewrite Hf; reflexivity|].
    unfold SpriteManager.fetch_count. rewrite Hl.
    apply AssetLoaderFacts.al_fetch_count_snoc.
Qed.

(** Three calls [loadSprite('a.png')] in a row on each fresh loader. *)
Lemma C5_pending_load_is_shared_witness :
  let sa := AssetLoader.new_loader AssetLoader.default_ctor in
  let sa1 := fst (AssetLoader.loadSprite sa (JSStr "a.png")) in
  let sm := SpriteManager.new_manager None in
  let sm1 := fst (SpriteManager.loadSprite sm (JSStr "a.png") SpriteManager.no_options 1%Z) in
  AssetLoader.calls sa1 (JSStr "a.png") 2 =
    (sa1, [AssetLoader.FLoad 0; AssetLoader.FLoad 0]) /\
  (snd (AssetLoader.calls sa (JSStr "a.png") 3) =
     [AssetLoader.FRace 0; AssetLoader.FLoad 0; AssetLoader.FLoad 0] /\
   AssetLoader.fetch_count (fst (AssetLoader.calls sa (JSStr "a.png") 3)) "a.png" = 1) /\
  SpriteManager.calls sm1 (JSStr "a.png") SpriteManager.no_options 2%Z 2 =
    (sm1, [SpriteManager.FLoad 0; SpriteManager.FLoad 0]) /\
  (snd (SpriteManager.calls sm (JSStr "a.png") SpriteManager.no_options 1%Z 3) =
     [SpriteManager.FAwait 0; SpriteManager.FLoad 0; SpriteManager.FLoad 0] /\
   SpriteManager.fetch_count
     (fst (SpriteManager.calls sm (JSStr "a.png") SpriteManager.no_options 1%Z 3)) "a.png"
     = 1).
Proof.
  intros sa sa1 sm sm1.
  destruct C5_pending_load_is_shared as (A1 & A2 & S1 & S2).
  split; [|split; [|split]].
  - apply (A1 sa1 "a.png" 0 2); [|reflexivity].
    exists AssetLoader.default_ctor, [AssetLoader.CallLoadSprite (JSStr "a.png")].
    reflexivity.
  - apply (A2 sa "a.png" 2); reflexivity.
  - apply (S1 sm1 "a.png" 0 2 SpriteManager.no_options 2%Z); [|reflexivity|right; reflexivity].
    exists None,
      [SpriteManager.CallLoadSprite (JSStr "a.png") SpriteManager.no_options 1%Z].
    reflexivity.
  - apply (S2 sm "a.png" 2 SpriteManager.no_options 1%Z);
      [reflexivity | right; reflexivity | reflexivity].
Defined.

(** ** Timeouts *)

(** C1, as stated, fails on [AssetLoader]: the timer fires while
    ['a.png'] is loading and the caller's promise rejects with the timeout
    error, but when the image arrives afterwards its [onload] handler stores
    it in the cache and deletes the loading entry. *)
Lemma C1_timeout_counterexample :
  let s0 := AssetLoader.new_loader AssetLoader.default_ctor in
  let s1 := fst (AssetLoader.loadSprite s0 (JSStr "a.png")) in
  let f := snd (AssetLoader.loadSprite s0 (JSStr "a.png")) in
  let s2 := AssetLoader.timer_fires s1 0 in
  let s3 := AssetLoader.img_onload s2 0 in
  f = AssetLoader.FRace 0 /\
  AssetLoader.status s2 f = Some (Rejected (LoadTimeout None)) /\
  AssetLoader.isCached s2 "a.png" = false /\
  JsMap.get (AssetLoader.loading s2) "a.png" = Some 0 /\
  AssetLoader.isCached s3 "a.png" = true /\
  JsMap.get (AssetLoader.loading s3) "a.png" = None.
Proof. repeat split; reflexivity. Qed.

(** C1, amended. If the timer of a load fires while the load is pending,
    the promise returned to the caller that started the load is rejected
    with the timeout error and stays so.  In [SpriteManager] the callers
    that joined the load see the same rejection, and an image that arrives
    afterwards changes nothing: neither the sprite cache nor the loading map.
    In [AssetLoader] the callers that joined hold the load promise, which
    the timer does not settle, and the late image is not discarded: its
    [onload] handler stores the image in the cache and deletes the loading
    entry, while the starting caller's promise stays rejected. *)
Theorem C1_timeout_precedence :
  (forall (s : SpriteManager.state) (i : nat) (a : SpriteManager.attempt)
          (tr : list SpriteManager.event) (now : Z),
     SpriteManager.attempts s !! i = Some a ->
     SpriteManager.a_status a = SpriteManager.Pending ->
     let s1 := SpriteManager.run (SpriteManager.timer_fires s i) tr in
     let timeout := Rejected (LoadTimeout (Some (SpriteManager.a_url a))) in
     SpriteManager.status s1 (SpriteManager.FAwait i) = Some timeout /\
     SpriteManager.status s1 (SpriteManager.FLoad i) = Some timeout /\
     SpriteManager.img_onload s1 i now = s1)
  /\
  (forall (s : AssetLoader.state) (i : nat) (a : AssetLoader.attempt)
          (tr : list AssetLoader.event),
     AssetLoader.attempts s !! i = Some a ->
     AssetLoader.a_race a = None ->
     AssetLoader.status (AssetLoader.run (AssetLoader.timer_fires s i) tr)
       (AssetLoader.FRace i) = Some (Rejected (LoadTimeout None)) /\
     AssetLoader.status (AssetLoader.timer_fires s i) (AssetLoader.FLoad i) =
       AssetLoader.status s (AssetLoader.FLoad i))
  /\
  (forall (s : AssetLoader.state) (i : nat) (a : AssetLoader.attempt),
     AssetLoader.reachable s ->
     (1 <= AssetLoader.maxCacheSize (AssetLoader.opts s))%Z ->
     AssetLoader.attempts s !! i = Some a ->
     AssetLoader.a_img a = AssetLoader.ImgLoading ->
     AssetLoader.a_race a = Some (Rejected (LoadTimeout None)) ->
     let s1 := AssetLoader.img_onload s i in
     JsMap.get (AssetLoader.cache s1) (AssetLoader.a_url a) = Some i /\
     JsMap.get (AssetLoader.loading s1) (AssetLoader.a_url a) = None /\
     AssetLoader.status s1 (AssetLoader.FRace i) = Some (Rejected (LoadTimeout None))).
Proof.
  split; [|split].
  - intros s i a tr now A P s1 timeout. subst s1 timeout.
    assert (SpriteManager.attempts (SpriteManager.timer_fires s i) !! i
            = Some (SpriteManager.with_status a SpriteManager.TimedOut)) as A1.
    { unfold SpriteManager.timer_fires. rewrite A, P. simpl.
      apply list_lookup_insert_eq, (lookup_lt_Some _ _ _ A). }
    destruct (SpriteManagerFacts.sm_run_lookup tr _ _ _ A1) as (a' & A' & _ & _ & Hs).
    rewrite (Hs (or_intror eq_refl)) in A'.
    simpl. rewrite A'. simpl. split; [reflexivity|]. split; [reflexivity|].
    apply (SpriteManagerFacts.sm_img_onload_settled _ _ _ _ A'). simpl. discriminate.
  - intros s i a tr A R. split.
    + apply AssetLoaderFacts.al_status_race_stable.
      exact (AssetLoaderFacts.al_timer_fires_rejects s i a A R).
    + unfold AssetLoader.timer_fires. rewrite A. simpl. rewrite A.
      rewrite list_lookup_insert_eq by exact (lookup_lt_Some _ _ _ A). reflexivity.
  - intros s i a Rch Hm A Im R s1. subst s1.
    destruct (AssetLoaderFacts.al_img_onload_populates s i a
                (AssetLoaderFacts.al_reachable_inv _ Rch) Hm A Im) as [Hc Hl].
    split; [exact Hc|]. split; [exact Hl|].
    apply (AssetLoaderFacts.al_status_race_stable [AssetLoader.Onload i] s i).
    simpl. rewrite A. exact R.
Qed.

(** A load of ['a.png'] on each fresh loader, its timer, and then its
    image. *)
Lemma C1_timeout_precedence_witness :
  let sm := fst (SpriteManager.loadSprite (SpriteManager.new_manager None)
                   (JSStr "a.png") SpriteManager.no_options 1%Z) in
  let sm1 := SpriteManager.timer_fires sm 0 in
  let sa := fst (AssetLoader.loadSprite
                   (AssetLoader.new_loader AssetLoader.default_ctor) (JSStr "a.png")) in
  let sa1 := AssetLoader.timer_fires sa 0 in
  (SpriteManager.status sm1 (SpriteManager.FAwait 0)
     = Some (Rejected (LoadTimeout (Some "a.png"))) /\
   SpriteManager.img_onload sm1 0 7%Z = sm1) /\
  AssetLoader.status sa1 (AssetLoader.FRace 0) = Some (Rejected (LoadTimeout None)) /\
  JsMap.get (AssetLoader.cache (AssetLoader.img_onload sa1 0)) "a.png" = Some 0.
Proof.
  intros sm sm1 sa sa1.
  destruct C1_timeout_precedence as (S & A1 & A2).
  split; [|split].
  - destruct (S sm 0 _ [] 7%Z eq_refl eq_refl) as (H1 & _ & H3). split; assumption.
  - exact (proj1 (A1 sa 0 _ [] eq_refl eq_refl)).
  - refine (proj1 (A2 sa1 0 _ _ _ eq_refl eq_refl eq_refl)).
    + exists AssetLoader.default_ctor,
        [AssetLoader.CallLoadSprite (JSStr "a.png"); AssetLoader.TimerFires 0].
      reflexivity.
    + subst sa1 sa. simpl. unfold AssetLoader.CONFIG.MAX_CACHE_SIZE. lia.
Defined.

(** ** The loading map *)

(** C2, as stated, fails on [AssetLoader]: when the timeout settles the
    caller's promise, the entry for the key stays in the loading map, and a
    later call is handed that old entry instead of starting a fetch. *)
Lemma C2_pending_entry_counterexample :
  let s0 := AssetLoader.new_loader AssetLoader.default_ctor in
  let s1 := fst (AssetLoader.loadSprite s0 (JSStr "a.png")) in
  let s2 := AssetLoader.timer_fires s1 0 in
  AssetLoader.status s2 (AssetLoader.FRace 0) = Some (Rejected (LoadTimeout None)) /\
  JsMap.get (AssetLoader.loading s2) "a.png" = Some 0 /\
  AssetLoader.loadSprite s2 (JSStr "a.png") = (s2, AssetLoader.FLoad 0) /\
  AssetLoader.fetch_count (fst (AssetLoader.loadSprite s2 (JSStr "a.png"))) "a.png" = 1.
Proof. repeat split; reflexivity. Qed.

(** C2, amended. In [AssetLoader] the entry of a key is removed from the
    loading map in the very handler in which its image load settles,
    [onload] or [onerror]; after a fetch failure the next call for the key
    therefore starts a fresh fetch.  A timeout alone removes nothing there:
    the load goes on, the entry stays, and a call made meanwhile joins it.
    In [SpriteManager] the entry is removed in the step in which the load
    succeeds. *)
Theorem C2_pending_entry_lifecycle :
  (forall (s : AssetLoader.state) (k : string) (p : nat),
     AssetLoader.reachable s ->
     JsMap.get (AssetLoader.loading s) k = Some p ->
     let s1 := AssetLoader.img_onload s p in
     JsMap.get (AssetLoader.loading s1) k = None /\
     AssetLoader.status s1 (AssetLoader.FLoad p) = Some (Fulfilled p))
  /\
  (forall (s : AssetLoader.state) (k : string) (p : nat),
     AssetLoader.reachable s ->
     JsMap.get (AssetLoader.loading s) k = Some p ->
     let s1 := AssetLoader.img_onerror s p in
     JsMap.get (AssetLoader.loading s1) k = None /\
     AssetLoader.status s1 (AssetLoader.FLoad p) = Some (Rejected (LoadFailed k)) /\
     snd (AssetLoader.loadSprite s1 (JSStr k))
       = AssetLoader.FRace (length (AssetLoader.attempts s1)) /\
     AssetLoader.fetch_log (fst (AssetLoader.loadSprite s1 (JSStr k)))
       = (AssetLoader.fetch_log s1 ++ [k])%list)
  /\
  (forall (s : AssetLoader.state) (k : string) (p : nat),
     AssetLoader.reachable s ->
     JsMap.get (AssetLoader.loading s) k = Some p ->
     let s1 := AssetLoader.timer_fires s p in
     JsMap.get (AssetLoader.loading s1) k = Some p /\
     AssetLoader.loadSprite s1 (JSStr k) = (s1, AssetLoader.FLoad p))
  /\
  (forall (s : SpriteManager.state) (i : nat) (a : SpriteManager.attempt) (now : Z),
     SpriteManager.attempts s !! i = Some a ->
     SpriteManager.a_status a = SpriteManager.Pending ->
     let s1 := SpriteManager.img_onload s i now in
     JsMap.get (SpriteManager.loadingPromises s1) (SpriteManager.a_url a) = None /\
     SpriteManager.status s1 (SpriteManager.FAwait i) = Some (Fulfilled i)).
Proof.
  split; [|split; [|split]].
  - intros s k p R L s1. subst s1.
    destruct (AssetLoader.inv_loading_attempt _ (AssetLoaderFacts.al_reachable_inv _ R) _ _ L)
      as (a & A & <- & Im).
    unfold AssetLoader.img_onload. rewrite A, Im. simpl.
    split; [apply JsMapFacts.get_delete_eq|].
    rewrite list_lookup_insert_eq by exact (lookup_lt_Some _ _ _ A). reflexivity.
  - intros s k p R L s1.
    pose proof (AssetLoaderFacts.al_reachable_inv _ R) as I.
    destruct (AssetLoader.inv_loading_attempt _ I _ _ L) as (a & A & <- & Im).
    assert (JsMap.get (AssetLoader.loading s1) (AssetLoader.a_url a) = None) as L1.
    { subst s1. unfold AssetLoader.img_onerror. rewrite A, Im. simpl.
      apply JsMapFacts.get_delete_eq. }
    assert (AssetLoader.cache s1 = AssetLoader.cache s
            /\ AssetLoader.opts s1 = AssetLoader.opts s) as [C1 O1].
    { subst s1. unfold AssetLoader.img_onerror. rewrite A, Im. simpl. auto. }
    assert (JsMap.get (AssetLoader.cache s1) (AssetLoader.a_url a) = None) as C.
    { rewrite C1. destruct (JsMap.get (AssetLoader.cache s) (AssetLoader.a_url a)) eqn:E;
        [|reflexivity].
      pose proof (AssetLoader.inv_disjoint _ I _ _ E). congruence. }
    assert (AssetLoader.valid_key s1 (AssetLoader.a_url a)) as V.
    { unfold AssetLoader.valid_key. rewrite O1.
      exact (AssetLoader.inv_loading_valid _ I _ _ L). }
    split; [exact L1|]. split.
    + subst s1. unfold AssetLoader.img_onerror. rewrite A, Im. simpl.
      rewrite list_lookup_insert_eq by exact (lookup_lt_Some _ _ _ A). reflexivity.
    + destruct (AssetLoaderFacts.al_loadSprite_start s1 _ V C L1) as (Hf & Hl & _).
      split; assumption.
  - intros s k p R L s1.
    pose proof (AssetLoaderFacts.al_reachable_inv _ R) as I.
    destruct (AssetLoader.inv_loading_attempt _ I _ _ L) as (a & A & <- & Im).
    assert (AssetLoader.loading s1 = AssetLoader.loading s /\
            AssetLoader.cache s1 = AssetLoader.cache s /\
            AssetLoader.opts s1 = AssetLoader.opts s) as (L1 & C1 & O1).
    { subst s1. unfold AssetLoader.timer_fires. rewrite A. simpl. auto. }
    assert (JsMap.get (AssetLoader.loading s1) (AssetLoader.a_url a) = Some p) as L2
      by (rewrite L1; exact L).
    split; [exact L2|].
    apply AssetLoaderFacts.al_loadSprite_join; [| |exact L2].
    + unfold AssetLoader.valid_key. rewrite O1.
      exact (AssetLoader.inv_loading_valid _ I _ _ L).
    + rewrite C1. destruct (JsMap.get (AssetLoader.cache s) (AssetLoader.a_url a)) eqn:E;
        [|reflexivity].
      pose proof (AssetLoader.inv_disjoint _ I _ _ E). congruence.
  - intros s i a now A P s1.
    exact (SpriteManagerFacts.sm_img_onload_deletes s i a now A P).
Qed.

(** A load of ['a.png'] on a fresh loader, settled by [onload], by
    [onerror] followed by a second call, and by the timer. *)
Lemma C2_pending_entry_lifecycle_witness :
  let sa := fst (AssetLoader.loadSprite
                   (AssetLoader.new_loader AssetLoader.default_ctor) (JSStr "a.png")) in
  let sm := fst (SpriteManager.loadSprite (SpriteManager.new_manager None)
                   (JSStr "a.png") SpriteManager.no_options 1%Z) in
  JsMap.get (AssetLoader.loading (AssetLoader.img_onload sa 0)) "a.png" = None /\
  (JsMap.get (AssetLoader.loading (AssetLoader.img_onerror sa 0)) "a.png" = None /\
   snd (AssetLoader.loadSprite (AssetLoader.img_onerror sa 0) (JSStr "a.png"))
     = AssetLoader.FRace 1) /\
  JsMap.get (AssetLoader.loading (AssetLoader.timer_fires sa 0)) "a.png" = Some 0 /\
  JsMap.get (SpriteManager.loadingPromises (SpriteManager.img_onload sm 0 2%Z)) "a.png"
    = None.
Proof.
  intros sa sm.
  assert (AssetLoader.reachable sa) as R.
  { exists AssetLoader.default_ctor, [AssetLoader.CallLoadSprite (JSStr "a.png")].
    reflexivity. }
  destruct C2_pending_entry_lifecycle as (A1 & A2 & A3 & S).
  split; [|split; [|split]].
  - exact (proj1 (A1 sa "a.png" 0 R eq_refl)).
  - destruct (A2 sa "a.png" 0 R eq_refl) as (H1 & _ & H3 & _). split; assumption.
  - exact (proj1 (A3 sa "a.png" 0 R eq_refl)).
  - exact (proj1 (S sm 0 _ 2%Z eq_refl eq_refl)).
Defined.

(** Not part of the amended C2: when a [SpriteManager] load fails or times
    out, the [catch] of [loadSprite] rethrows without deleting the entry, so
    the rejected promise stays in the loading map and the next call for the
    key is handed it; no new fetch starts. *)
Lemma SpriteManager_rejected_load_keeps_entry :
  let s0 := SpriteManager.new_manager None in
  let s1 := fst (SpriteManager.loadSprite s0 (JSStr "a.png") SpriteManager.no_options 1%Z) in
  let s2 := SpriteManager.img_onerror s1 0 in
  SpriteManager.status s2 (SpriteManager.FAwait 0) = Some (Rejected (LoadFailed "a.png")) /\
  JsMap.get (SpriteManager.loadingPromises s2) "a.png" = Some 0 /\
  SpriteManager.loadSprite s2 (JSStr "a.png") SpriteManager.no_options 2%Z
    = (s2, SpriteManager.FLoad 0) /\
  SpriteManager.fetch_count s2 "a.png" = 1.
Proof. repeat split; reflexivity. Qed.

(** ** Eviction *)

(** Both loaders keep the cache within a bound of at least one entry. *)
Lemma AssetLoader_cache_bound (s : AssetLoader.state) :
  AssetLoader.reachable s ->
  (1 <= AssetLoader.maxCacheSize (AssetLoader.opts s))%Z ->
  (Z.of_nat (AssetLoader.cacheSize s) <= AssetLoader.maxCacheSize (AssetLoader.opts s))%Z.
Proof. intros R. exact (AssetLoader.inv_size _ (AssetLoaderFacts.al_reachable_inv _ R)). Qed.

Lemma SpriteManager_cache_bound (s : SpriteManager.state) :
  SpriteManager.reachable s ->
  (1 <= SpriteManager.maxCacheSize s)%Z ->
  (Z.of_nat (JsMap.size (SpriteManager.spriteCache s)) <= SpriteManager.maxCacheSize s)%Z.
Proof. intros R. exact (SpriteManager.inv_size _ (SpriteManagerFacts.sm_reachable_inv _ R)). Qed.

(** What [SpriteManager.#addToCache] evicts is a sprite with the least
    [lastUsed] among those in the cache. *)
Lemma SpriteManager_evicts_least_recently_used
    (maxSize : Z) (atts : list SpriteManager.attempt) (c : JsMap.t nat) :
  SpriteManager.evict maxSize atts c = c \/
  exists k r t,
    SpriteManager.evict maxSize atts c = JsMap.delete c k /\
    In (k, r) c /\
    SpriteManager.lastUsed_of atts r = Some t /\
    forall k' r' t', In (k', r') c -> SpriteManager.lastUsed_of atts r' = Some t' ->
                     (t <= t')%Z.
Proof.
  unfold SpriteManager.evict. destruct (_ >=? _)%Z; [|left; reflexivity].
  destruct (SpriteManager.truthy_key _); [|left; reflexivity].
  destruct (SpriteManager.scan_oldest atts c None None) as [k|] eqn:E; [|left; reflexivity].
  right. destruct (SpriteManagerFacts.sm_scan_oldest_least atts c k E) as (r & t & H).
  exists k, r, t. tauto.
Qed.

(** What [AssetLoader._manageCacheSize] evicts is the first key in
    insertion order. *)
Lemma AssetLoader_evicts_first_key (o : AssetLoader.options) (c : JsMap.t AssetLoader.handle) :
  AssetLoader._manageCacheSize o c = c \/
  exists k, JsMap.firstKey c = Some k /\ AssetLoader._manageCacheSize o c = JsMap.delete c k.
Proof.
  unfold AssetLoader._manageCacheSize. destruct (_ >? _)%Z; [|left; reflexivity].
  destruct (JsMap.firstKey c) as [k|]; [right; eauto | left; reflexivity].
Qed.

(** The scenario of the specification on [SpriteManager]: bound 2, load
    ['a.png'] and ['b.png'], use ['a.png'], load ['c.png']; ['b.png'] goes. *)
Lemma SpriteManager_lru_scenario :
  let o := SpriteManager.no_options in
  let s := SpriteManager.run (SpriteManager.new_manager (Some 2%Z))
             [SpriteManager.CallLoadSprite (JSStr "a.png") o 1%Z;
              SpriteManager.Onload 0 2%Z;
              SpriteManager.CallLoadSprite (JSStr "b.png") o 3%Z;
              SpriteManager.Onload 1 4%Z;
              SpriteManager.CallLoadSprite (JSStr "a.png") o 5%Z;
              SpriteManager.CallLoadSprite (JSStr "c.png") o 6%Z;
              SpriteManager.Onload 2 7%Z] in
  JsMap.keys (SpriteManager.spriteCache s) = ["a.png"; "c.png"].
Proof. reflexivity. Qed.

(** C3. Eviction bound and LRU selection.  The bound holds in both loaders
    and [SpriteManager] evicts by least [lastUsed]; [AssetLoader] does not.
    With [maxCacheSize] 2: ['a.png'] and ['b.png'] are loaded, ['a.png'] is
    requested again and served from the cache, then ['c.png'] is loaded.
    [_manageCacheSize] removes ['a.png'], the key used most recently, and
    keeps ['b.png'], the least recently used one. *)
Theorem C3_AssetLoader_evicts_recently_used_key :
  let o := {| AssetLoader.o_maxCacheSize := Some 2%Z;
              AssetLoader.o_timeout := None;
              AssetLoader.o_supportedFormats := None |} in
  let s1 := AssetLoader.run (AssetLoader.new_loader o)
              [AssetLoader.CallLoadSprite (JSStr "a.png"); AssetLoader.Onload 0;
               AssetLoader.CallLoadSprite (JSStr "b.png"); AssetLoader.Onload 1] in
  let hit := AssetLoader.loadSprite s1 (JSStr "a.png") in
  let s2 := AssetLoader.run (fst hit)
              [AssetLoader.CallLoadSprite (JSStr "c.png"); AssetLoader.Onload 2] in
  JsMap.keys (AssetLoader.cache s1) = ["a.png"; "b.png"] /\
  hit = (s1, AssetLoader.FResolved 0) /\
  JsMap.keys (AssetLoader.cache s2) = ["b.png"; "c.png"] /\
  AssetLoader.isCached s2 "a.png" = false /\
  AssetLoader.cacheSize s2 = 2.
Proof. repeat split; reflexivity. Qed.

(** ** Preloading *)

Lemma preloadSprites_calls_each (urls : list jsval) : forall s : AssetLoader.state,
  length (snd (AssetLoader.map_loadSprite s urls)) = length urls.
Proof.
  induction urls as [|u r IH]; intros s; simpl; [reflexivity|].
  destruct (AssetLoader.loadSprite s u) as [s1 f].
  specialize (IH s1). destruct (AssetLoader.map_loadSprite s1 r) as [s2 fs].
  simpl in *. rewrite IH. reflexivity.
Qed.

(** One rejected load rejects the whole preload. *)
Lemma preload_rejected_by_one (s : AssetLoader.state) (p : AssetLoader.preload)
    (f : AssetLoader.future) (e : error) :
  In f (AssetLoader.p_futures p) ->
  AssetLoader.status s f = Some (Rejected e) ->
  AssetLoader.preload_status s p = Some (Rejected (PreloadFailed (AssetLoader.p_urls p))).
Proof.
  intros Hin Hs. unfold AssetLoader.preload_status.
  replace (existsb _ (AssetLoader.p_futures p)) with true; [reflexivity|].
  symmetry. apply existsb_exists. exists f. split; [exact Hin|].
  rewrite Hs. reflexivity.
Qed.

(** C4. Preload partial-failure semantics.  [preloadSprites] does call
    [loadSprite] for every URL, but it does not partition the outcome: with
    the three URLs of the unit test, of which the second fails to load, the
    promise it returns is rejected as a whole with
    [AssetLoadError('Failed to preload sprites')] although the other two
    images loaded and were cached. *)
Theorem C4_preloadSprites_rejects_as_a_whole :
  let urls := [JSStr "path/to/sprite1.png"; JSStr "invalid/sprite.png";
               JSStr "path/to/sprite3.png"] in
  let s0 := AssetLoader.new_loader AssetLoader.default_ctor in
  let s1 := fst (AssetLoader.preloadSprites s0 urls) in
  let p := snd (AssetLoader.preloadSprites s0 urls) in
  let s2 := AssetLoader.run s1
              [AssetLoader.Onload 0; AssetLoader.Onerror 1; AssetLoader.Onload 2] in
  AssetLoader.fetch_log s1 =
    ["path/to/sprite1.png"; "invalid/sprite.png"; "path/to/sprite3.png"] /\
  AssetLoader.preload_status s1 p = None /\
  JsMap.keys (AssetLoader.cache s2) = ["path/to/sprite1.png"; "path/to/sprite3.png"] /\
  AssetLoader.preload_status s2 p = Some (Rejected (PreloadFailed urls)).
Proof. repeat split; reflexivity. Qed.

(* ================================================================== *)
(** * Further properties of the loaders *)

(** ** More on maps: key order and uniqueness *)

Module JsMapOrder.
Section Order.
Context {V : Type}.
Implicit Types (m : JsMap.t V) (k : string) (v : V).

Lemma jm_get_None_keys m k : JsMap.get m k = None <-> ~ In k (JsMap.keys m).
Proof.
  induction m as [|[k' v'] r IH]; simpl; [tauto|].
  destruct (String.eqb k k') eqn:E.
  - apply String.eqb_eq in E. subst. split; [discriminate | tauto].
  - apply String.eqb_neq in E. rewrite IH. split; [|tauto].
    intros H [H'|H']; [congruence | tauto].
Qed.


Lemma jm_keys_set_new m k v :
  JsMap.get m k = None -> JsMap.keys (JsMap.set m k v) = (JsMap.keys m ++ [k])%list.
Proof.
  induction m as [|[k' v'] r IH]; simpl; [reflexivity|].
  destruct (String.eqb k k'); [discriminate|]. simpl.
  intros H. rewrite (IH H). reflexivity.
Qed.

Lemma jm_keys_set_old m k v :
  JsMap.has m k = true -> JsMap.keys (JsMap.set m k v) = JsMap.keys m.
Proof.
  unfold JsMap.has. induction m as [|[k' v'] r IH]; simpl; [discriminate|].
  destruct (String.eqb k k') eqn:E; simpl.
  - apply String.eqb_eq in E. subst. reflexivity.
  - intros H. rewrite (IH H). reflexivity.
Qed.

Lemma jm_keys_delete m k :
  JsMap.keys (JsMap.delete m k) =
  List.filter (fun k' => negb (String.eqb k k')) (JsMap.keys m).
Proof.
  unfold JsMap.delete, JsMap.keys. induction m as [|[k' v'] r IH]; simpl; [reflexivity|].
  destruct (String.eqb k k'); simpl; rewrite IH; reflexivity.
Qed.


Lemma jm_delete_absent m k : JsMap.get m k = None -> JsMap.delete m k = m.
Proof.
  unfold JsMap.delete. induction m as [|[k' v'] r IH]; simpl; [reflexivity|].
  destruct (String.eqb k k'); [discriminate|]. simpl.
  intros H. rewrite (IH H). reflexivity.
Qed.

Lemma jm_NoDup_set m k v :
  List.NoDup (JsMap.keys m) -> List.NoDup (JsMap.keys (JsMap.set m k v)).
Proof.
  intros H. destruct (JsMap.get m k) eqn:G.
  - rewrite jm_keys_set_old; [exact H|]. unfold JsMap.has. rewrite G. reflexivity.
  - rewrite jm_keys_set_new by exact G.
    apply List.NoDup_app; [exact H | repeat constructor; simpl; tauto |].
    intros x Hx [<-|[]]. apply jm_get_None_keys in G. tauto.
Qed.

Lemma jm_NoDup_delete m k :
  List.NoDup (JsMap.keys m) -> List.NoDup (JsMap.keys (JsMap.delete m k)).
Proof. intros H. rewrite jm_keys_delete. apply List.NoDup_filter, H. Qed.



End Order.
End JsMapOrder.

(** ** AssetLoader *)

Module AssetLoaderMore.
Import AssetLoader.

Lemma alx_loadSprite_cache s url :
  cache (fst (loadSprite s url)) = cache s /\ opts (fst (loadSprite s url)) = opts s.
Proof. unfold loadSprite. repeat case_match; simpl; auto. Qed.

Lemma alx_map_loadSprite_cache urls : forall s,
  cache (fst (map_loadSprite s urls)) = cache s /\
  opts (fst (map_loadSprite s urls)) = opts s.
Proof.
  induction urls as [|u r IH]; intros s; simpl; [auto|].
  destruct (alx_loadSprite_cache s u) as [C O].
  destruct (loadSprite s u) as [s1 f]. simpl in *.
  destruct (IH s1) as [C1 O1]. destruct (map_loadSprite s1 r) as [s2 fs].
  simpl in *. split; congruence.
Qed.

(** How one task changes the cache: not at all, by emptying it, or by the
    [onload] handler of an image that was loading. *)
Lemma alx_step_cache s e :
  opts (step s e) = opts s /\
  (cache (step s e) = cache s \/
   cache (step s e) = [] \/
   exists i a, attempts s !! i = Some a /\ a_img a = ImgLoading /\
               cache (step s e) =
                 _manageCacheSize (opts s) (JsMap.set (cache s) (a_url a) i)).
Proof.
  destruct e; simpl.
  - destruct (alx_loadSprite_cache s url). auto.
  - unfold getSprite. destruct (alx_loadSprite_cache s url).
    destruct (loadSprite s url). auto.
  - unfold preloadSprites. destruct (alx_map_loadSprite_cache urls s).
    destruct (map_loadSprite s urls). auto.
  - unfold img_onload. destruct (attempts s !! i) as [a|] eqn:A; [|auto].
    destruct (a_img a) eqn:Im; simpl; auto.
    split; [reflexivity|]. right. right. exists i, a. auto.
  - unfold img_onerror. destruct (attempts s !! i) as [a|]; [|auto].
    destruct (a_img a); simpl; auto.
  - unfold timer_fires. destruct (attempts s !! i) as [a|]; simpl; auto.
  - auto.
Qed.

Lemma alx_run_opts tr : forall s, opts (run s tr) = opts s.
Proof.
  induction tr as [|e tr IH]; intros s; [reflexivity|].
  simpl. rewrite IH. apply (alx_step_cache s e).
Qed.

Lemma alx_firstKey_has (c : JsMap.t handle) k :
  JsMap.firstKey c = Some k -> JsMap.has c k = true.
Proof.
  destruct c as [|[k' v] r]; simpl; [discriminate|]. intros [= ->].
  unfold JsMap.has. simpl. rewrite String.eqb_refl. reflexivity.
Qed.

Lemma alx_size_manage o c :
  (Z.of_nat (JsMap.size c) <= Z.max 0 (maxCacheSize o) + 1)%Z ->
  (Z.of_nat (JsMap.size (_manageCacheSize o c)) <= Z.max 0 (maxCacheSize o))%Z.
Proof.
  intros Hs. unfold _manageCacheSize.
  destruct (Z.gtb_spec (Z.of_nat (JsMap.size c)) (maxCacheSize o)) as [Hgt|Hle]; [|lia].
  destruct (JsMap.firstKey c) as [k|] eqn:F.
  - pose proof (JsMapFacts.size_delete_lt c k (alx_firstKey_has _ _ F)). lia.
  - destruct c as [|[k v] r]; [simpl; lia | discriminate].
Qed.

Lemma alx_size_step s e :
  (Z.of_nat (JsMap.size (cache s)) <= Z.max 0 (maxCacheSize (opts s)))%Z ->
  (Z.of_nat (JsMap.size (cache (step s e)))
     <= Z.max 0 (maxCacheSize (opts (step s e))))%Z.
Proof.
  intros H. destruct (alx_step_cache s e) as [-> [->|[->|(i & a & _ & _ & ->)]]].
  - exact H.
  - simpl. lia.
  - apply alx_size_manage.
    pose proof (JsMapFacts.size_set_le (cache s) (a_url a) i). lia.
Qed.

Lemma alx_size_run tr : forall s,
  (Z.of_nat (JsMap.size (cache s)) <= Z.max 0 (maxCacheSize (opts s)))%Z ->
  (Z.of_nat (JsMap.size (cache (run s tr)))
     <= Z.max 0 (maxCacheSize (opts (run s tr))))%Z.
Proof.
  induction tr as [|e tr IH]; intros s H; [exact H|].
  apply IH, alx_size_step, H.
Qed.




Lemma alx_num_or_nonzero x d : d <> 0%Z -> num_or x d <> 0%Z.
Proof.
  intros Hd. unfold num_or. destruct x as [n|]; [|exact Hd].
  destruct (Z.eqb_spec n 0); assumption.
Qed.

End AssetLoaderMore.

(** X1. Whatever options the constructor is given and whatever happens
    afterwards, [maxCacheSize] is the constructor's value (100 when the
    option is absent or 0, so it is never 0) and the cache never holds more
    than [max(0, maxCacheSize)] images. *)
Theorem AssetLoader_cache_size_bounded
    (o : AssetLoader.ctor_options) (tr : list AssetLoader.event) :
  let s := AssetLoader.run (AssetLoader.new_loader o) tr in
  AssetLoader.maxCacheSize (AssetLoader.opts s) =
    num_or (AssetLoader.o_maxCacheSize o) AssetLoader.CONFIG.MAX_CACHE_SIZE /\
  AssetLoader.maxCacheSize (AssetLoader.opts s) <> 0%Z /\
  (Z.of_nat (AssetLoader.cacheSize s) <=
     Z.max 0 (AssetLoader.maxCacheSize (AssetLoader.opts s)))%Z.
Proof.
  intros s. subst s. rewrite AssetLoaderMore.alx_run_opts.
  split; [reflexivity|]. split.
  - simpl. apply AssetLoaderMore.alx_num_or_nonzero. discriminate.
  - pose proof (AssetLoaderMore.alx_size_run tr (AssetLoader.new_loader o)) as H.
    rewrite AssetLoaderMore.alx_run_opts in H. apply H. simpl. lia.
Qed.



Module AssetLoaderCalls.
Import AssetLoader.

Lemma alc_bad_key_invalid fmts url :
  bad_key fmts url -> exists e, _validateAssetUrl fmts url = inl e.
Proof.
  intros B. destruct B as [| |pre suf D N|key D N].
  - eexists. reflexivity.
  - eexists. reflexivity.
  - destruct (String.eqb (pre ++ String "."%char suf) "") eqn:E.
    + unfold _validateAssetUrl. simpl. rewrite E. simpl. eexists. reflexivity.
    + apply String.eqb_neq in E. rewrite AssetLoaderFacts.al_validate_str by exact E.
      rewrite JsStringFacts.extension_after_last_dot by exact D.
      apply JsStringFacts.includes_not_In in N. rewrite N. eexists. reflexivity.
  - destruct (String.eqb key "") eqn:E.
    + unfold _validateAssetUrl. simpl. rewrite E. simpl. eexists. reflexivity.
    + apply String.eqb_neq in E. rewrite AssetLoaderFacts.al_validate_str by exact E.
      rewrite JsStringFacts.extension_dot_free by exact D.
      apply JsStringFacts.includes_not_In in N. rewrite N. eexists. reflexivity.
Qed.

(** A call either starts nothing, or starts one load of the key it was
    given, which was not in the loading map before. *)
Lemma alc_loadSprite_effect s url :
  let s1 := fst (loadSprite s url) in
  (attempts s1 = attempts s /\ loading s1 = loading s) \/
  (exists u, JsMap.get (loading s) u = None /\
             attempts s1 = (attempts s ++
               [{| a_url := u; a_img := ImgLoading; a_race := None |}])%list /\
             loading s1 = JsMap.set (loading s) u (length (attempts s))).
Proof.
  unfold loadSprite.
  destruct (_validateAssetUrl _ url) as [e|u]; simpl; [auto|].
  destruct (JsMap.get (cache s) u); simpl; [auto|].
  destruct (JsMap.get (loading s) u) eqn:L; simpl; [auto|].
  right. exists u. auto.
Qed.

Lemma alc_count_app (l1 l2 : list attempt) k :
  length (List.filter (String.eqb k) (List.map a_url (l1 ++ l2))) =
  length (List.filter (String.eqb k) (List.map a_url l1)) +
  length (List.filter (String.eqb k) (List.map a_url l2)).
Proof. rewrite List.map_app, List.filter_app, List.length_app. reflexivity. Qed.

Lemma alc_pending_no_fetch s url k p :
  JsMap.get (loading s) k = Some p ->
  fetch_count (fst (loadSprite s url)) k = fetch_count s k /\
  exists p', JsMap.get (loading (fst (loadSprite s url))) k = Some p'.
Proof.
  intros L. unfold fetch_count, fetch_log.
  destruct (alc_loadSprite_effect s url) as [[-> ->]|(u & Lu & -> & ->)]; [eauto|].
  assert (u <> k) as Hne by congruence.
  rewrite alc_count_app. simpl.
  destruct (String.eqb k u) eqn:E; [apply String.eqb_eq in E; congruence|].
  simpl. split; [lia|]. exists p. rewrite JsMapFacts.get_set_ne by exact Hne. exact L.
Qed.

Lemma alc_map_pending_no_fetch urls k : forall s p,
  JsMap.get (loading s) k = Some p ->
  fetch_count (fst (map_loadSprite s urls)) k = fetch_count s k.
Proof.
  induction urls as [|u r IH]; intros s p L; simpl; [reflexivity|].
  destruct (alc_pending_no_fetch s u k p L) as [Hc [p' L']].
  destruct (loadSprite s u) as [s1 f]. simpl in *.
  specialize (IH s1 p' L'). destruct (map_loadSprite s1 r) as [s2 fs].
  simpl in *. congruence.
Qed.

Lemma alc_map_one_fetch urls k : forall s,
  fetch_count (fst (map_loadSprite s urls)) k <= S (fetch_count s k).
Proof.
  induction urls as [|u r IH]; intros s; simpl; [lia|].
  pose proof (alc_loadSprite_effect s u) as E.
  pose proof (alc_map_pending_no_fetch r k (fst (loadSprite s u))) as P.
  specialize (IH (fst (loadSprite s u))).
  destruct (loadSprite s u) as [s1 f]. simpl in *.
  destruct (map_loadSprite s1 r) as [s2 fs]. simpl in *.
  unfold fetch_count, fetch_log in *.
  destruct E as [[E1 E2]|(u' & Lu & E1 & E2)].
  - rewrite E1 in IH. exact IH.
  - destruct (String.eqb k u') eqn:Ek.
    + apply String.eqb_eq in Ek. subst u'.
      rewrite (P (length (attempts s))) by (rewrite E2; apply JsMapFacts.get_set_eq).
      rewrite E1, alc_count_app. simpl. rewrite String.eqb_refl. simpl. lia.
    + rewrite E1, alc_count_app in IH. simpl in IH. rewrite Ek in IH. simpl in IH. lia.
Qed.

Lemma alc_all_fulfilled_Forall2 s fs : forall hs,
  all_fulfilled s fs = Some hs <->
  Forall2 (fun f h => status s f = Some (Fulfilled h)) fs hs.
Proof.
  induction fs as [|f r IH]; intros hs; simpl.
  - split; [intros [= <-]; constructor | intros H; inversion H; reflexivity].
  - split.
    + destruct (status s f) as [[h|e]|] eqn:S; try discriminate.
      destruct (all_fulfilled s r) as [hs'|] eqn:A; [|discriminate].
      intros [= <-]. constructor; [exact S | apply IH; reflexivity].
    + intros H. inversion H as [|f' h r' hs' S F]; subst.
      rewrite S. apply IH in F. rewrite F. reflexivity.
Qed.

Lemma alc_Forall2_not_rejected s fs hs :
  Forall2 (fun f h => status s f = Some (Fulfilled h)) fs hs ->
  existsb (fun f => is_rejected (status s f)) fs = false.
Proof.
  induction 1 as [|f h r hs' S F IH]; simpl; [reflexivity|].
  rewrite S, IH. reflexivity.
Qed.

Lemma alc_map_loadSprite_rejects urls url fmts : forall s,
  supportedFormats (opts s) = fmts ->
  In url urls -> bad_key fmts url ->
  exists e, In (FRejected e) (snd (map_loadSprite s urls)).
Proof.
  induction urls as [|u r IH]; intros s Hf Hin B; [destruct Hin|].
  destruct Hin as [<-|Hin]; simpl.
  - destruct (alc_bad_key_invalid _ _ B) as [e V].
    unfold loadSprite at 1. rewrite Hf, V.
    destruct (map_loadSprite s r) as [s2 fs]. exists e. left. reflexivity.
  - pose proof (proj2 (AssetLoaderMore.alx_loadSprite_cache s u)) as O.
    destruct (loadSprite s u) as [s1 f]. simpl in O.
    destruct (IH s1 (eq_trans (f_equal supportedFormats O) Hf) Hin B) as [e He].
    destruct (map_loadSprite s1 r) as [s2 fs]. exists e. right. exact He.
Qed.

End AssetLoaderCalls.

(** X3. Load, then hit: once the image of a load has arrived (with a bound
    of at least one), [isCached] answers true for its URL and every further
    [loadSprite] of that URL returns this very image at once, leaving the
    loader as it is and fetching nothing. *)
Theorem AssetLoader_loaded_image_is_served
    (s : AssetLoader.state) (i : nat) (a : AssetLoader.attempt) (n : nat) :
  AssetLoader.reachable s ->
  (1 <= AssetLoader.maxCacheSize (AssetLoader.opts s))%Z ->
  AssetLoader.attempts s !! i = Some a ->
  AssetLoader.a_img a = AssetLoader.ImgLoading ->
  let s1 := AssetLoader.img_onload s i in
  AssetLoader.isCached s1 (AssetLoader.a_url a) = true /\
  AssetLoader.calls s1 (JSStr (AssetLoader.a_url a)) n
    = (s1, repeat (AssetLoader.FResolved i) n).
Proof.
  intros R Hm A Im s1.
  pose proof (AssetLoaderFacts.al_reachable_inv _ R) as I.
  destruct (AssetLoaderFacts.al_img_onload_populates s i a I Hm A Im) as [C _].
  fold s1 in C.
  assert (AssetLoader.inv s1) as I1 by apply (AssetLoaderFacts.al_inv_img_onload s i I).
  pose proof (AssetLoader.inv_cache_valid _ I1 _ _ C) as V.
  split.
  - unfold AssetLoader.isCached, JsMap.has. rewrite C. reflexivity.
  - induction n as [|n IH]; simpl; [reflexivity|].
    unfold AssetLoader.loadSprite at 1. rewrite V, C, IH. reflexivity.
Qed.

Lemma AssetLoader_loaded_image_is_served_witness :
  let s := fst (AssetLoader.loadSprite
                  (AssetLoader.new_loader AssetLoader.default_ctor) (JSStr "a.png")) in
  let s1 := AssetLoader.img_onload s 0 in
  AssetLoader.isCached s1 "a.png" = true /\
  AssetLoader.calls s1 (JSStr "a.png") 2
    = (s1, [AssetLoader.FResolved 0; AssetLoader.FResolved 0]).
Proof.
  intros s s1.
  assert (AssetLoader.reachable s) as R.
  { exists AssetLoader.default_ctor, [AssetLoader.CallLoadSprite (JSStr "a.png")].
    reflexivity. }
  refine (AssetLoader_loaded_image_is_served s 0
            {| AssetLoader.a_url := "a.png"; AssetLoader.a_img := AssetLoader.ImgLoading;
               AssetLoader.a_race := None |} 2 R _ eq_refl eq_refl).
  subst s. simpl. unfold AssetLoader.CONFIG.MAX_CACHE_SIZE. lia.
Defined.

(** X4. In every reachable state an entry of the loading map stands for a
    load that is really in flight: the attempt it names was started for that
    very key (a valid one), its image has neither loaded nor failed, its load
    promise is pending, and the key is not in the cache. *)
Theorem AssetLoader_loading_entry_is_in_flight
    (s : AssetLoader.state) (k : string) (p : nat) :
  AssetLoader.reachable s ->
  JsMap.get (AssetLoader.loading s) k = Some p ->
  (exists a, AssetLoader.attempts s !! p = Some a /\
             AssetLoader.a_url a = k /\
             AssetLoader.a_img a = AssetLoader.ImgLoading) /\
  AssetLoader.status s (AssetLoader.FLoad p) = None /\
  AssetLoader.isCached s k = false /\
  AssetLoader.valid_key s k.
Proof.
  intros R L. pose proof (AssetLoaderFacts.al_reachable_inv _ R) as I.
  destruct (AssetLoader.inv_loading_attempt _ I _ _ L) as (a & A & U & Im).
  split; [eauto|]. split.
  - simpl. rewrite A. unfold AssetLoader.load_status. rewrite Im. reflexivity.
  - split; [|exact (AssetLoader.inv_loading_valid _ I _ _ L)].
    unfold AssetLoader.isCached, JsMap.has.
    destruct (JsMap.get (AssetLoader.cache s) k) eqn:C; [|reflexivity].
    pose proof (AssetLoader.inv_disjoint _ I _ _ C). congruence.
Qed.

Lemma AssetLoader_loading_entry_is_in_flight_witness :
  let s := AssetLoader.run (AssetLoader.new_loader AssetLoader.default_ctor)
             [AssetLoader.CallLoadSprite (JSStr "a.png");
              AssetLoader.CallLoadSprite (JSStr "b.png"); AssetLoader.Onload 0] in
  AssetLoader.status s (AssetLoader.FLoad 1) = None /\
  AssetLoader.isCached s "b.png" = false.
Proof.
  intros s.
  assert (AssetLoader.reachable s) as R by (eexists _, _; reflexivity).
  destruct (AssetLoader_loading_entry_is_in_flight s "b.png" 1 R eq_refl)
    as (_ & H1 & H2 & _).
  split; assumption.
Defined.

(** X5. [clearCache()] empties the cache and forgets the loads in flight
    without cancelling them.  For a key that was loading: its old load
    promise is still pending, the next [loadSprite] starts a second fetch of
    the same key, and when the first image arrives later it is cached all the
    same. *)
Theorem AssetLoader_clearCache_forgets_but_does_not_cancel
    (s : AssetLoader.state) (k : string) (p : nat) :
  AssetLoader.reachable s ->
  JsMap.get (AssetLoader.loading s) k = Some p ->
  let s1 := AssetLoader.clearCache s in
  AssetLoader.cacheSize s1 = 0 /\
  (forall k', AssetLoader.isCached s1 k' = false) /\
  AssetLoader.status s1 (AssetLoader.FLoad p) = None /\
  snd (AssetLoader.loadSprite s1 (JSStr k))
    = AssetLoader.FRace (length (AssetLoader.attempts s)) /\
  AssetLoader.fetch_count (fst (AssetLoader.loadSprite s1 (JSStr k))) k
    = S (AssetLoader.fetch_count s k) /\
  ((1 <= AssetLoader.maxCacheSize (AssetLoader.opts s))%Z ->
   JsMap.get (AssetLoader.cache (AssetLoader.img_onload s1 p)) k = Some p).
Proof.
  intros R L s1. pose proof (AssetLoaderFacts.al_reachable_inv _ R) as I.
  destruct (AssetLoader.inv_loading_attempt _ I _ _ L) as (a & A & U & Im).
  pose proof (AssetLoader.inv_loading_valid _ I _ _ L) as V.
  split; [reflexivity|]. split; [reflexivity|]. split.
  { simpl. rewrite A. unfold AssetLoader.load_status. rewrite Im. reflexivity. }
  assert (AssetLoader.valid_key s1 k) as V1 by exact V.
  destruct (AssetLoaderFacts.al_loadSprite_start s1 k V1 eq_refl eq_refl)
    as (Hf & Hl & _).
  split; [exact Hf|]. split.
  - unfold AssetLoader.fetch_count. rewrite Hl.
    apply AssetLoaderFacts.al_fetch_count_snoc.
  - intros Hm. subst k.
    assert (AssetLoader.reachable s1) as R1
      by apply (AssetLoaderFacts.al_reachable_step s AssetLoader.CallClearCache R).
    exact (proj1 (AssetLoaderFacts.al_img_onload_populates s1 p a
                    (AssetLoaderFacts.al_reachable_inv _ R1) Hm A Im)).
Qed.

Lemma AssetLoader_clearCache_forgets_but_does_not_cancel_witness :
  let s := fst (AssetLoader.loadSprite
                  (AssetLoader.new_loader AssetLoader.default_ctor) (JSStr "a.png")) in
  let s1 := AssetLoader.clearCache s in
  snd (AssetLoader.loadSprite s1 (JSStr "a.png")) = AssetLoader.FRace 1 /\
  AssetLoader.fetch_count (fst (AssetLoader.loadSprite s1 (JSStr "a.png"))) "a.png" = 2.
Proof.
  intros s s1.
  assert (AssetLoader.reachable s) as R.
  { exists AssetLoader.default_ctor, [AssetLoader.CallLoadSprite (JSStr "a.png")].
    reflexivity. }
  destruct (AssetLoader_clearCache_forgets_but_does_not_cancel s "a.png" 0 R eq_refl)
    as (_ & _ & _ & H1 & H2 & _).
  split; assumption.
Defined.

(** X6. The promise of [preloadSprites] waits on one future per URL.  It
    resolves exactly when every one of them is fulfilled, with the images in
    the order of the URLs; it rejects exactly when one of them is rejected,
    always with the same aggregate error. *)
Theorem AssetLoader_preload_outcome
    (s0 s : AssetLoader.state) (urls : list jsval) :
  let p := snd (AssetLoader.preloadSprites s0 urls) in
  AssetLoader.p_urls p = urls /\
  length (AssetLoader.p_futures p) = length urls /\
  (forall hs,
     AssetLoader.preload_status s p = Some (Fulfilled hs) <->
     Forall2 (fun f h => AssetLoader.status s f = Some (Fulfilled h))
       (AssetLoader.p_futures p) hs) /\
  (forall e,
     AssetLoader.preload_status s p = Some (Rejected e) <->
     e = PreloadFailed urls /\
     exists f e', In f (AssetLoader.p_futures p) /\
                  AssetLoader.status s f = Some (Rejected e')).
Proof.
  intros p. subst p. unfold AssetLoader.preloadSprites.
  pose proof (preloadSprites_calls_each urls s0) as Len.
  destruct (AssetLoader.map_loadSprite s0 urls) as [s1 fs]. simpl in *.
  split; [reflexivity|]. split; [exact Len|].
  unfold AssetLoader.preload_status. simpl. split.
  - intros hs. split.
    + destruct (existsb _ fs); [discriminate|].
      destruct (AssetLoader.all_fulfilled s fs) as [hs'|] eqn:A; [|discriminate].
      intros [= <-]. apply AssetLoaderCalls.alc_all_fulfilled_Forall2, A.
    + intros F. rewrite (AssetLoaderCalls.alc_Forall2_not_rejected _ _ _ F).
      apply AssetLoaderCalls.alc_all_fulfilled_Forall2 in F. rewrite F. reflexivity.
  - intros e. split.
    + destruct (existsb _ fs) eqn:E.
      * intros [= <-]. split; [reflexivity|].
        apply existsb_exists in E as (f & Hin & Hr). exists f.
        destruct (AssetLoader.status s f) as [[h|e']|]; try discriminate. eauto.
      * destruct (AssetLoader.all_fulfilled s fs); discriminate.
    + intros [-> (f & e' & Hin & Hs)].
      replace (existsb _ fs) with true; [reflexivity|].
      symmetry. apply existsb_exists. exists f. rewrite Hs. auto.
Qed.

(** X7. One argument that fails validation rejects the whole preload at
    once: right after the call, before any image has settled, the promise of
    [preloadSprites] is rejected, and nothing that happens later changes
    that. *)
Theorem AssetLoader_preload_rejects_at_once_on_bad_key
    (s : AssetLoader.state) (urls : list jsval) (url : jsval)
    (tr : list AssetLoader.event) :
  In url urls ->
  bad_key (AssetLoader.supportedFormats (AssetLoader.opts s)) url ->
  let s1 := fst (AssetLoader.preloadSprites s urls) in
  let p := snd (AssetLoader.preloadSprites s urls) in
  AssetLoader.preload_status (AssetLoader.run s1 tr) p
    = Some (Rejected (PreloadFailed urls)).
Proof.
  intros Hin B s1 p. subst s1 p. unfold AssetLoader.preloadSprites.
  destruct (AssetLoaderCalls.alc_map_loadSprite_rejects urls url _ s eq_refl Hin B)
    as [e He].
  destruct (AssetLoader.map_loadSprite s urls) as [s1 fs]. simpl in *.
  apply (preload_rejected_by_one _ {| AssetLoader.p_urls := urls;
                                      AssetLoader.p_futures := fs |}
           (AssetLoader.FRejected e) e He).
  reflexivity.
Qed.

Lemma AssetLoader_preload_rejects_at_once_on_bad_key_witness :
  let s := AssetLoader.new_loader AssetLoader.default_ctor in
  let urls := [JSStr "a.png"; JSNull] in
  AssetLoader.preload_status (fst (AssetLoader.preloadSprites s urls))
    (snd (AssetLoader.preloadSprites s urls))
    = Some (Rejected (PreloadFailed urls)).
Proof.
  intros s urls.
  apply (AssetLoader_preload_rejects_at_once_on_bad_key s urls JSNull []).
  - simpl. tauto.
  - apply bad_null.
Defined.

(** X8. However often a URL occurs in its argument, [preloadSprites] starts
    at most one fetch of it (and none when it is already loading). *)
Theorem AssetLoader_preload_fetches_each_key_once
    (s : AssetLoader.state) (urls : list jsval) (k : string) :
  AssetLoader.fetch_count (fst (AssetLoader.preloadSprites s urls)) k
    <= S (AssetLoader.fetch_count s k) /\
  (forall p, JsMap.get (AssetLoader.loading s) k = Some p ->
     AssetLoader.fetch_count (fst (AssetLoader.preloadSprites s urls)) k
       = AssetLoader.fetch_count s k).
Proof.
  unfold AssetLoader.preloadSprites.
  pose proof (AssetLoaderCalls.alc_map_one_fetch urls k s) as H1.
  pose proof (AssetLoaderCalls.alc_map_pending_no_fetch urls k s) as H2.
  destruct (AssetLoader.map_loadSprite s urls) as [s1 fs]. simpl in *.
  split; [exact H1 | exact H2].
Qed.

Lemma AssetLoader_preload_fetches_each_key_once_witness :
  let s := fst (AssetLoader.loadSprite
                  (AssetLoader.new_loader AssetLoader.default_ctor) (JSStr "a.png")) in
  AssetLoader.fetch_count
    (fst (AssetLoader.preloadSprites s [JSStr "a.png"; JSStr "a.png"])) "a.png" = 1.
Proof.
  intros s.
  exact (proj2 (AssetLoader_preload_fetches_each_key_once s
                  [JSStr "a.png"; JSStr "a.png"] "a.png") 0 eq_refl).
Defined.

(** ** SpriteManager *)

Module SpriteManagerMore.
Import SpriteManager.

Lemma smx_set_lastUsed_loaded atts r now j b t :
  atts !! j = Some b -> a_status b = Loaded t ->
  exists b' t', set_lastUsed atts r now !! j = Some b' /\
                a_url b' = a_url b /\ a_cache b' = a_cache b /\
                a_status b' = Loaded t'.
Proof.
  intros B S. unfold set_lastUsed. destruct (atts !! r) as [a|] eqn:A; [|eauto 7].
  destruct (a_status a) eqn:Sa; eauto 7.
  destruct (decide (r = j)) as [->|Hne].
  - rewrite list_lookup_insert_eq by exact (lookup_lt_Some _ _ _ A).
    replace b with a by congruence. eexists _, now. split; [reflexivity|]. simpl. auto.
  - rewrite list_lookup_insert_ne by exact Hne. eauto 7.
Qed.

Lemma smx_settle_loaded (atts : list attempt) (i : nat) a st (j : nat) b t :
  atts !! i = Some a -> a_status a = Pending ->
  atts !! j = Some b -> a_status b = Loaded t ->
  <[i := with_status a st]> atts !! j = Some b.
Proof.
  intros A P B S. rewrite list_lookup_insert_ne; [exact B|].
  intros ->. congruence.
Qed.

(** [#addToCache] keeps the size within [max(1, maxSize)], whatever the
    bound is. *)
Lemma smx_size_addToCache maxSize atts (c : JsMap.t nat) url sprite :
  (Z.of_nat (JsMap.size c) <= Z.max 1 maxSize)%Z ->
  (forall k r, In (k, r) c -> k <> "" /\ exists t, lastUsed_of atts r = Some t) ->
  (Z.of_nat (JsMap.size (addToCache maxSize atts c url sprite)) <= Z.max 1 maxSize)%Z.
Proof.
  intros Hs Hall. unfold addToCache, evict.
  destruct (Z.geb_spec (Z.of_nat (JsMap.size c)) maxSize) as [Hge|Hlt].
  - destruct c as [|e c'] eqn:Ec.
    + simpl. lia.
    + rewrite <- Ec in *.
      assert (c <> []) as Hne by (rewrite Ec; discriminate).
      destruct (SpriteManagerFacts.sm_scan_oldest_finds atts c Hne) as (k & r & E & Hin).
      { intros k r H. apply (Hall k r H). }
      rewrite E. simpl.
      destruct (Hall k r Hin) as [Hk _]. apply String.eqb_neq in Hk. rewrite Hk. simpl.
      pose proof (JsMapFacts.size_delete_lt c k (JsMapFacts.In_has _ _ _ Hin)).
      pose proof (JsMapFacts.size_set_le (JsMap.delete c k) url sprite). lia.
  - pose proof (JsMapFacts.size_set_le c url sprite). lia.
Qed.

Lemma smx_NoDup_evict maxSize atts (c : JsMap.t nat) :
  List.NoDup (JsMap.keys c) -> List.NoDup (JsMap.keys (evict maxSize atts c)).
Proof.
  intros H. unfold evict. destruct (_ >=? _)%Z; [|exact H].
  destruct (truthy_key _); [|exact H].
  destruct (scan_oldest atts c None None); [|exact H].
  apply JsMapOrder.jm_NoDup_delete, H.
Qed.

Lemma smx_cache_inv_new m : cache_inv (new_manager m).
Proof.
  constructor; simpl; [constructor | tauto | lia].
Qed.

Lemma smx_cache_inv_loadSprite s url o now :
  cache_inv s -> cache_inv (fst (loadSprite s url o now)).
Proof.
  intros C. unfold loadSprite.
  destruct (validateUrl url) as [e|u]; [constructor; simpl; apply C|].
  destruct (if cache_enabled o then _ else _) as [sprite|].
  - constructor; simpl; [apply C | | apply C].
    intros k r H. destruct (ci_entry _ C _ _ H) as (a & t & A & U & Ca & S).
    destruct (smx_set_lastUsed_loaded _ sprite now _ _ _ A S) as (b' & t' & B & U' & C' & S').
    exists b', t'. repeat split; congruence.
  - destruct (JsMap.get (loadingPromises s) u); [exact C|].
    constructor; simpl; [apply C | | apply C].
    intros k r H. destruct (ci_entry _ C _ _ H) as (a & t & A & U & Ca & S).
    exists a, t. split; [apply lookup_app_l_Some, A | auto].
Qed.

Lemma smx_cache_inv_img_onload s i now :
  inv s -> cache_inv s -> cache_inv (img_onload s i now).
Proof.
  intros I C. unfold img_onload.
  destruct (attempts s !! i) as [a|] eqn:A; [|exact C].
  destruct (a_status a) eqn:P; try exact C.
  assert (forall k r, In (k, r) (spriteCache s) ->
            exists b t, <[i := with_status a (Loaded now)]> (attempts s) !! r = Some b /\
                        a_url b = k /\ a_cache b = true /\ a_status b = Loaded t) as Hold.
  { intros k r H. destruct (ci_entry _ C _ _ H) as (b & t & B & U & Cb & S).
    exists b, t. split; [exact (smx_settle_loaded _ _ _ _ _ _ _ A P B S) | auto]. }
  constructor; simpl.
  - destruct (a_cache a); [|apply C].
    apply JsMapOrder.jm_NoDup_set, smx_NoDup_evict, C.
  - destruct (a_cache a) eqn:Ca; [|exact Hold].
    intros k r H. apply JsMapFacts.In_set in H as [[-> ->]|H].
    + exists (with_status a (Loaded now)), now.
      split; [apply list_lookup_insert_eq, (lookup_lt_Some _ _ _ A) | simpl; auto].
    + apply SpriteManagerFacts.sm_In_evict in H. exact (Hold _ _ H).
  - destruct (a_cache a); [|apply C].
    apply smx_size_addToCache; [apply C|].
    intros k r Hin. split.
    + exact (SpriteManagerFacts.sm_valid_key_nonempty _ (inv_cache_valid _ I _ _ Hin)).
    + destruct (Hold _ _ Hin) as (b & t & B & _ & _ & S).
      exists t. unfold lastUsed_of. rewrite B, S. reflexivity.
Qed.

Lemma smx_cache_inv_reject s i a st e :
  cache_inv s -> attempts s !! i = Some a -> a_status a = Pending ->
  cache_inv (reject_with s i a st e).
Proof.
  intros C A P. constructor; simpl; [apply C | | apply C].
  intros k r H. destruct (ci_entry _ C _ _ H) as (b & t & B & U & Cb & S).
  exists b, t. split; [exact (smx_settle_loaded _ _ _ _ _ _ _ A P B S) | auto].
Qed.

Lemma smx_cache_inv_step s e : inv s -> cache_inv s -> cache_inv (step s e).
Proof.
  intros I C. destruct e; simpl.
  - apply smx_cache_inv_loadSprite, C.
  - apply smx_cache_inv_img_onload; assumption.
  - unfold img_onerror. destruct (attempts s !! i) as [a|] eqn:A; [|exact C].
    destruct (a_status a) eqn:P; try exact C. apply smx_cache_inv_reject; assumption.
  - unfold timer_fires. destruct (attempts s !! i) as [a|] eqn:A; [|exact C].
    destruct (a_status a) eqn:P; try exact C. apply smx_cache_inv_reject; assumption.
  - destruct url as [| | | |u|]; try exact C. constructor; simpl.
    + apply JsMapOrder.jm_NoDup_delete, C.
    + intros k r H. apply JsMapFacts.In_delete in H as [H _]. exact (ci_entry _ C _ _ H).
    + pose proof (ci_size _ C). pose proof (JsMapFacts.size_delete_le (spriteCache s) u).
      lia.
  - constructor; simpl; [constructor | tauto | lia].
Qed.

Lemma smx_cache_inv_run tr : forall s, inv s -> cache_inv s -> cache_inv (run s tr).
Proof.
  induction tr as [|e tr IH]; intros s I C; [exact C|].
  apply IH; [apply SpriteManagerFacts.sm_inv_step, I | apply smx_cache_inv_step; assumption].
Qed.

Lemma smx_cache_inv_reachable s : reachable s -> cache_inv s.
Proof.
  intros (m & tr & ->).
  apply smx_cache_inv_run; [apply SpriteManagerFacts.sm_inv_new | apply smx_cache_inv_new].
Qed.



End SpriteManagerMore.


(** X10. When a caching load succeeds, [#addToCache] stores its sprite under
    its URL.  Below the bound nothing is evicted.  With the bound reached
    (and a cache that is not empty) exactly one entry is deleted first, and
    it is one whose sprite has the least [lastUsed] of the whole cache. *)
Theorem SpriteManager_caching_load_evicts_least_recently_used
    (s : SpriteManager.state) (i : nat) (a : SpriteManager.attempt) (now : Z) :
  SpriteManager.reachable s ->
  SpriteManager.attempts s !! i = Some a ->
  SpriteManager.a_status a = SpriteManager.Pending ->
  SpriteManager.a_cache a = true ->
  let c := SpriteManager.spriteCache s in
  let c' := SpriteManager.spriteCache (SpriteManager.img_onload s i now) in
  ((Z.of_nat (JsMap.size c) < SpriteManager.maxCacheSize s)%Z ->
   c' = JsMap.set c (SpriteManager.a_url a) i) /\
  ((SpriteManager.maxCacheSize s <= Z.of_nat (JsMap.size c))%Z -> c <> [] ->
   exists k r t,
     In (k, r) c /\
     SpriteManager.lastUsed_of (SpriteManager.attempts s) r = Some t /\
     (forall k' r' t', In (k', r') c ->
        SpriteManager.lastUsed_of (SpriteManager.attempts s) r' = Some t' ->
        (t <= t')%Z) /\
     c' = JsMap.set (JsMap.delete c k) (SpriteManager.a_url a) i).
Proof.
  intros R A P Ca c c'. subst c c'.
  pose proof (SpriteManagerFacts.sm_reachable_inv _ R) as I.
  unfold SpriteManager.img_onload. rewrite A, P. simpl. rewrite Ca.
  unfold SpriteManager.addToCache, SpriteManager.evict.
  set (atts := <[i := SpriteManager.with_status a (SpriteManager.Loaded now)]>
                 (SpriteManager.attempts s)).
  assert (forall k r t, In (k, r) (SpriteManager.spriteCache s) ->
            (SpriteManager.lastUsed_of (SpriteManager.attempts s) r = Some t <->
             SpriteManager.lastUsed_of atts r = Some t)) as Same.
  { intros k r t H. destruct (SpriteManager.inv_cache_loaded _ I _ _ H) as [t0 Ht0].
    pose proof (SpriteManagerFacts.sm_lastUsed_settle _ _ _
                  (SpriteManager.Loaded now) _ _ A P Ht0) as H1.
    fold atts in H1. rewrite Ht0, H1. tauto. }
  split.
  - intros Hlt.
    destruct (Z.geb_spec (Z.of_nat (JsMap.size (SpriteManager.spriteCache s)))
                (SpriteManager.maxCacheSize s)) as [Hge|_]; [lia | reflexivity].
  - intros Hge Hne.
    destruct (Z.geb_spec (Z.of_nat (JsMap.size (SpriteManager.spriteCache s)))
                (SpriteManager.maxCacheSize s)) as [_|Hlt]; [|lia].
    destruct (SpriteManagerFacts.sm_scan_oldest_finds atts _ Hne) as (k & r0 & E & Hin0).
    { intros k r H. destruct (SpriteManager.inv_cache_loaded _ I _ _ H) as [t0 Ht0].
      exists t0. apply (Same k r t0 H), Ht0. }
    destruct (SpriteManagerFacts.sm_scan_oldest_least atts _ k E)
      as (r & t & Hin & Ht & Hleast).
    rewrite E. simpl.
    pose proof (SpriteManagerFacts.sm_valid_key_nonempty _
                  (SpriteManager.inv_cache_valid _ I _ _ Hin)) as Hk.
    apply String.eqb_neq in Hk. rewrite Hk. simpl.
    exists k, r, t. split; [exact Hin|]. split; [apply (Same k r t Hin), Ht|].
    split; [|reflexivity].
    intros k' r' t' Hin' Ht'. apply (Hleast k' r' t' Hin').
    apply (Same k' r' t' Hin'), Ht'.
Qed.

Lemma SpriteManager_caching_load_evicts_least_recently_used_witness :
  let o := SpriteManager.no_options in
  let s := SpriteManager.run (SpriteManager.new_manager (Some 2%Z))
             [SpriteManager.CallLoadSprite (JSStr "a.png") o 1%Z;
              SpriteManager.Onload 0 2%Z;
              SpriteManager.CallLoadSprite (JSStr "b.png") o 3%Z;
              SpriteManager.Onload 1 4%Z;
              SpriteManager.CallLoadSprite (JSStr "a.png") o 5%Z;
              SpriteManager.CallLoadSprite (JSStr "c.png") o 6%Z] in
  exists k r t,
    In (k, r) (SpriteManager.spriteCache s) /\
    SpriteManager.lastUsed_of (SpriteManager.attempts s) r = Some t /\
    (forall k' r' t', In (k', r') (SpriteManager.spriteCache s) ->
       SpriteManager.lastUsed_of (SpriteManager.attempts s) r' = Some t' ->
       (t <= t')%Z) /\
    SpriteManager.spriteCache (SpriteManager.img_onload s 2 7%Z)
      = JsMap.set (JsMap.delete (SpriteManager.spriteCache s) k) "c.png" 2.
Proof.
  intros o s.
  assert (SpriteManager.reachable s) as R by (eexists _, _; reflexivity).
  refine (proj2 (SpriteManager_caching_load_evicts_least_recently_used s 2
                   (SpriteManager.loadSpriteInternal "c.png" o) 7%Z
                   R eq_refl eq_refl eq_refl) _ _).
  - subst s. simpl. lia.
  - subst s. simpl. discriminate.
Defined.

(** X11. In every reachable state each entry of the sprite cache is the
    sprite that a load of that very URL resolved with, and that load was
    started by a call with caching enabled: a sprite loaded with
    [{ cache: false }] is never in the cache. *)
Theorem SpriteManager_cache_holds_only_cached_loads
    (s : SpriteManager.state) (k : string) (r : nat) :
  SpriteManager.reachable s ->
  JsMap.get (SpriteManager.spriteCache s) k = Some r ->
  SpriteManager.valid_key k /\
  SpriteManager.status s (SpriteManager.FAwait r) = Some (Fulfilled r) /\
  exists a t, SpriteManager.attempts s !! r = Some a /\
              SpriteManager.a_url a = k /\
              SpriteManager.a_cache a = true /\
              SpriteManager.a_status a = SpriteManager.Loaded t.
Proof.
  intros R G. pose proof (JsMapFacts.get_In _ _ _ G) as Hin.
  destruct (SpriteManager.ci_entry _ (SpriteManagerMore.smx_cache_inv_reachable _ R) _ _ Hin)
    as (a & t & A & U & C & S).
  split; [exact (SpriteManager.inv_cache_valid _
                   (SpriteManagerFacts.sm_reachable_inv _ R) _ _ Hin)|].
  split; [simpl; rewrite A, S; reflexivity|]. eauto 7.
Qed.

Lemma SpriteManager_cache_holds_only_cached_loads_witness :
  let s := SpriteManager.run (SpriteManager.new_manager None)
             [SpriteManager.CallLoadSprite (JSStr "a.png") SpriteManager.no_options 1%Z;
              SpriteManager.Onload 0 2%Z] in
  SpriteManager.status s (SpriteManager.FAwait 0) = Some (Fulfilled 0).
Proof.
  intros s.
  assert (SpriteManager.reachable s) as R by (eexists _, _; reflexivity).
  exact (proj1 (proj2 (SpriteManager_cache_holds_only_cached_loads s "a.png" 0 R eq_refl))).
Defined.



(** X13. [removeFromCache(url)] never fails and touches the cache only:
    afterwards the URL is not cached, every other key reads as before, and
    the loading map and the attempts are the same.  When the URL was not
    cached, or the argument is not a string, nothing changes at all.  A
    [loadSprite] of the removed URL then fetches again, unless a load of it
    is already registered. *)
Theorem SpriteManager_removeFromCache_effect
    (s : SpriteManager.state) (url : jsval) :
  let s1 := SpriteManager.removeFromCache s url in
  SpriteManager.loadingPromises s1 = SpriteManager.loadingPromises s /\
  SpriteManager.attempts s1 = SpriteManager.attempts s /\
  (forall u, url = JSStr u ->
     SpriteManager.isCached s1 u = false /\
     forall k, k <> u ->
       JsMap.get (SpriteManager.spriteCache s1) k
         = JsMap.get (SpriteManager.spriteCache s) k) /\
  ((forall u, url = JSStr u -> SpriteManager.isCached s u = false) -> s1 = s) /\
  (forall u o now,
     url = JSStr u -> SpriteManager.valid_key u ->
     JsMap.get (SpriteManager.loadingPromises s) u = None ->
     snd (SpriteManager.loadSprite s1 url o now)
       = SpriteManager.FAwait (length (SpriteManager.attempts s)) /\
     SpriteManager.fetch_log (fst (SpriteManager.loadSprite s1 url o now))
       = (SpriteManager.fetch_log s ++ [u])%list).
Proof.
  intros s1. subst s1.
  split; [destruct url; reflexivity|]. split; [destruct url; reflexivity|]. split.
  { intros u ->. simpl. split.
    - unfold SpriteManager.isCached, JsMap.has. simpl.
      rewrite JsMapFacts.get_delete_eq. reflexivity.
    - intros k Hne. apply JsMapFacts.get_delete_ne. congruence. }
  split.
  { intros H. destruct url as [| | | |u|]; try reflexivity. simpl.
    specialize (H u eq_refl). apply JsMapFacts.has_false_get in H.
    rewrite (JsMapOrder.jm_delete_absent _ _ H). destruct s. reflexivity. }
  intros u o now -> V L.
  destruct (SpriteManagerFacts.sm_loadSprite_start
              (SpriteManager.removeFromCache s (JSStr u)) u o now V) as (Hf & Hl & _).
  - right. simpl. apply JsMapFacts.get_delete_eq.
  - exact L.
  - split; [exact Hf | exact Hl].
Qed.

Lemma SpriteManager_removeFromCache_effect_witness :
  let s := SpriteManager.run (SpriteManager.new_manager None)
             [SpriteManager.CallLoadSprite (JSStr "a.png") SpriteManager.no_options 1%Z;
              SpriteManager.Onload 0 2%Z] in
  let s1 := SpriteManager.removeFromCache s (JSStr "a.png") in
  SpriteManager.isCached s "a.png" = true /\
  SpriteManager.isCached s1 "a.png" = false /\
  snd (SpriteManager.loadSprite s1 (JSStr "a.png") SpriteManager.no_options 3%Z)
    = SpriteManager.FAwait 1 /\
  SpriteManager.removeFromCache s (JSStr "b.png") = s.
Proof.
  intros s s1.
  destruct (SpriteManager_removeFromCache_effect s (JSStr "a.png"))
    as (_ & _ & H3 & _ & H5).
  destruct (SpriteManager_removeFromCache_effect s (JSStr "b.png"))
    as (_ & _ & _ & H4 & _).
  split; [reflexivity|]. split; [exact (proj1 (H3 "a.png" eq_refl))|]. split.
  - exact (proj1 (H5 "a.png" SpriteManager.no_options 3%Z eq_refl eq_refl eq_refl)).
  - apply H4. intros u [= <-]. reflexivity.
Defined.

(** X14. [SpriteManager.clearCache()] empties both maps without cancelling
    the loads in flight.  For a load that was pending: its promise is still
    pending, a new [loadSprite] of its URL starts a second fetch, and when
    the first image arrives its sprite is put into the emptied cache all the
    same (unless that load was started with [cache: false]). *)
Theorem SpriteManager_clearCache_forgets_but_does_not_cancel
    (s : SpriteManager.state) (i : nat) (a : SpriteManager.attempt)
    (o : SpriteManager.sprite_options) (now now' : Z) :
  SpriteManager.reachable s ->
  SpriteManager.attempts s !! i = Some a ->
  SpriteManager.a_status a = SpriteManager.Pending ->
  let s1 := SpriteManager.clearCache s in
  let u := SpriteManager.a_url a in
  SpriteManager.spriteCache s1 = [] /\
  SpriteManager.loadingPromises s1 = [] /\
  SpriteManager.status s1 (SpriteManager.FAwait i) = None /\
  snd (SpriteManager.loadSprite s1 (JSStr u) o now')
    = SpriteManager.FAwait (length (SpriteManager.attempts s)) /\
  SpriteManager.fetch_count (fst (SpriteManager.loadSprite s1 (JSStr u) o now')) u
    = S (SpriteManager.fetch_count s u) /\
  SpriteManager.spriteCache (SpriteManager.img_onload s1 i now)
    = if SpriteManager.a_cache a then [(u, i)] else [].
Proof.
  intros R A P s1 u. subst s1 u.
  pose proof (SpriteManager.inv_attempts_valid _
                (SpriteManagerFacts.sm_reachable_inv _ R) _ _ A) as V.
  split; [reflexivity|]. split; [reflexivity|]. split.
  { simpl. rewrite A, P. reflexivity. }
  destruct (SpriteManagerFacts.sm_loadSprite_start (SpriteManager.clearCache s)
              (SpriteManager.a_url a) o now' V (or_intror eq_refl) eq_refl)
    as (Hf & Hl & _).
  split; [exact Hf|]. split.
  - unfold SpriteManager.fetch_count. rewrite Hl.
    apply AssetLoaderFacts.al_fetch_count_snoc.
  - unfold SpriteManager.img_onload. simpl. rewrite A, P. simpl.
    destruct (SpriteManager.a_cache a); [|reflexivity].
    unfold SpriteManager.addToCache, SpriteManager.evict. simpl.
    destruct (_ >=? _)%Z; reflexivity.
Qed.

Lemma SpriteManager_clearCache_forgets_but_does_not_cancel_witness :
  let s := fst (SpriteManager.loadSprite (SpriteManager.new_manager None)
                  (JSStr "a.png") SpriteManager.no_options 1%Z) in
  let s1 := SpriteManager.clearCache s in
  snd (SpriteManager.loadSprite s1 (JSStr "a.png") SpriteManager.no_options 2%Z)
    = SpriteManager.FAwait 1 /\
  SpriteManager.spriteCache (SpriteManager.img_onload s1 0 3%Z) = [("a.png", 0)].
Proof.
  intros s s1.
  assert (SpriteManager.reachable s) as R.
  { exists None,
      [SpriteManager.CallLoadSprite (JSStr "a.png") SpriteManager.no_options 1%Z].
    reflexivity. }
  destruct (SpriteManager_clearCache_forgets_but_does_not_cancel s 0
              (SpriteManager.loadSpriteInternal "a.png" SpriteManager.no_options)
              SpriteManager.no_options 3%Z 2%Z R eq_refl eq_refl)
    as (_ & _ & _ & H1 & _ & H2).
  split; [exact H1 | exact H2].
Defined.

(** X15. A [SpriteManager] load that fails or times out stays registered:
    its rejected promise remains in the loading map, so every later
    [loadSprite] of that URL that is not answered from the cache receives
    this rejected promise and starts no fetch.  Only [clearCache()] drops the
    entry; the next call then fetches again. *)
Theorem SpriteManager_rejected_load_stays_registered
    (s s1 : SpriteManager.state) (i : nat) (a : SpriteManager.attempt) :
  SpriteManager.reachable s ->
  SpriteManager.attempts s !! i = Some a ->
  SpriteManager.a_status a = SpriteManager.Pending ->
  JsMap.get (SpriteManager.loadingPromises s) (SpriteManager.a_url a) = Some i ->
  s1 = SpriteManager.img_onerror s i \/ s1 = SpriteManager.timer_fires s i ->
  let u := SpriteManager.a_url a in
  JsMap.get (SpriteManager.loadingPromises s1) u = Some i /\
  (exists e, SpriteManager.status s1 (SpriteManager.FLoad i) = Some (Rejected e)) /\
  (forall o now n,
     SpriteManager.cache_enabled o = false \/
       JsMap.get (SpriteManager.spriteCache s1) u = None ->
     SpriteManager.calls s1 (JSStr u) o now n = (s1, repeat (SpriteManager.FLoad i) n)) /\
  (forall o now,
     snd (SpriteManager.loadSprite (SpriteManager.clearCache s1) (JSStr u) o now)
       = SpriteManager.FAwait (length (SpriteManager.attempts s1)) /\
     SpriteManager.fetch_count
       (fst (SpriteManager.loadSprite (SpriteManager.clearCache s1) (JSStr u) o now)) u
       = S (SpriteManager.fetch_count s1 u)).
Proof.
  intros R A P L Hs1 u. subst u.
  pose proof (SpriteManager.inv_attempts_valid _
                (SpriteManagerFacts.sm_reachable_inv _ R) _ _ A) as V.
  assert (JsMap.get (SpriteManager.loadingPromises s1) (SpriteManager.a_url a) = Some i
          /\ exists e, SpriteManager.status s1 (SpriteManager.FLoad i) = Some (Rejected e))
    as [L1 St].
  { destruct Hs1 as [-> | ->].
    - unfold SpriteManager.img_onerror. rewrite A, P. simpl. split; [exact L|].
      rewrite list_lookup_insert_eq by exact (lookup_lt_Some _ _ _ A). simpl. eauto.
    - unfold SpriteManager.timer_fires. rewrite A, P. simpl. split; [exact L|].
      rewrite list_lookup_insert_eq by exact (lookup_lt_Some _ _ _ A). simpl. eauto. }
  split; [exact L1|]. split; [exact St|]. split.
  - intros o now n C.
    exact (SpriteManagerFacts.sm_calls_join s1 _ i o n now V C L1).
  - intros o now.
    destruct (SpriteManagerFacts.sm_loadSprite_start (SpriteManager.clearCache s1)
                (SpriteManager.a_url a) o now V (or_intror eq_refl) eq_refl)
      as (Hf & Hl & _).
    split; [exact Hf|].
    unfold SpriteManager.fetch_count. rewrite Hl.
    apply AssetLoaderFacts.al_fetch_count_snoc.
Qed.

Lemma SpriteManager_rejected_load_stays_registered_witness :
  let s := fst (SpriteManager.loadSprite (SpriteManager.new_manager None)
                  (JSStr "a.png") SpriteManager.no_options 1%Z) in
  let s1 := SpriteManager.timer_fires s 0 in
  JsMap.get (SpriteManager.loadingPromises s1) "a.png" = Some 0 /\
  SpriteManager.calls s1 (JSStr "a.png") SpriteManager.no_options 2%Z 2
    = (s1, [SpriteManager.FLoad 0; SpriteManager.FLoad 0]) /\
  snd (SpriteManager.loadSprite (SpriteManager.clearCache s1) (JSStr "a.png")
         SpriteManager.no_options 4%Z) = SpriteManager.FAwait 1.
Proof.
  intros s s1.
  assert (SpriteManager.reachable s) as R.
  { exists None,
      [SpriteManager.CallLoadSprite (JSStr "a.png") SpriteManager.no_options 1%Z].
    reflexivity. }
  destruct (SpriteManager_rejected_load_stays_registered s s1 0
              (SpriteManager.loadSpriteInternal "a.png" SpriteManager.no_options)
              R eq_refl eq_refl eq_refl (or_intror eq_refl))
    as (H1 & _ & H3 & H4).
  split; [exact H1|]. split.
  - exact (H3 SpriteManager.no_options 2%Z 2 (or_intror eq_refl)).
  - exact (proj1 (H4 SpriteManager.no_options 4%Z)).
Defined.

(** ** [clamp] *)

Module JsMathFacts.
Import JsMath.

Lemma jmath_leb_true (x y : Qc) : Qle_bool x y = true <-> (x <= y)%Qc.
Proof. unfold Qcle. apply Qle_bool_iff. Qed.

Lemma jmath_leb_false (x y : Qc) : Qle_bool x y = false <-> (y < x)%Qc.
Proof.
  split.
  - intros H. apply Qcnot_le_lt. intros L. apply jmath_leb_true in L. congruence.
  - intros H. destruct (Qle_bool x y) eqn:E; [|reflexivity].
    apply jmath_leb_true in E. exfalso. exact (Qcle_not_lt _ _ E H).
Qed.

Lemma jmath_max2_spec (x y : Qc) :
  ((x <= y)%Qc /\ max2 x y = y) \/ ((y < x)%Qc /\ max2 x y = x).
Proof.
  unfold max2. destruct (Qle_bool x y) eqn:E.
  - left. split; [apply jmath_leb_true, E | reflexivity].
  - right. split; [apply jmath_leb_false, E | reflexivity].
Qed.

Lemma jmath_min2_spec (x y : Qc) :
  ((x <= y)%Qc /\ min2 x y = x) \/ ((y < x)%Qc /\ min2 x y = y).
Proof.
  unfold min2. destruct (Qle_bool x y) eqn:E.
  - left. split; [apply jmath_leb_true, E | reflexivity].
  - right. split; [apply jmath_leb_false, E | reflexivity].
Qed.

Lemma jmath_le_lt_absurd (x y : Qc) : (x <= y)%Qc -> (y < x)%Qc -> False.
Proof. apply Qcle_not_lt. Qed.

(** [clamp] on three finite numbers, by cases on their order. *)
Lemma jmath_clamp_cases (v lo hi : Qc) :
  let r := min2 (max2 v lo) hi in
  ((hi < lo)%Qc /\ r = hi) \/
  ((lo <= hi)%Qc /\
   (((v <= lo)%Qc /\ r = lo) \/
    ((lo < v)%Qc /\ (v <= hi)%Qc /\ r = v) \/
    ((hi < v)%Qc /\ r = hi))).
Proof.
  intros r. subst r.
  destruct (Qclt_le_dec hi lo) as [Hinv|Hord].
  - left. split; [exact Hinv|].
    destruct (jmath_max2_spec v lo) as [[H1 ->]|[H1 ->]];
      destruct (jmath_min2_spec lo hi) as [[H2 E2]|[H2 E2]];
      destruct (jmath_min2_spec v hi) as [[H3 E3]|[H3 E3]]; try assumption.
    + exfalso. exact (jmath_le_lt_absurd _ _ H2 Hinv).
    + exfalso. exact (jmath_le_lt_absurd _ _ H2 Hinv).
    + exfalso. apply (jmath_le_lt_absurd _ _ H3).
      exact (Qclt_trans _ _ _ Hinv H1).
    + exfalso. apply (jmath_le_lt_absurd _ _ H3).
      exact (Qclt_trans _ _ _ Hinv H1).
  - right. split; [exact Hord|].
    destruct (jmath_max2_spec v lo) as [[H1 ->]|[H1 ->]].
    + left. split; [exact H1|].
      destruct (jmath_min2_spec lo hi) as [[H2 E2]|[H2 E2]]; [exact E2|].
      exfalso. exact (jmath_le_lt_absurd _ _ Hord H2).
    + right. destruct (jmath_min2_spec v hi) as [[H3 E3]|[H3 E3]].
      * left. auto.
      * right. auto.
Qed.

End JsMathFacts.

(** X16. With finite arguments and [min <= max], [clamp] returns a number
    between the bounds: the value itself when it lies between them, [min]
    when it is below and [max] when it is above. *)
Theorem clamp_within_bounds (v lo hi : Qc) :
  (lo <= hi)%Qc ->
  exists r,
    JsMath.clamp (JsMath.Num (JsMath.Finite v)) (JsMath.Num (JsMath.Finite lo))
      (JsMath.Num (JsMath.Finite hi)) = inr (JsMath.Finite r) /\
    (lo <= r)%Qc /\ (r <= hi)%Qc /\
    ((lo <= v)%Qc -> (v <= hi)%Qc -> r = v) /\
    ((v < lo)%Qc -> r = lo) /\
    ((hi < v)%Qc -> r = hi).
Proof.
  intros Hord. exists (JsMath.min2 (JsMath.max2 v lo) hi).
  split; [reflexivity|].
  destruct (JsMathFacts.jmath_clamp_cases v lo hi)
    as [[Hinv _]|[_ [[H1 ->]|[(H1 & H2 & ->)|[H1 ->]]]]].
  - exfalso. exact (JsMathFacts.jmath_le_lt_absurd _ _ Hord Hinv).
  - split; [apply Qcle_refl|]. split; [exact Hord|]. split; [|split].
    + intros L _. apply Qcle_antisym; assumption.
    + reflexivity.
    + intros H. exfalso. apply (JsMathFacts.jmath_le_lt_absurd _ _ Hord).
      exact (Qclt_le_trans _ _ _ H H1).
  - split; [apply Qclt_le_weak, H1|]. split; [exact H2|]. split; [|split].
    + reflexivity.
    + intros H. exfalso. exact (JsMathFacts.jmath_le_lt_absurd _ _ (Qclt_le_weak _ _ H) H1).
    + intros H. exfalso. exact (JsMathFacts.jmath_le_lt_absurd _ _ H2 H).
  - split; [exact Hord|]. split; [apply Qcle_refl|]. split; [|split].
    + intros _ L. apply Qcle_antisym; [|exact L]. apply Qclt_le_weak, H1.
    + intros H. exfalso. apply (JsMathFacts.jmath_le_lt_absurd _ _ Hord).
      exact (Qclt_trans _ _ _ H1 H).
    + reflexivity.
Qed.

(** [clamp(5, 0, 3)] is [3]. *)
Lemma clamp_within_bounds_witness :
  exists r,
    JsMath.clamp (JsMath.Num (JsMath.Finite (Q2Qc 5)))
      (JsMath.Num (JsMath.Finite (Q2Qc 0))) (JsMath.Num (JsMath.Finite (Q2Qc 3)))
      = inr (JsMath.Finite r) /\
    (Q2Qc 0 <= r)%Qc /\ (r <= Q2Qc 3)%Qc.
Proof.
  assert ((Q2Qc 0 <= Q2Qc 3)%Qc) as H by (unfold Qcle; simpl; unfold Qle; simpl; lia).
  destruct (clamp_within_bounds (Q2Qc 5) (Q2Qc 0) (Q2Qc 3) H) as (r & E & L & U & _).
  exists r. auto.
Defined.

(** X17. [clamp] does not check its bounds: with [min > max] it returns
    [max] for every value. *)
Theorem clamp_inverted_bounds_returns_max (v lo hi : Qc) :
  (hi < lo)%Qc ->
  JsMath.clamp (JsMath.Num (JsMath.Finite v)) (JsMath.Num (JsMath.Finite lo))
    (JsMath.Num (JsMath.Finite hi)) = inr (JsMath.Finite hi).
Proof.
  intros Hinv.
  change (inr (JsMath.Finite (JsMath.min2 (JsMath.max2 v lo) hi))
          = (inr (JsMath.Finite hi) : JsMath.thrown + JsMath.number)).
  destruct (JsMathFacts.jmath_clamp_cases v lo hi) as [[_ E]|[Hord _]];
    [simpl in E; rewrite E; reflexivity|].
  exfalso. exact (JsMathFacts.jmath_le_lt_absurd _ _ Hord Hinv).
Qed.

(** [clamp(5, 10, 0)] is [0]. *)
Lemma clamp_inverted_bounds_returns_max_witness :
  JsMath.clamp (JsMath.Num (JsMath.Finite (Q2Qc 5)))
    (JsMath.Num (JsMath.Finite (Q2Qc 10))) (JsMath.Num (JsMath.Finite (Q2Qc 0)))
    = inr (JsMath.Finite (Q2Qc 0)).
Proof.
  apply clamp_inverted_bounds_returns_max.
  unfold Qclt. simpl. unfold Qlt. simpl. lia.
Defined.

(** X18. [clamp] throws exactly when one of its arguments is not a finite
    number, and then a [TypeError]; otherwise its result is finite and a
    fixed point: clamping it again with the same bounds returns it. *)
Theorem clamp_throws_or_is_idempotent (value min max : JsMath.arg) :
  (forall e, JsMath.clamp value min max = inl e ->
     e = JsMath.TypeError /\
     JsMath.isFinite value && JsMath.isFinite min && JsMath.isFinite max = false) /\
  (JsMath.isFinite value && JsMath.isFinite min && JsMath.isFinite max = false ->
   JsMath.clamp value min max = inl JsMath.TypeError) /\
  (forall r, JsMath.clamp value min max = inr r ->
     JsMath.isFinite (JsMath.Num r) = true /\
     JsMath.clamp (JsMath.Num r) min max = inr r).
Proof.
  destruct value as [[| | |v]|], min as [[| | |lo]|], max as [[| | |hi]|];
    cbn -[JsMath.min2 JsMath.max2];
    try (split; [intros e [= <-]; auto | split; [auto | intros r; discriminate]]).
  split; [intros e; discriminate|]. split; [discriminate|].
  intros r [= <-]. split; [reflexivity|].
  cbn -[JsMath.min2 JsMath.max2]. f_equal. f_equal.
  destruct (JsMathFacts.jmath_clamp_cases v lo hi)
    as [[Hinv E]|[Hord [[H1 E]|[(H1 & H2 & E)|[H1 E]]]]]; simpl in E; rewrite E.
  - destruct (JsMathFacts.jmath_clamp_cases hi lo hi) as [[_ E']|[Hord _]];
      [exact E'|].
    exfalso. exact (JsMathFacts.jmath_le_lt_absurd _ _ Hord Hinv).
  - destruct (JsMathFacts.jmath_clamp_cases lo lo hi)
      as [[Hinv _]|[_ [[_ E']|[(H3 & _)|[H3 _]]]]].
    + exfalso. exact (JsMathFacts.jmath_le_lt_absurd _ _ Hord Hinv).
    + exact E'.
    + exfalso. exact (JsMathFacts.jmath_le_lt_absurd _ _ (Qcle_refl lo) H3).
    + exfalso. exact (JsMathFacts.jmath_le_lt_absurd _ _ Hord H3).
  - destruct (JsMathFacts.jmath_clamp_cases v lo hi)
      as [[Hinv _]|[_ [[H3 _]|[(_ & _ & E')|[H3 _]]]]].
    + exfalso. exact (JsMathFacts.jmath_le_lt_absurd _ _ Hord Hinv).
    + exfalso. exact (JsMathFacts.jmath_le_lt_absurd _ _ H3 H1).
    + exact E'.
    + exfalso. exact (JsMathFacts.jmath_le_lt_absurd _ _ H2 H3).
  - destruct (JsMathFacts.jmath_clamp_cases hi lo hi)
      as [[Hinv _]|[_ [[H3 E']|[(_ & _ & E')|[H3 _]]]]].
    + exfalso. exact (JsMathFacts.jmath_le_lt_absurd _ _ Hord Hinv).
    + simpl in E'. rewrite E'. apply Qcle_antisym; assumption.
    + exact E'.
    + exfalso. exact (JsMathFacts.jmath_le_lt_absurd _ _ (Qcle_refl hi) H3).
Qed.

(** [clamp(NaN, 0, 1)] throws, and [clamp(clamp(5, 0, 3), 0, 3)] is
    [clamp(5, 0, 3)]. *)
Lemma clamp_throws_or_is_idempotent_witness :
  JsMath.clamp (JsMath.Num JsMath.NaN) (JsMath.Num (JsMath.Finite (Q2Qc 0)))
    (JsMath.Num (JsMath.Finite (Q2Qc 1))) = inl JsMath.TypeError /\
  JsMath.clamp (JsMath.Num (JsMath.Finite (Q2Qc 3)))
    (JsMath.Num (JsMath.Finite (Q2Qc 0))) (JsMath.Num (JsMath.Finite (Q2Qc 3)))
    = inr (JsMath.Finite (Q2Qc 3)).
Proof.
  split.
  - apply (proj1 (proj2 (clamp_throws_or_is_idempotent _ _ _))). reflexivity.
  - apply (proj2 (proj2 (clamp_throws_or_is_idempotent
                           (JsMath.Num (JsMath.Finite (Q2Qc 5)))
                           (JsMath.Num (JsMath.Finite (Q2Qc 0)))
                           (JsMath.Num (JsMath.Finite (Q2Qc 3)))))
             (JsMath.Finite (Q2Qc 3))).
    reflexivity.
Defined.

(** ** Letter case in validation *)

Module JsStringCase.
Import JsString.

Lemma jsc_lower_idem (c : ascii) : toLowerAscii (toLowerAscii c) = toLowerAscii c.
Proof. destruct c as [[] [] [] [] [] [] [] []]; reflexivity. Qed.

Lemma jsc_lower_dot (c : ascii) :
  Ascii.eqb (toLowerAscii c) "."%char = Ascii.eqb c "."%char.
Proof. destruct c as [[] [] [] [] [] [] [] []]; reflexivity. Qed.

Lemma jsc_toLowerCase_idem (s : string) : toLowerCase (toLowerCase s) = toLowerCase s.
Proof.
  induction s as [|c r IH]; simpl; [reflexivity|].
  rewrite jsc_lower_idem, IH. reflexivity.
Qed.

Lemma jsc_toLowerCase_empty (s : string) : toLowerCase s = "" <-> s = "".
Proof. destruct s; simpl; split; congruence. Qed.

Lemma jsc_split_lower (s : string) :
  split "."%char (toLowerCase s) = List.map toLowerCase (split "."%char s).
Proof.
  induction s as [|c r IH]; simpl; [reflexivity|].
  rewrite jsc_lower_dot. destruct (Ascii.eqb c "."%char); rewrite IH; [reflexivity|].
  destruct (split "."%char r); reflexivity.
Qed.

Lemma jsc_last_map (l : list string) (d : string) :
  List.last (List.map toLowerCase l) (toLowerCase d) = toLowerCase (List.last l d).
Proof.
  induction l as [|x l IH]; [reflexivity|].
  simpl. destruct l; [reflexivity | exact IH].
Qed.

Lemma jsc_extension_lower (s : string) : extension (toLowerCase s) = extension s.
Proof.
  unfold extension, pop. rewrite jsc_split_lower.
  change EmptyString with (toLowerCase EmptyString) at 1.
  rewrite jsc_last_map. apply jsc_toLowerCase_idem.
Qed.

Lemma jsc_same_extension (u u' : string) :
  toLowerCase u = toLowerCase u' -> extension u = extension u' /\ (u = "" <-> u' = "").
Proof.
  intros E. split.
  - rewrite <- (jsc_extension_lower u), <- (jsc_extension_lower u'), E. reflexivity.
  - rewrite <- (jsc_toLowerCase_empty u), <- (jsc_toLowerCase_empty u'), E. tauto.
Qed.

End JsStringCase.

(** X19. Validation ignores letter case: two URLs that differ only in the
    case of their letters have the same extension, and each validator
    accepts both or rejects both. *)
Theorem validation_ignores_letter_case (u u' : string) (fmts : list string) :
  JsString.toLowerCase u = JsString.toLowerCase u' ->
  JsString.extension u = JsString.extension u' /\
  (AssetLoader._validateAssetUrl fmts (JSStr u) = inr u <->
   AssetLoader._validateAssetUrl fmts (JSStr u') = inr u') /\
  (SpriteManager.validateUrl (JSStr u) = inr u <->
   SpriteManager.validateUrl (JSStr u') = inr u').
Proof.
  intros E. destruct (JsStringCase.jsc_same_extension u u' E) as [Ext Emp].
  split; [exact Ext|].
  destruct (String.eqb u "") eqn:Eu.
  - apply String.eqb_eq in Eu. pose proof (proj1 Emp Eu) as Eu'. subst u u'.
    split; split; discriminate.
  - apply String.eqb_neq in Eu.
    assert (u' <> "") as Eu' by tauto.
    rewrite (AssetLoaderFacts.al_validate_str fmts u Eu),
            (AssetLoaderFacts.al_validate_str fmts u' Eu'),
            (SpriteManagerFacts.sm_validate_str u Eu),
            (SpriteManagerFacts.sm_validate_str u' Eu'), Ext.
    split.
    + destruct (JsString.includes fmts (JsString.extension u'));
        split; intros H; try reflexivity; discriminate.
    + destruct (JsString.includes _ (JsString.extension u'));
        split; intros H; try reflexivity; discriminate.
Qed.

(** ['SHIP.PNG'] is accepted because ['ship.png'] is. *)
Lemma validation_ignores_letter_case_witness :
  AssetLoader._validateAssetUrl AssetLoader.CONFIG.SUPPORTED_FORMATS (JSStr "SHIP.PNG")
    = inr "SHIP.PNG" /\
  SpriteManager.validateUrl (JSStr "SHIP.PNG") = inr "SHIP.PNG".
Proof.
  destruct (validation_ignores_letter_case "ship.png" "SHIP.PNG"
              AssetLoader.CONFIG.SUPPORTED_FORMATS eq_refl) as (_ & HA & HS).
  split; [apply HA | apply HS]; reflexivity.
Defined.

(** ** Recency and preloading from the cache *)

Module SpriteManagerRecency.
Import SpriteManager.

Lemma smr_unique_value (c : JsMap.t nat) k r r' :
  List.NoDup (JsMap.keys c) -> In (k, r) c -> JsMap.get c k = Some r' -> r = r'.
Proof.
  induction c as [|[k0 v0] c IH]; simpl; [tauto|].
  intros ND [H|H] G.
  - injection H as -> ->. rewrite String.eqb_refl in G. congruence.
  - inversion ND as [|x l Hnot ND']; subst.
    destruct (String.eqb k k0) eqn:E.
    + apply String.eqb_eq in E. subst k0. exfalso. apply Hnot.
      change (In (fst (k, r)) (List.map fst c)). apply List.in_map, H.
    + exact (IH ND' H G).
Qed.

(** What the eviction step of a successful caching load removes, in terms
    of the [lastUsed] values before the load settled. *)
Lemma smr_evict_on_load s i a now :
  inv s -> attempts s !! i = Some a -> a_status a = Pending ->
  let atts := <[i := with_status a (Loaded now)]> (attempts s) in
  evict (maxCacheSize s) atts (spriteCache s) = spriteCache s \/
  exists k r t,
    evict (maxCacheSize s) atts (spriteCache s) = JsMap.delete (spriteCache s) k /\
    In (k, r) (spriteCache s) /\
    lastUsed_of (attempts s) r = Some t /\
    forall k' r' t', In (k', r') (spriteCache s) ->
      lastUsed_of (attempts s) r' = Some t' -> (t <= t')%Z.
Proof.
  intros I A P atts.
  assert (forall k r t, In (k, r) (spriteCache s) ->
            (lastUsed_of (attempts s) r = Some t <-> lastUsed_of atts r = Some t)) as Same.
  { intros k r t H. destruct (inv_cache_loaded _ I _ _ H) as [t0 Ht0].
    pose proof (SpriteManagerFacts.sm_lastUsed_settle _ _ _ (Loaded now) _ _ A P Ht0) as H1.
    fold atts in H1. rewrite Ht0, H1. tauto. }
  destruct (SpriteManager_evicts_least_recently_used (maxCacheSize s) atts (spriteCache s))
    as [E|(k & r & t & E & Hin & Ht & Hleast)]; [left; exact E|].
  right. exists k, r, t. split; [exact E|]. split; [exact Hin|].
  split; [apply (Same k r t Hin), Ht|].
  intros k' r' t' Hin' Ht'. apply (Hleast k' r' t' Hin'). apply (Same k' r' t' Hin'), Ht'.
Qed.

End SpriteManagerRecency.

(** X20. Recency protects: a cached sprite that some other cached sprite is
    older than (has a smaller [lastUsed]) is still cached after the next
    load has succeeded, whatever had to be evicted for it. *)
Theorem SpriteManager_recently_used_sprite_survives
    (s : SpriteManager.state) (i : nat) (a : SpriteManager.attempt) (now : Z)
    (k k' : string) (r r' : nat) (t t' : Z) :
  SpriteManager.reachable s ->
  SpriteManager.attempts s !! i = Some a ->
  SpriteManager.a_status a = SpriteManager.Pending ->
  JsMap.get (SpriteManager.spriteCache s) k = Some r ->
  SpriteManager.lastUsed_of (SpriteManager.attempts s) r = Some t ->
  In (k', r') (SpriteManager.spriteCache s) ->
  SpriteManager.lastUsed_of (SpriteManager.attempts s) r' = Some t' ->
  (t' < t)%Z ->
  SpriteManager.isCached (SpriteManager.img_onload s i now) k = true.
Proof.
  intros R A P G Ht Hin' Ht' Hlt.
  pose proof (SpriteManagerFacts.sm_reachable_inv _ R) as I.
  pose proof (SpriteManager.ci_nodup _ (SpriteManagerMore.smx_cache_inv_reachable _ R)) as ND.
  unfold SpriteManager.isCached, SpriteManager.img_onload. rewrite A, P. simpl.
  destruct (SpriteManager.a_cache a).
  - unfold SpriteManager.addToCache.
    assert (JsMap.get (SpriteManager.evict (SpriteManager.maxCacheSize s)
                         (<[i := SpriteManager.with_status a (SpriteManager.Loaded now)]>
                            (SpriteManager.attempts s))
                         (SpriteManager.spriteCache s)) k = Some r) as G1.
    { destruct (SpriteManagerRecency.smr_evict_on_load s i a now I A P)
        as [->|(k0 & r0 & t0 & -> & Hin0 & Ht0 & Hleast)]; [exact G|].
      destruct (String.eqb k0 k) eqn:E.
      - apply String.eqb_eq in E. subst k0.
        pose proof (SpriteManagerRecency.smr_unique_value _ _ _ _ ND Hin0 G). subst r0.
        assert (t0 = t) by congruence. subst t0.
        specialize (Hleast _ _ _ Hin' Ht'). lia.
      - apply String.eqb_neq in E. rewrite JsMapFacts.get_delete_ne by exact E. exact G. }
    apply JsMapFacts.has_get.
    destruct (String.eqb (SpriteManager.a_url a) k) eqn:E.
    + apply String.eqb_eq in E. subst k. rewrite JsMapFacts.get_set_eq. eauto.
    + apply String.eqb_neq in E. rewrite JsMapFacts.get_set_ne by exact E. eauto.
  - apply JsMapFacts.has_get. eauto.
Qed.

(** Bound 2, ['a.png'] and ['b.png'] cached, ['a.png'] used at time 5: after
    ['c.png'] has loaded, ['a.png'] is still cached. *)
Lemma SpriteManager_recently_used_sprite_survives_witness :
  let o := SpriteManager.no_options in
  let s := SpriteManager.run (SpriteManager.new_manager (Some 2%Z))
             [SpriteManager.CallLoadSprite (JSStr "a.png") o 1%Z;
              SpriteManager.Onload 0 2%Z;
              SpriteManager.CallLoadSprite (JSStr "b.png") o 3%Z;
              SpriteManager.Onload 1 4%Z;
              SpriteManager.CallLoadSprite (JSStr "a.png") o 5%Z;
              SpriteManager.CallLoadSprite (JSStr "c.png") o 6%Z] in
  SpriteManager.isCached (SpriteManager.img_onload s 2 7%Z) "a.png" = true.
Proof.
  intros o s.
  assert (SpriteManager.reachable s) as R by (eexists _, _; reflexivity).
  refine (SpriteManager_recently_used_sprite_survives s 2
            (SpriteManager.loadSpriteInternal "c.png" o) 7%Z
            "a.png" "b.png" 0 1 5%Z 4%Z R eq_refl eq_refl eq_refl eq_refl _ eq_refl _).
  - subst s. simpl. tauto.
  - lia.
Defined.

(** X21. Preloading what is cached is immediate: when every URL of the
    argument is in the cache of a reachable loader, [preloadSprites] starts
    no fetch, leaves the loader as it is, and its promise is fulfilled at
    once with the cached images in the order of the URLs. *)
Theorem AssetLoader_preload_of_cached_is_immediate
    (s : AssetLoader.state) (urls : list jsval) (hs : list AssetLoader.handle) :
  AssetLoader.reachable s ->
  Forall2 (fun url h => exists k, url = JSStr k /\
                                  JsMap.get (AssetLoader.cache s) k = Some h) urls hs ->
  fst (AssetLoader.preloadSprites s urls) = s /\
  AssetLoader.preload_status s (snd (AssetLoader.preloadSprites s urls))
    = Some (Fulfilled hs).
Proof.
  intros R F. pose proof (AssetLoaderFacts.al_reachable_inv _ R) as I.
  assert (AssetLoader.map_loadSprite s urls = (s, List.map AssetLoader.FResolved hs)) as M.
  { induction F as [|url h urls' hs' (k & -> & G) F IH]; simpl; [reflexivity|].
    pose proof (AssetLoader.inv_cache_valid _ I _ _ G) as V.
    unfold AssetLoader.loadSprite at 1. rewrite V, G, IH. reflexivity. }
  unfold AssetLoader.preloadSprites. rewrite M. simpl. split; [reflexivity|].
  unfold AssetLoader.preload_status. simpl.
  assert (Forall2 (fun f h => AssetLoader.status s f = Some (Fulfilled h))
            (List.map AssetLoader.FResolved hs) hs) as F2.
  { clear. induction hs as [|h hs IH]; simpl; constructor; [reflexivity | exact IH]. }
  rewrite (AssetLoaderCalls.alc_Forall2_not_rejected _ _ _ F2).
  apply AssetLoaderCalls.alc_all_fulfilled_Forall2 in F2. rewrite F2. reflexivity.
Qed.

Lemma AssetLoader_preload_of_cached_is_immediate_witness :
  let s := AssetLoader.run (AssetLoader.new_loader AssetLoader.default_ctor)
             [AssetLoader.CallLoadSprite (JSStr "a.png"); AssetLoader.Onload 0;
              AssetLoader.CallLoadSprite (JSStr "b.png"); AssetLoader.Onload 1] in
  let urls := [JSStr "b.png"; JSStr "a.png"; JSStr "b.png"] in
  fst (AssetLoader.preloadSprites s urls) = s /\
  AssetLoader.preload_status s (snd (AssetLoader.preloadSprites s urls))
    = Some (Fulfilled [1; 0; 1]).
Proof.
  intros s urls.
  assert (AssetLoader.reachable s) as R by (eexists _, _; reflexivity).
  apply (AssetLoader_preload_of_cached_is_immediate s urls [1; 0; 1] R).
  repeat constructor; eexists; split; reflexivity.
Defined.
